(** * ladderboard_game: the two GPIO utilities

  - [flash_fast.cpp]: the direct-register pin toggler (module [Toggler]);
  - the software-PWM brightness driver (module [Pwm]).

  Both programs are non-terminating hardware-control loops.  They are
  embedded as interaction trees over the system calls, register accesses
  and library calls they perform, and run by a small-step executor over an
  explicit machine state that records the observable trace. *)

From Stdlib Require Import ZArith List String Ascii Bool Lia Floats Uint63.
From ITree Require Import ITree.
From Paco Require Import paco.
Import ListNotations.
Import ITreeNotations.

Local Open Scope Z_scope.
Local Open Scope itree_scope.

(** ** Machine integers of the C++ sources *)

Module CInt.

(** [uint32_t] values are kept in [0, 2^32). *)
Definition wrap32 (x : Z) : Z := x mod 2^32.

(** [int] values are kept in [-2^31, 2^31). *)
Definition wrap_int (x : Z) : Z := (x + 2^31) mod 2^32 - 2^31.

(** [x << n] on [uint32_t]. *)
Definition shl32 (x n : Z) : Z := wrap32 (Z.shiftl x n).

(** [~x] on [uint32_t]. *)
Definition not32 (x : Z) : Z := wrap32 (Z.lnot x).

(** [a / b] and [a % b] on [int]: C++ truncates towards zero. *)
Definition cdiv (a b : Z) : Z := Z.quot a b.
Definition cmod (a b : Z) : Z := Z.rem a b.

(** [unsigned long] values are kept in [0, 2^64): [long] and [off_t] are
    64 bits wide (LP64), as in [Libc.LONG_MAX]. *)
Definition wrap_ulong (x : Z) : Z := x mod 2^64.

(** The conversion [(off_t) x] of an [unsigned long]: values from 2^63
    on become negative. *)
Definition to_off_t (x : Z) : Z :=
  if wrap_ulong x <? 2^63 then wrap_ulong x else wrap_ulong x - 2^64.

End CInt.

(** ** The C library's [atoi], as glibc implements it:
  [(int) strtol (s, NULL, 10)]. *)

Module Libc.

Definition isspace (c : ascii) : bool :=
  let n := Z.of_nat (nat_of_ascii c) in
  (n =? 32) || ((9 <=? n) && (n <=? 13)).

Definition digit_of (c : ascii) : option Z :=
  let n := Z.of_nat (nat_of_ascii c) in
  if (48 <=? n) && (n <=? 57) then Some (n - 48) else None.

Fixpoint skip_space (s : string) : string :=
  match s with
  | String c s' => if isspace c then skip_space s' else s
  | EmptyString => s
  end.

(** The value of the longest prefix of decimal digits, [acc] being the
    value of the digits already read. *)
Fixpoint digits_value (s : string) (acc : Z) : Z :=
  match s with
  | String c s' =>
      match digit_of c with
      | Some d => digits_value s' (10 * acc + d)
      | None => acc
      end
  | EmptyString => acc
  end.

Definition LONG_MAX : Z := 2^63 - 1.
Definition LONG_MIN : Z := - 2^63.

(** [strtol (s, NULL, 10)]: optional white space, optional sign, digits;
    0 when no digit can be read; saturating at the bounds of [long]. *)
Definition strtol10 (s : string) : Z :=
  let s1 := skip_space s in
  let '(neg, s2) :=
    match s1 with
    | String "-"%char r => (true, r)
    | String "+"%char r => (false, r)
    | _ => (false, s1)
    end in
  let v := digits_value s2 0 in
  let v := if neg then - v else v in
  Z.max LONG_MIN (Z.min LONG_MAX v).

Definition atoi (s : string) : Z := CInt.wrap_int (strtol10 s).

End Libc.

(** ** flash_fast.cpp: the direct-register toggler *)

Module Toggler.
Import CInt.

Inductive signal := SIGINT | SIGTERM.

(** A pointer into the process's address space: [nullptr] or an address.
    [reg] is a [volatile uint32_t *] computed as base pointer plus a
    number of 32-bit words. *)
Inductive pointer := NULL | Ptr (addr : Z).

(** What [mmap] returns. *)
Inductive mmap_result := MAP_FAILED | Mapped (addr : Z).

(** The lines the program prints on standard error. *)
Inductive message :=
| MsgUsage (argv0 : option string)
| MsgInvalidPin (pin : Z)
| MsgMapFailed.

(** The effects of the program: accesses to its two file-scope variables
    [gpio] and [targetPin], library and system calls, and volatile
    accesses [p[off]] to the register window. *)
Variant togglerE : Type -> Type :=
| RdGpio : togglerE pointer
| WrGpio (p : pointer) : togglerE unit
| RdTargetPin : togglerE Z
| WrTargetPin (pin : Z) : togglerE unit
| Fprintf_stderr (m : message) : togglerE unit
| Perror (what : string) : togglerE unit
| Getenv (name : string) : togglerE (option string)
| Strtoul (s : string) : togglerE Z
| Open (path : string) : togglerE Z
| Mmap (len : Z) (fd : Z) (offset : Z) : togglerE mmap_result
| Close (fd : Z) : togglerE unit
| Munmap (p : pointer) (len : Z) : togglerE unit
| Sigaction (sig : signal) : togglerE unit
| Load (p : pointer) (off : Z) : togglerE Z
| Store (p : pointer) (off : Z) (v : Z) : togglerE unit
| Exit_ (code : Z) : togglerE void      (* exit *)
| Exit_now (code : Z) : togglerE void.  (* _exit *)

Definition prog := itree togglerE.

(** Performing an effect. *)
Definition call {T} (e : togglerE T) : prog T := ITree.trigger e.

Definition GPIO_OFFSET : Z := 0x200000.
Definition GPIO_LEN : Z := 0xB4.
Definition sizeof_uint32 : Z := 4.

Definition unmapGpio : prog unit :=
  gpio <- call RdGpio ;;
  match gpio with
  | Ptr _ =>
      call (Munmap gpio GPIO_LEN) ;;
      call (WrGpio NULL)
  | NULL => Ret tt
  end.

Definition setPinHigh (pin : Z) : prog unit :=
  gpio <- call RdGpio ;;
  let regSet := (gpio, 0x1C / sizeof_uint32 + cdiv pin 32) in
  call (Store (fst regSet) (snd regSet) (shl32 1 (Z.land pin 31))).

Definition setPinLow (pin : Z) : prog unit :=
  gpio <- call RdGpio ;;
  let regClr := (gpio, 0x28 / sizeof_uint32 + cdiv pin 32) in
  call (Store (fst regClr) (snd regClr) (shl32 1 (Z.land pin 31))).

(** The two locals of [setPinOutput]: the function-select register of a
    pin and the position of its 3-bit field in it. *)
Definition fsel_index (pin : Z) : Z := cdiv pin 10.
Definition fsel_shift (pin : Z) : Z := cmod pin 10 * 3.

Definition setPinOutput (pin : Z) : prog unit :=
  let fsel := fsel_index pin in
  let shift := fsel_shift pin in
  gpio <- call RdGpio ;;
  let fselReg := (gpio, 0x00 / sizeof_uint32 + fsel) in
  v <- call (Load (fst fselReg) (snd fselReg)) ;;
  let v := Z.land v (not32 (shl32 0x7 shift)) in
  let v := Z.lor v (shl32 0x1 shift) in  (* 001 = output *)
  call (Store (fst fselReg) (snd fselReg) v) ;;
  setPinLow pin.

Definition mapGpio : prog bool :=
  env <- call (Getenv "PERI_BASE") ;;
  periBase <- match env with
              | Some s => call (Strtoul s)
              | None => Ret 0x3F000000
              end ;;
  let gpioBase := to_off_t (wrap_ulong (periBase + GPIO_OFFSET)) in
  fd <- call (Open "/dev/mem") ;;
  if fd <? 0 then
    call (Perror "open(/dev/mem)") ;;
    Ret false
  else
    m <- call (Mmap GPIO_LEN fd gpioBase) ;;
    call (Close fd) ;;
    match m with
    | MAP_FAILED =>
        call (Perror "mmap") ;;
        Ret false
    | Mapped a =>
        call (WrGpio (Ptr a)) ;;
        Ret true
    end.

Definition sigHandler (sig : signal) : prog Z :=
  targetPin <- call RdTargetPin ;;
  setPinLow targetPin ;;
  unmapGpio ;;
  x <- call (Exit_now 0) ;;
  match x : void with end.

Definition setExitHandler : prog unit :=
  call (Sigaction SIGINT) ;;
  call (Sigaction SIGTERM).

Definition cleanupAndExit (code : Z) : prog Z :=
  gpio <- call RdGpio ;;
  match gpio with
  | Ptr _ =>
      targetPin <- call RdTargetPin ;;
      setPinLow targetPin ;;
      unmapGpio
  | NULL => Ret tt
  end ;;
  x <- call (Exit_ code) ;;
  match x : void with end.

(** One iteration of the toggle loop of [main]. *)
Definition toggle (regSet regClr : pointer * Z) (mask : Z) : prog unit :=
  call (Store (fst regSet) (snd regSet) mask) ;;
  call (Store (fst regClr) (snd regClr) mask).

(** [main]; [argv] has [argc] elements, and the result is what [main]
    returns.  The code after the loop is unreachable, as in the source:
    [ITree.forever] never returns. *)
Definition main (argv : list string) : prog Z :=
  if negb (Z.of_nat (List.length argv) =? 2) then
    call (Fprintf_stderr (MsgUsage (nth_error argv 0))) ;;
    Ret 1
  else
    call (WrTargetPin (Libc.atoi (nth 1 argv ""%string))) ;;
    targetPin <- call RdTargetPin ;;
    if (targetPin <? 0) || (targetPin >? 53) then
      call (Fprintf_stderr (MsgInvalidPin targetPin)) ;;
      Ret 1
    else
      ok <- mapGpio ;;
      if negb ok then
        call (Fprintf_stderr MsgMapFailed) ;;
        Ret 1
      else
        setExitHandler ;;
        targetPin <- call RdTargetPin ;;
        setPinOutput targetPin ;;
        gpio <- call RdGpio ;;
        let regSet := (gpio, 0x1C / sizeof_uint32) in
        gpio <- call RdGpio ;;
        let regClr := (gpio, 0x28 / sizeof_uint32) in
        targetPin <- call RdTargetPin ;;
        let mask := shl32 1 (Z.land targetPin 31) in
        (ITree.forever (toggle regSet regClr mask) : prog void) ;;
        cleanupAndExit 0.

(** *** The machine the program runs on *)

(** What the environment answers: the value of [PERI_BASE], libc's
    [strtoul (_, NULL, 0)], the result of [open] (a descriptor, or -1),
    the result of [mmap], and the content of the registers at start. *)
Record world := {
  w_peri_base : option string;
  w_strtoul : string -> Z;
  w_open : Z;
  w_mmap : mmap_result;
  w_regs : Z -> Z }.

(** An effect of any result type, as recorded in the trace. *)
Variant anyE : Type :=
| Ev (T : Type) (e : togglerE T).
Arguments Ev {T} e.

Record machine := {
  var_gpio : pointer;          (* static volatile uint32_t *gpio *)
  var_targetPin : Z;           (* static int targetPin *)
  window : option Z;           (* where the register window is mapped *)
  regs : Z -> Z;               (* register contents, by word offset *)
  level : Z -> bool;           (* output level of each pin *)
  handler : signal -> bool;    (* is sigHandler installed for the signal? *)
  trace : list anyE }.         (* calls and register accesses so far *)

Definition boot (w : world) : machine :=
  {| var_gpio := NULL; var_targetPin := -1; window := None;
     regs := w_regs w; level := fun _ => false;
     handler := fun _ => false; trace := [] |}.

Definition log {T} (e : togglerE T) (m : machine) : machine :=
  {| var_gpio := var_gpio m; var_targetPin := var_targetPin m;
     window := window m; regs := regs m; level := level m;
     handler := handler m; trace := trace m ++ [Ev e] |}.

Definition set_gpio (p : pointer) (m : machine) : machine :=
  {| var_gpio := p; var_targetPin := var_targetPin m;
     window := window m; regs := regs m; level := level m;
     handler := handler m; trace := trace m |}.

Definition set_targetPin (pin : Z) (m : machine) : machine :=
  {| var_gpio := var_gpio m; var_targetPin := pin;
     window := window m; regs := regs m; level := level m;
     handler := handler m; trace := trace m |}.

Definition set_window (a : option Z) (m : machine) : machine :=
  {| var_gpio := var_gpio m; var_targetPin := var_targetPin m;
     window := a; regs := regs m; level := level m;
     handler := handler m; trace := trace m |}.

Definition signal_eqb (a b : signal) : bool :=
  match a, b with
  | SIGINT, SIGINT | SIGTERM, SIGTERM => true
  | _, _ => false
  end.

Definition install (sig : signal) (m : machine) : machine :=
  {| var_gpio := var_gpio m; var_targetPin := var_targetPin m;
     window := window m; regs := regs m; level := level m;
     handler := fun s => signal_eqb s sig || handler m s;
     trace := trace m |}.

(** Word offsets of the set and clear banks (GPSET0/1, GPCLR0/1). *)
Definition GPSET0 : Z := 7.
Definition GPCLR0 : Z := 10.

(** Does a write of [v] at word offset [off] address pin [pin] in the bank
    that starts at word offset [bank]?  A bank register covers 32 pins. *)
Definition hits (bank off v pin : Z) : bool :=
  (0 <=? pin) && (off =? bank + pin / 32) && Z.testbit v (pin mod 32).

(** The hardware's reaction to a register write: a 1 written to a set
    (clear) register drives the pin high (low); other registers keep what
    is written. *)
Definition hw_store (off v : Z) (m : machine) : machine :=
  if ((GPSET0 <=? off) && (off <=? GPSET0 + 1))
     || ((GPCLR0 <=? off) && (off <=? GPCLR0 + 1)) then
    {| var_gpio := var_gpio m; var_targetPin := var_targetPin m;
       window := window m; regs := regs m;
       level := fun pin =>
         if hits GPSET0 off v pin then true
         else if hits GPCLR0 off v pin then false
         else level m pin;
       handler := handler m; trace := trace m |}
  else
    {| var_gpio := var_gpio m; var_targetPin := var_targetPin m;
       window := window m;
       regs := fun o => if o =? off then v else regs m o;
       level := level m; handler := handler m; trace := trace m |}.

(** [p[off]] is inside the mapped window. *)
Definition in_window (m : machine) (p : pointer) (off : Z) : bool :=
  match p, window m with
  | Ptr a, Some b =>
      (a =? b) && (0 <=? off) && (sizeof_uint32 * off + sizeof_uint32 <=? GPIO_LEN)
  | _, _ => false
  end.

(** How a process ends, unless [main] returns. *)
Variant status :=
| Exited (code : Z)      (* exit or _exit *)
| Killed (sig : signal)  (* default action of a signal *)
| Segfault.              (* access outside the mapped window *)

(** The answer to an effect, or the end of the process. *)
Variant answer (T : Type) := Value (x : T) | Stop (st : status).
Arguments Value {T} x.
Arguments Stop {T} st.

(** Effects on the two variables are silent; every other effect is
    appended to the trace. *)
Definition handle (w : world) {T} (e : togglerE T) (m : machine)
  : answer T * machine :=
  match e in togglerE T return answer T * machine with
  | RdGpio => (Value (var_gpio m), m)
  | WrGpio p => (Value tt, set_gpio p m)
  | RdTargetPin => (Value (var_targetPin m), m)
  | WrTargetPin pin => (Value tt, set_targetPin pin m)
  | Fprintf_stderr _ as e => (Value tt, log e m)
  | Perror _ as e => (Value tt, log e m)
  | Getenv name as e =>
      (Value (if String.eqb name "PERI_BASE" then w_peri_base w else None),
       log e m)
  | Strtoul s as e => (Value (w_strtoul w s), log e m)
  | Open _ as e => (Value (w_open w), log e m)
  | Mmap _ _ _ as e =>
      match w_mmap w with
      | Mapped a => (Value (Mapped a), set_window (Some a) (log e m))
      | MAP_FAILED => (Value MAP_FAILED, log e m)
      end
  | Close _ as e => (Value tt, log e m)
  | Munmap p _ as e =>
      match p, window m with
      | Ptr a, Some b =>
          if a =? b then (Value tt, set_window None (log e m))
          else (Value tt, log e m)
      | _, _ => (Value tt, log e m)
      end
  | Sigaction sig as e => (Value tt, install sig (log e m))
  | Load p off as e =>
      if in_window m p off then (Value (regs m off), log e m)
      else (Stop Segfault, log e m)
  | Store p off v as e =>
      if in_window m p off then (Value tt, hw_store off v (log e m))
      else (Stop Segfault, log e m)
  | Exit_ code as e => (Stop (Exited code), log e m)
  | Exit_now code as e => (Stop (Exited code), log e m)
  end.

(** A (part of a) program is live, with what is left of it to run (the
    tree is kept observed, so that configurations are compared up to
    unfolding), or has returned, or the process has ended. *)
Variant config (R : Type) :=
| Live (t : itree' togglerE R) (m : machine)
| Done (r : R) (m : machine)
| Ended (st : status) (m : machine).
Arguments Live {R} t m.
Arguments Done {R} r m.
Arguments Ended {R} st m.

Definition machine_of {R} (c : config R) : machine :=
  match c with Live _ m | Done _ m | Ended _ m => m end.

Definition step (w : world) {R} (c : config R) : config R :=
  match c with
  | Live t m =>
      match t with
      | RetF r => Done r m
      | TauF t' => Live (observe t') m
      | VisF e k =>
          match handle w e m with
          | (Value x, m') => Live (observe (k x)) m'
          | (Stop st, m') => Ended st m'
          end
      end
  | _ => c
  end.

Fixpoint run (w : world) (n : nat) {R} (c : config R) : config R :=
  match n with
  | O => c
  | S n' => run w n' (step w c)
  end.

Definition start {R} (t : prog R) (m : machine) : config R :=
  Live (observe t) m.

(** The process after [n] steps of [main]; [Done code] is the return of
    [main] with [code]. *)
Definition exec (w : world) (argv : list string) (n : nat) : config Z :=
  run w n (start (main argv) (boot w)).

(** Delivery of one signal to a process that runs the code of [main],
    no further signal arriving afterwards: the handler, when installed,
    runs on top of the interrupted program and ends the process (it is
    given more steps than it has effects); otherwise the default action
    kills the process.  This is the schedule [n] steps, the signal, 16
    steps of [play] below, where signals arrive at any moment. *)
Definition deliver (w : world) (sig : signal) (c : config Z) : config Z :=
  match c with
  | Live _ m =>
      if handler m sig then run w 16 (start (sigHandler sig) m)
      else Ended (Killed sig) m
  | _ => c
  end.

(** The run in which the signal arrives after [n] steps of [main]. *)
Definition interrupted (w : world) (argv : list string) (n : nat)
           (sig : signal) : config Z :=
  deliver w sig (exec w argv n).

(** *** Signals at any moment

    [setExitHandler] clears its [struct sigaction] with [memset] before it
    sets [sa_handler]: [sa_mask] is empty and [sa_flags] is 0.  While
    [sigHandler] runs for a signal, that signal is therefore blocked and
    the other one is not: when it arrives, [sigHandler] runs again, on top
    of the interrupted handler.  A signal arrives between two steps of the
    process. *)

(** What happens next: a step of the process, or the arrival of a signal. *)
Variant event := Tick | Sig (sig : signal).

(** A process: the code that runs; below it the activations that signals
    have interrupted, each with the signals that were blocked in it; the
    signals that are blocked now; and those that have arrived while
    blocked. *)
Record process := {
  running : config Z;
  suspended : list (itree' togglerE Z * (signal -> bool));
  blocked : signal -> bool;
  pending : signal -> bool }.

(** A process that runs the code of [main], with no signal blocked. *)
Definition in_main (c : config Z) : process :=
  {| running := c; suspended := [];
     blocked := fun _ => false; pending := fun _ => false |}.

(** The arrival of a signal at a live process: a blocked signal waits;
    otherwise [sigHandler] starts on the machine as it is, the signal
    blocked while it runs, or, when no handler is installed, the default
    action kills the process. *)
Definition arrive (sig : signal) (p : process) : process :=
  match running p with
  | Live t m =>
      if blocked p sig then
        {| running := running p; suspended := suspended p;
           blocked := blocked p;
           pending := fun s => signal_eqb s sig || pending p s |}
      else if handler m sig then
        {| running := start (sigHandler sig) m;
           suspended := (t, blocked p) :: suspended p;
           blocked := fun s => signal_eqb s sig || blocked p s;
           pending := pending p |}
      else
        {| running := Ended (Killed sig) m; suspended := suspended p;
           blocked := blocked p; pending := pending p |}
  | _ => p
  end.

(** One step of the running code.  When a handler returns, the code it
    interrupted goes on with the signals blocked as they were, and the
    signals that waited and are blocked no longer are delivered. *)
Definition tick (w : world) (p : process) : process :=
  match step w (running p), suspended p with
  | Done _ m, (t, mask) :: rest =>
      let p0 :=
        {| running := Live t m; suspended := rest; blocked := mask;
           pending := fun s => pending p s && mask s |} in
      let p1 :=
        if pending p SIGINT && negb (mask SIGINT) then arrive SIGINT p0
        else p0 in
      if pending p SIGTERM && negb (mask SIGTERM) then arrive SIGTERM p1
      else p1
  | c, _ =>
      {| running := c; suspended := suspended p;
         blocked := blocked p; pending := pending p |}
  end.

Definition react (w : world) (p : process) (e : event) : process :=
  match e with
  | Tick => tick w p
  | Sig sig => arrive sig p
  end.

(** The process after the events of a schedule. *)
Definition play (w : world) (sched : list event) (p : process) : process :=
  fold_left (react w) sched p.

(** The process at the start of [main]. *)
Definition launch (w : world) (argv : list string) : process :=
  in_main (start (main argv) (boot w)).

End Toggler.

(** ** Vocabulary for the statements about the toggler *)

Module TogglerSpec.
Import CInt Toggler.

(** A register access lies inside the [GPIO_LEN] bytes of the window. *)
Definition access_ok (ev : anyE) : Prop :=
  match ev with
  | Ev e =>
      match e with
      | Load _ off | Store _ off _ =>
          0 <= sizeof_uint32 * off
          /\ sizeof_uint32 * off + sizeof_uint32 <= GPIO_LEN
      | _ => True
      end
  end.

(** Calls into the buffered I/O library. *)
Definition is_stdio (ev : anyE) : Prop :=
  match ev with
  | Ev e =>
      match e with
      | Fprintf_stderr _ | Perror _ => True
      | _ => False
      end
  end.

Definition live {R} (c : config R) : Prop :=
  match c with Live _ _ => True | _ => False end.

Definition segfaulted {R} (c : config R) : Prop :=
  match c with Ended Segfault _ => True | _ => False end.

(** The invariant of every run of [main]. *)
Record Inv (argv : list string) (c : config Z) : Prop := {
  inv_no_fault : ~ segfaulted c;
  inv_access : Forall access_ok (trace (machine_of c));
  inv_handler : forall sig,
    handler (machine_of c) sig = true -> live c ->
    exists a, var_gpio (machine_of c) = Ptr a
              /\ window (machine_of c) = Some a
              /\ List.length argv = 2%nat
              /\ var_targetPin (machine_of c) = Libc.atoi (nth 1 argv ""%string)
              /\ 0 <= var_targetPin (machine_of c) <= 53 }.

(** The facts about the machine that hold from the mapping on. *)
Record mapped (a pin : Z) (m : machine) : Prop := {
  mapped_gpio : var_gpio m = Ptr a;
  mapped_window : window m = Some a;
  mapped_pin : var_targetPin m = pin;
  mapped_access : Forall access_ok (trace m) }.

(** The value [setPinOutput] stores in a function-select register that
    held [v], for the field at [shift]. *)
Definition fsel_output (v shift : Z) : Z :=
  Z.lor (Z.land v (not32 (shl32 0x7 shift))) (shl32 0x1 shift).

(** What [main] does once the window is mapped. *)
Definition main_mapped : prog Z :=
  setExitHandler ;;
  targetPin <- call RdTargetPin ;;
  setPinOutput targetPin ;;
  gpio <- call RdGpio ;;
  let regSet := (gpio, 0x1C / sizeof_uint32) in
  gpio <- call RdGpio ;;
  let regClr := (gpio, 0x28 / sizeof_uint32) in
  targetPin <- call RdTargetPin ;;
  let mask := shl32 1 (Z.land targetPin 31) in
  (ITree.forever (toggle regSet regClr mask) : prog void) ;;
  cleanupAndExit 0.

(** The toggle loop of [main], for the window at [a]. *)
Definition loop (a mask : Z) : prog Z :=
  (ITree.forever (toggle (Ptr a, GPSET0) (Ptr a, GPCLR0) mask) : prog void) ;;
  cleanupAndExit 0.

(** The machine after one iteration of the loop. *)
Definition iteration (a mask : Z) (m : machine) : machine :=
  hw_store GPCLR0 mask (log (Store (Ptr a) GPCLR0 mask)
    (hw_store GPSET0 mask (log (Store (Ptr a) GPSET0 mask) m))).

(** The machine after the signal handler. *)
Definition handled (a pin : Z) (m : machine) : machine :=
  log (Exit_now 0)
    (set_gpio NULL
       (set_window None
          (log (Munmap (Ptr a) GPIO_LEN)
             (hw_store (GPCLR0 + pin / 32) (2 ^ (pin mod 32))
                (log (Store (Ptr a) (GPCLR0 + pin / 32) (2 ^ (pin mod 32)))
                   m))))).

(** Schedules: [n] steps in a row; the number of steps of a schedule;
    a schedule in which no signal but [sig] arrives. *)
Definition ticks (n : nat) : list event := repeat Tick n.

Fixpoint steps_of (sched : list event) : nat :=
  match sched with
  | [] => 0%nat
  | Tick :: sched' => S (steps_of sched')
  | Sig _ :: sched' => steps_of sched'
  end.

Definition only (sig : signal) (sched : list event) : Prop :=
  Forall (fun e => e = Tick \/ e = Sig sig) sched.

(** [sigHandler] is about to start for [sig], were it to arrive now. *)
Definition enters (p : process) (sig : signal) : Prop :=
  match running p with
  | Live _ m => blocked p sig = false /\ handler m sig = true
  | _ => False
  end.

(** Every signal that arrives once the window is mapped is handled, and
    the process ends with code 0. *)
Definition handled_whenever_mapped (w : world) (argv : list string) : Prop :=
  forall n sig,
    live (exec w argv n) ->
    window (machine_of (exec w argv n)) <> None ->
    exists m', interrupted w argv n sig = Ended (Exited 0) m'.

(** Whenever [sigHandler] starts, [gpio] is the non-null address at which
    the window is mapped and the pin is in [0,53]; and no run, whatever
    signals arrive, ends with a fault. *)
Definition handler_always_on_mapped_window (w : world) (argv : list string)
  : Prop :=
  forall sched,
    let p := play w sched (launch w argv) in
    (forall sig, enters p sig ->
       exists a,
         var_gpio (machine_of (running p)) = Ptr a
         /\ window (machine_of (running p)) = Some a
         /\ 0 <= var_targetPin (machine_of (running p)) <= 53)
    /\ ~ segfaulted (running p).

(** A usage error: [main] returns 1 and nothing but the message on
    standard error ever happens. *)
Definition rejected_before_hardware (w : world) (argv : list string) : Prop :=
  (exists n m, exec w argv n = Done 1 m)
  /\ forall n, Forall is_stdio (trace (machine_of (exec w argv n))).

(** The startup of [main], when nothing fails: the number of steps up to
    the loop, the base address used, the offset handed to [mmap] (the sum
    of two [unsigned long], converted to [off_t]), and the trace. *)
Definition startup_steps (w : world) : nat :=
  match w_peri_base w with Some _ => 19%nat | None => 18%nat end.

Definition peri_base (w : world) : Z :=
  match w_peri_base w with Some s => w_strtoul w s | None => 0x3F000000 end.

Definition gpio_base (w : world) : Z :=
  to_off_t (wrap_ulong (peri_base w + GPIO_OFFSET)).

Definition startup_trace (w : world) (a pin : Z) : list anyE :=
  [Ev (Getenv "PERI_BASE")]
  ++ match w_peri_base w with Some s => [Ev (Strtoul s)] | None => [] end
  ++ [Ev (Open "/dev/mem");
      Ev (Mmap GPIO_LEN (w_open w) (gpio_base w));
      Ev (Close (w_open w));
      Ev (Sigaction SIGINT); Ev (Sigaction SIGTERM);
      Ev (Load (Ptr a) (pin / 10));
      Ev (Store (Ptr a) (pin / 10)
            (fsel_output (w_regs w (pin / 10)) (pin mod 10 * 3)));
      Ev (Store (Ptr a) (GPCLR0 + pin / 32) (2 ^ (pin mod 32)))].

(** A machine on which [open] and [mmap] succeed. *)
Definition w_pi : world :=
  {| w_peri_base := None; w_strtoul := fun _ => 0; w_open := 3;
     w_mmap := Mapped 0x76f00000; w_regs := fun _ => 0 |}.

(** The same with every bit of every register set at the start. *)
Definition w_ones : world :=
  {| w_peri_base := None; w_strtoul := fun _ => 0; w_open := 3;
     w_mmap := Mapped 0x76f00000; w_regs := fun _ => 0xFFFFFFFF |}.

(** The same with the peripheral base of a Pi 4 in [PERI_BASE], which
    [strtoul] reads with base 0. *)
Definition w_pi4 : world :=
  {| w_peri_base := Some "0xFE000000"%string;
     w_strtoul := fun _ => 0xFE000000; w_open := 3;
     w_mmap := Mapped 0x76f00000; w_regs := fun _ => 0 |}.

End TogglerSpec.

(** ** The C++ [double] and its conversions *)

Module Double.

(** [double] is IEEE 754 binary64. *)
Definition double : Set := float.

(** The integer part of a finite number: the digits before the point, the
    sign kept. *)
Definition trunc (x : spec_float) : option Z :=
  match x with
  | S754_zero _ => Some 0
  | S754_finite s m e => Some (cond_Zopp s (Z.shiftl (Z.pos m) e))
  | S754_infinity _ | S754_nan => None
  end.

(** [(long) x]: truncation towards zero; undefined ([None]) when the
    integer part is not a [long]. *)
Definition to_long (x : double) : option Z :=
  match trunc (Prim2SF x) with
  | Some z =>
      if (Libc.LONG_MIN <=? z) && (z <=? Libc.LONG_MAX) then Some z else None
  | None => None
  end.

(** The conversion of a [long] to [double], to the nearest. *)
Definition of_long (z : Z) : double :=
  if z <? 0 then
    if - z <? 2 ^ 63 then (- of_uint63 (Uint63.of_Z (- z)))%float
    else (- 0x1p63)%float
  else of_uint63 (Uint63.of_Z z).

End Double.

(** ** The software-PWM driver *)

Module Pwm.
Import Double.

(** What the program prints on standard output. *)
Inductive text :=
| Banner
| AskChip
| AskPin
| AskFrequency
| AskBrightness
| CycleInfo (periodUs : double) (onTimeUs offTimeUs : Z)
| Running.

(** The effects of the program.  The calls into libgpiod answer [false]
    when they throw; [Undefined] is a conversion to [long] of a value that
    has no [long]. *)
Variant pwmE : Type -> Type :=
| Cout (t : text) : pwmE unit
| Cin_int : pwmE Z
| Cin_double : pwmE double
| Chip_open (chipNum : Z) : pwmE bool
| Get_line (pinNum : Z) : pwmE bool
| Line_request (consumer : string) (default_val : Z) : pwmE bool
| Set_value (v : Z) : pwmE bool
| Sleep_for (micros : Z) : pwmE unit
| Cerr_error : pwmE unit
| Undefined : pwmE void.

Definition prog := itree pwmE.

Definition call {T} (e : pwmE T) : prog T := ITree.trigger e.

Definition long_of_double (x : double) : prog Z :=
  match to_long x with
  | Some z => Ret z
  | None => u <- call Undefined ;; match u : void with end
  end.

(** The "safety checks" of [main]. *)
Definition safe_brightness (brightnessPercent : double) : double :=
  let brightnessPercent :=
    if (brightnessPercent <? 0)%float then 0%float else brightnessPercent in
  if (100 <? brightnessPercent)%float then 100%float else brightnessPercent.

Definition safe_frequency (frequencyHz : double) : double :=
  if (frequencyHz <=? 0)%float then 1%float else frequencyHz.

(** One turn of the loop; the result is [inl] to go round again, [inr]
    when [set_value] has thrown. *)
Definition cycle (onTimeUs offTimeUs : Z) : prog (unit + unit) :=
  thrown <- (if onTimeUs >? 0 then
               ok <- call (Set_value 1) ;;
               if ok : bool then call (Sleep_for onTimeUs) ;; Ret false
               else Ret true
             else Ret false) ;;
  if thrown : bool then Ret (inr tt)
  else
    thrown <- (if offTimeUs >? 0 then
                 ok <- call (Set_value 0) ;;
                 if ok : bool then call (Sleep_for offTimeUs) ;; Ret false
                 else Ret true
               else Ret false) ;;
    if thrown : bool then Ret (inr tt) else Ret (inl tt).

(** The [try] block: it is left only by an exception. *)
Definition drive (chipNum pinNum onTimeUs offTimeUs : Z) : prog unit :=
  ok <- call (Chip_open chipNum) ;;
  if ok : bool then
    ok <- call (Get_line pinNum) ;;
    if ok : bool then
      ok <- call (Line_request "gpio-pwm" 0) ;;
      if ok : bool then ITree.iter (fun _ : unit => cycle onTimeUs offTimeUs) tt
      else Ret tt
    else Ret tt
  else Ret tt.

(** [main], from the safety checks on.  The extractions from [std::cin]
    are taken to succeed, so that the initial values of [chipNum] and
    [frequencyHz] are overwritten. *)
Definition control (chipNum pinNum : Z) (frequencyHz brightnessPercent : double)
  : prog Z :=
  let brightnessPercent := safe_brightness brightnessPercent in
  let frequencyHz := safe_frequency frequencyHz in
  let periodUs := (1000000 / frequencyHz)%float in
  onTimeUs <- long_of_double (periodUs * (brightnessPercent / 100))%float ;;
  offTimeUs <- long_of_double (periodUs - of_long onTimeUs)%float ;;
  call (Cout (CycleInfo periodUs onTimeUs offTimeUs)) ;;
  call (Cout Running) ;;
  drive chipNum pinNum onTimeUs offTimeUs ;;
  call Cerr_error ;;
  Ret 1.

Definition main : prog Z :=
  call (Cout Banner) ;;
  call (Cout AskChip) ;;
  chipNum <- call Cin_int ;;
  call (Cout AskPin) ;;
  pinNum <- call Cin_int ;;
  call (Cout AskFrequency) ;;
  frequencyHz <- call Cin_double ;;
  call (Cout AskBrightness) ;;
  brightnessPercent <- call Cin_double ;;
  control chipNum pinNum frequencyHz brightnessPercent.

(** *** The machine *)

(** What the user types, and which calls into libgpiod succeed;
    [w_set_value_ok] is asked with the number of effects so far. *)
Record world := {
  w_chipNum : Z;
  w_pinNum : Z;
  w_frequencyHz : double;
  w_brightnessPercent : double;
  w_chip_ok : bool;
  w_line_ok : bool;
  w_request_ok : bool;
  w_set_value_ok : nat -> bool }.

Variant anyE : Type :=
| Ev (T : Type) (e : pwmE T).
Arguments Ev {T} e.

Record machine := {
  ints_read : nat;       (* integers extracted from std::cin *)
  doubles_read : nat;    (* doubles extracted from std::cin *)
  trace : list anyE }.

Definition boot : machine :=
  {| ints_read := 0; doubles_read := 0; trace := [] |}.

Definition log {T} (e : pwmE T) (m : machine) : machine :=
  {| ints_read := ints_read m; doubles_read := doubles_read m;
     trace := trace m ++ [Ev e] |}.

Definition read_int (m : machine) : machine :=
  {| ints_read := S (ints_read m); doubles_read := doubles_read m;
     trace := trace m |}.

Definition read_double (m : machine) : machine :=
  {| ints_read := ints_read m; doubles_read := S (doubles_read m);
     trace := trace m |}.

(** The process ends by undefined behaviour, unless [main] returns. *)
Variant status := Undefined_behaviour.

Variant answer (T : Type) := Value (x : T) | Stop (st : status).
Arguments Value {T} x.
Arguments Stop {T} st.

Definition handle (w : world) {T} (e : pwmE T) (m : machine)
  : answer T * machine :=
  match e in pwmE T return answer T * machine with
  | Cout _ as e => (Value tt, log e m)
  | Cin_int as e =>
      (Value (match ints_read m with O => w_chipNum w | _ => w_pinNum w end),
       read_int (log e m))
  | Cin_double as e =>
      (Value (match doubles_read m with
              | O => w_frequencyHz w
              | _ => w_brightnessPercent w
              end),
       read_double (log e m))
  | Chip_open _ as e => (Value (w_chip_ok w), log e m)
  | Get_line _ as e => (Value (w_line_ok w), log e m)
  | Line_request _ _ as e => (Value (w_request_ok w), log e m)
  | Set_value _ as e =>
      (Value (w_set_value_ok w (List.length (trace m))), log e m)
  | Sleep_for _ as e => (Value tt, log e m)
  | Cerr_error as e => (Value tt, log e m)
  | Undefined as e => (Stop Undefined_behaviour, log e m)
  end.

Variant config (R : Type) :=
| Live (t : itree' pwmE R) (m : machine)
| Done (r : R) (m : machine)
| Ended (st : status) (m : machine).
Arguments Live {R} t m.
Arguments Done {R} r m.
Arguments Ended {R} st m.

Definition machine_of {R} (c : config R) : machine :=
  match c with Live _ m | Done _ m | Ended _ m => m end.

Definition step (w : world) {R} (c : config R) : config R :=
  match c with
  | Live t m =>
      match t with
      | RetF r => Done r m
      | TauF t' => Live (observe t') m
      | VisF e k =>
          match handle w e m with
          | (Value x, m') => Live (observe (k x)) m'
          | (Stop st, m') => Ended st m'
          end
      end
  | _ => c
  end.

Fixpoint run (w : world) (n : nat) {R} (c : config R) : config R :=
  match n with
  | O => c
  | S n' => run w n' (step w c)
  end.

Definition start {R} (t : prog R) (m : machine) : config R :=
  Live (observe t) m.

(** The process after [n] steps of [main]. *)
Definition exec (w : world) (n : nat) : config Z :=
  run w n (start main boot).

End Pwm.

(** ** Binary64 numbers: vocabulary *)

Module DoubleSpec.
Import Double.

(** Bits were lost in the shifts so far. *)
Definition inexactb (mrs : shr_record) : bool := shr_r mrs || shr_s mrs.


(** 1.0 *)
Definition SFone : spec_float := S754_finite false 4503599627370496 (-52).

(** The sign bit is not set. *)
Definition nonneg (x : spec_float) : Prop :=
  match x with
  | S754_zero s | S754_finite s _ _ | S754_infinity s => s = false
  | S754_nan => True
  end.

(** A divisor that is not [<= 0]: positive or not a number. *)
Definition positive_or_nan (x : spec_float) : Prop :=
  match x with
  | S754_finite false _ _ | S754_infinity false | S754_nan => True
  | _ => False
  end.

(** 100.0 *)
Definition SFhundred : spec_float := S754_finite false 7036874417766400 (-46).

(** A brightness after the safety checks, not a number apart: a zero, or a
    positive number that is at most 100. *)
Definition percent (x : spec_float) : Prop :=
  match x with
  | S754_zero _ => True
  | S754_finite false m e =>
      e < -46 \/ (e = -46 /\ Z.pos m <= 7036874417766400)
  | _ => False
  end.




End DoubleSpec.

(** ** The software-PWM driver: vocabulary *)

Module PwmSpec.
Import Double Pwm.

(** The three values of "Calculate timings" in [main]; a duration is
    [None] when its conversion to [long] is undefined. *)
Definition periodUs (f : double) : double := (1000000 / safe_frequency f)%float.

Definition onTimeUs (f b : double) : option Z :=
  to_long (periodUs f * (safe_brightness b / 100))%float.

Definition offTimeUs (f : double) (onTime : Z) : option Z :=
  to_long (periodUs f - of_long onTime)%float.

(** The same machine with another frequency, or brightness, typed in. *)
Definition set_frequency (w : world) (f : double) : world :=
  {| w_chipNum := w_chipNum w; w_pinNum := w_pinNum w;
     w_frequencyHz := f; w_brightnessPercent := w_brightnessPercent w;
     w_chip_ok := w_chip_ok w; w_line_ok := w_line_ok w;
     w_request_ok := w_request_ok w; w_set_value_ok := w_set_value_ok w |}.

Definition set_brightness (w : world) (b : double) : world :=
  {| w_chipNum := w_chipNum w; w_pinNum := w_pinNum w;
     w_frequencyHz := w_frequencyHz w; w_brightnessPercent := b;
     w_chip_ok := w_chip_ok w; w_line_ok := w_line_ok w;
     w_request_ok := w_request_ok w; w_set_value_ok := w_set_value_ok w |}.

(** The two durations, when both conversions are defined. *)
Definition timings (f b : double) : option (Z * Z) :=
  match onTimeUs f b with
  | Some onTime =>
      match offTimeUs f onTime with
      | Some offTime => Some (onTime, offTime)
      | None => None
      end
  | None => None
  end.

(** What the loop may do to the line with these durations. *)
Definition allowed (t : option (Z * Z)) (e : anyE) : Prop :=
  match e with
  | Ev e' =>
      match e' with
      | Set_value v =>
          exists onTime offTime, t = Some (onTime, offTime)
            /\ ((v = 1 /\ 0 < onTime) \/ (v = 0 /\ 0 < offTime))
      | Sleep_for d =>
          exists onTime offTime, t = Some (onTime, offTime)
            /\ ((d = onTime /\ 0 < onTime) \/ (d = offTime /\ 0 < offTime))
      | _ => True
      end
  end.

(** A configuration that is not about to read the user's input. *)
Definition quiet {R} (c : config R) : Prop :=
  match c with
  | Live (VisF e _) _ =>
      match e with Cin_int | Cin_double => False | _ => True end
  | _ => True
  end.

(** What holds of every configuration from the safety checks on. *)
Record Inv (t : option (Z * Z)) (c : config Z) : Prop := {
  inv_quiet : quiet c;
  inv_allowed : Forall (allowed t) (trace (machine_of c)) }.

(** [main] from the announcement of the timings on. *)
Definition announced (chipNum pinNum : Z) (periodUs : double)
    (onTimeUs offTimeUs : Z) : prog Z :=
  call (Cout (CycleInfo periodUs onTimeUs offTimeUs)) ;;
  call (Cout Running) ;;
  drive chipNum pinNum onTimeUs offTimeUs ;;
  call Cerr_error ;;
  Ret 1.

(** The handler of the [try] block. *)
Definition caught : unit -> prog Z := fun _ => call Cerr_error ;; Ret 1.

(** The process at the head of the loop. *)
Definition looping (onTimeUs offTimeUs : Z) (m : machine) : config Z :=
  Live (observe (ITree.bind (ITree.iter (fun _ : unit => cycle onTimeUs offTimeUs) tt)
                   caught)) m.

(** The effects of a turn of the loop in which nothing is thrown. *)
Definition turn (onTimeUs offTimeUs : Z) : list anyE :=
  (if onTimeUs >? 0 then [Ev (Set_value 1); Ev (Sleep_for onTimeUs)] else [])
  ++ (if offTimeUs >? 0 then [Ev (Set_value 0); Ev (Sleep_for offTimeUs)] else []).

(** The machine once the four inputs are read. *)
Definition inputs_read : machine :=
  {| ints_read := 2; doubles_read := 2;
     trace := [Ev (Cout Banner); Ev (Cout AskChip); Ev Cin_int;
               Ev (Cout AskPin); Ev Cin_int; Ev (Cout AskFrequency);
               Ev Cin_double; Ev (Cout AskBrightness); Ev Cin_double] |}.

(** A property of every configuration of a run. *)
Definition throughout (w : world) {R} (P : config R -> Prop) (c : config R)
  : Prop :=
  forall n, P (run w n c).

(** Steps that keep [P] up to a configuration of [target]. *)
Inductive reaches (w : world) {R} (P target : config R -> Prop)
  : config R -> Prop :=
| reach_now c : target c -> reaches w P target c
| reach_step c : P c -> reaches w P target (step w c) -> reaches w P target c.

(** The calls into libgpiod succeed on the one machine as on the other. *)
Definition same_devices (w1 w2 : world) : Prop :=
  w_chip_ok w1 = w_chip_ok w2 /\ w_line_ok w1 = w_line_ok w2
  /\ w_request_ok w1 = w_request_ok w2
  /\ forall n, w_set_value_ok w1 n = w_set_value_ok w2 n.

(** The effects of the first [n] steps of a run. *)
Definition effects (w : world) (n : nat) : list anyE :=
  trace (machine_of (exec w n)).

(** The user asks for 100 Hz and 50 % on line 18 of chip 0; nothing
    throws. *)
Definition w_led : world :=
  {| w_chipNum := 0; w_pinNum := 18;
     w_frequencyHz := 100%float; w_brightnessPercent := 50%float;
     w_chip_ok := true; w_line_ok := true; w_request_ok := true;
     w_set_value_ok := fun _ => true |}.




End PwmSpec.

(** ** The runs of the toggler: vocabulary *)

Module TogglerRuns.
Import CInt Toggler TogglerSpec.

(** An effect that is no access to a register. *)
Definition no_access (ev : anyE) : Prop :=
  match ev with
  | Ev e => match e with Load _ _ | Store _ _ _ => False | _ => True end
  end.

(** An effect that ends the process or releases the window. *)
Definition no_exit (ev : anyE) : Prop :=
  match ev with
  | Ev e =>
      match e with
      | Exit_ _ | Exit_now _ | Munmap _ _ => False
      | _ => True
      end
  end.

(** A command line that [main] accepts. *)
Definition accepted (argv : list string) : Prop :=
  List.length argv = 2%nat /\ 0 <= Libc.atoi (nth 1 argv ""%string) <= 53.

(** The last effect is a message on standard error. *)
Definition reported (l : list anyE) : Prop :=
  match rev l with
  | Ev e :: _ => match e with Fprintf_stderr _ => True | _ => False end
  | [] => False
  end.

(** What holds of every run of [main] that no signal interrupts. *)
Record Course (argv : list string) (c : config Z) : Prop := {
  course_order :
    (forall sig, handler (machine_of c) sig = true)
    \/ Forall no_access (trace (machine_of c));
  course_no_exit : Forall no_exit (trace (machine_of c));
  course_accepted :
    accepted argv \/ Forall is_stdio (trace (machine_of c));
  course_end :
    match c with
    | Live _ _ => True
    | Done r m => r = 1 /\ reported (trace m)
    | Ended _ _ => False
    end }.

(** The calls of [mapGpio] up to [open]. *)
Definition opening (w : world) : list anyE :=
  [Ev (Getenv "PERI_BASE")]
  ++ match w_peri_base w with Some s => [Ev (Strtoul s)] | None => [] end
  ++ [Ev (Open "/dev/mem")].

(** The number of steps of [main] up to [open]. *)
Definition opening_steps (w : world) : nat :=
  match w_peri_base w with Some _ => 5%nat | None => 4%nat end.

(** The base address and the offset of the window fit a signed 32-bit
    [off_t] as well as an [unsigned long] of any width: the addition of
    [mapGpio] and its conversion change nothing. *)
Definition fits (w : world) : Prop :=
  0 <= peri_base w /\ peri_base w + GPIO_OFFSET < 2 ^ 31.

(** A machine on which [open] fails. *)
Definition w_no_mem : world :=
  {| w_peri_base := None; w_strtoul := fun _ => 0; w_open := -1;
     w_mmap := MAP_FAILED; w_regs := fun _ => 0 |}.

(** A machine on which [mmap] fails. *)
Definition w_no_map : world :=
  {| w_peri_base := None; w_strtoul := fun _ => 0; w_open := 3;
     w_mmap := MAP_FAILED; w_regs := fun _ => 0 |}.

(** Two command lines. *)
Definition pin17 : list string := ["flash_fast"; "17"]%string.

Definition pin40 : list string := ["flash_fast"; "40"]%string.

(** The machine of [w_pi] once the window is mapped. *)
Definition m_mapped : machine :=
  set_gpio (Ptr 0x76f00000) (set_window (Some 0x76f00000)
    (set_targetPin 40 (boot w_pi))).

End TogglerRuns.

(** ** The runs of the software-PWM driver: vocabulary *)

Module PwmRuns.
Import Double DoubleSpec Pwm PwmSpec.

(** The effects up to the [try] block, when both conversions are defined. *)
Definition announcement (w : world) (onTime offTime : Z) : list anyE :=
  trace inputs_read
  ++ [Ev (Cout (CycleInfo (periodUs (w_frequencyHz w)) onTime offTime));
      Ev (Cout Running)].

(** The timings of a run. *)
Definition timings_of (w : world) : option (Z * Z) :=
  timings (w_frequencyHz w) (w_brightnessPercent w).

(** A machine with the given trace. *)
Definition with_trace (m : machine) (l : list anyE) : machine :=
  {| ints_read := ints_read m; doubles_read := doubles_read m; trace := l |}.

(** Machines on which the chip cannot be opened, the line cannot be
    obtained, the line cannot be requested. *)
Definition w_no_chip : world :=
  {| w_chipNum := 0; w_pinNum := 18;
     w_frequencyHz := 100%float; w_brightnessPercent := 50%float;
     w_chip_ok := false; w_line_ok := true; w_request_ok := true;
     w_set_value_ok := fun _ => true |}.

Definition w_no_line : world :=
  {| w_chipNum := 0; w_pinNum := 18;
     w_frequencyHz := 100%float; w_brightnessPercent := 50%float;
     w_chip_ok := true; w_line_ok := false; w_request_ok := true;
     w_set_value_ok := fun _ => true |}.

Definition w_busy_line : world :=
  {| w_chipNum := 0; w_pinNum := 18;
     w_frequencyHz := 100%float; w_brightnessPercent := 50%float;
     w_chip_ok := true; w_line_ok := true; w_request_ok := false;
     w_set_value_ok := fun _ => true |}.

(** A frequency so low that the period has no [long]: 2^-50 Hz. *)
Definition w_slow : world :=
  set_brightness (set_frequency w_led 0x1p-50%float) 100%float.

(** An effect that is no call of [set_value] and no sleep. *)
Definition no_drive (ev : anyE) : Prop :=
  match ev with
  | Ev e => match e with Set_value _ | Sleep_for _ => False | _ => True end
  end.

(** The chip is open, the line is held and requested as an output that
    starts low; none of the three calls has thrown. *)
Definition set_up (w : world) (l : list anyE) : Prop :=
  w_chip_ok w = true /\ w_line_ok w = true /\ w_request_ok w = true
  /\ In (Ev (Chip_open (w_chipNum w))) l
  /\ In (Ev (Get_line (w_pinNum w))) l
  /\ In (Ev (Line_request "gpio-pwm" 0)) l.

(** The last effect is the message of the handler on [std::cerr]. *)
Definition error_reported (l : list anyE) : Prop :=
  match rev l with
  | Ev e :: _ => match e with Cerr_error => True | _ => False end
  | [] => False
  end.

(** What holds of every configuration of a run of the driver. *)
Record Plan (w : world) (c : config Z) : Prop := {
  plan_setup :
    Forall no_drive (trace (machine_of c)) \/ set_up w (trace (machine_of c));
  plan_end :
    match c with
    | Done r m => r = 1 /\ error_reported (trace m)
    | _ => True
    end }.

(** A machine on which [set_value] throws. *)
Definition w_stuck : world :=
  {| w_chipNum := 0; w_pinNum := 18;
     w_frequencyHz := 100%float; w_brightnessPercent := 50%float;
     w_chip_ok := true; w_line_ok := true; w_request_ok := true;
     w_set_value_ok := fun _ => false |}.

End PwmRuns.

(** * Properties *)

(** ** The executor *)

Module ExecFacts.
Import Toggler.

Lemma run_S w n R (c : config R) : run w (S n) c = run w n (step w c).
Proof. reflexivity. Qed.

Lemma run_add w a b R (c : config R) : run w (a + b) c = run w b (run w a c).
Proof.
  revert c. induction a as [|a IH]; intros c; [reflexivity|].
  cbn [Nat.add]. rewrite !run_S. apply IH.
Qed.

Lemma run_step w n R (c c1 c' : config R) :
  step w c = c1 -> run w n c1 = c' -> run w (S n) c = c'.
Proof. intros <- H. exact H. Qed.

Lemma run_Done w n R (r : R) m : run w n (Done r m) = Done r m.
Proof. induction n as [|n IH]; [reflexivity | exact IH]. Qed.

Lemma run_Ended w n R st m : run w n (@Ended R st m) = Ended st m.
Proof. induction n as [|n IH]; [reflexivity | exact IH]. Qed.

(** Binding a returned value is silent. *)
Lemma obs_subst_ret {R S} (k : R -> prog S) (x : R) :
  observe (ITree.subst k (Ret x)) = observe (k x).
Proof. reflexivity. Qed.

Lemma obs_subst2_ret {R S T} (k : R -> prog S) (k2 : S -> prog T) (x : R) :
  observe (ITree.subst k2 (ITree.subst k (Ret x)))
  = observe (ITree.subst k2 (k x)).
Proof. reflexivity. Qed.

(** A property of every configuration of a run. *)
Definition always (w : world) {R} (P : config R -> Prop) (c : config R) : Prop :=
  forall n, P (run w n c).

Lemma always_step w R (P : config R -> Prop) c :
  P c -> always w P (step w c) -> always w P c.
Proof. intros H0 H [|n]; [exact H0 | apply H]. Qed.

Lemma always_Done w R (P : config R -> Prop) r m :
  P (Done r m) -> always w P (Done r m).
Proof. intros H n. rewrite run_Done. exact H. Qed.

Lemma always_Ended w R (P : config R -> Prop) st m :
  P (Ended st m) -> always w P (Ended st m).
Proof. intros H n. rewrite run_Ended. exact H. Qed.

Lemma always_now w R (P : config R -> Prop) c : always w P c -> P c.
Proof. intros H. exact (H O). Qed.

(** *** The machine under register writes *)

Lemma hw_store_gpio off v m : var_gpio (hw_store off v m) = var_gpio m.
Proof. unfold hw_store. destruct (_ || _); reflexivity. Qed.

Lemma hw_store_targetPin off v m :
  var_targetPin (hw_store off v m) = var_targetPin m.
Proof. unfold hw_store. destruct (_ || _); reflexivity. Qed.

Lemma hw_store_window off v m : window (hw_store off v m) = window m.
Proof. unfold hw_store. destruct (_ || _); reflexivity. Qed.

Lemma hw_store_handler off v m : handler (hw_store off v m) = handler m.
Proof. unfold hw_store. destruct (_ || _); reflexivity. Qed.

Lemma hw_store_trace off v m : trace (hw_store off v m) = trace m.
Proof. unfold hw_store. destruct (_ || _); reflexivity. Qed.

Lemma in_window_log {T} (e : togglerE T) m p off :
  in_window (log e m) p off = in_window m p off.
Proof. reflexivity. Qed.

Lemma in_window_hw_store o v m p off :
  in_window (hw_store o v m) p off = in_window m p off.
Proof. unfold in_window. rewrite hw_store_window. reflexivity. Qed.

Lemma in_window_ok m a off :
  window m = Some a -> 0 <= off < 45 -> in_window m (Ptr a) off = true.
Proof.
  intros Hw Hoff. unfold in_window, sizeof_uint32, GPIO_LEN. rewrite Hw.
  rewrite Z.eqb_refl. cbn [andb].
  apply andb_true_intro; split; [apply Z.leb_le | apply Z.leb_le]; lia.
Qed.

(** Register accesses inside the window. *)
Lemma step_Load w R (k : Z -> prog R) m a off :
  window m = Some a -> 0 <= off < 45 ->
  step w (Live (VisF (Load (Ptr a) off) k) m)
  = Live (observe (k (regs m off))) (log (Load (Ptr a) off) m).
Proof.
  intros Hw Hoff. unfold step, handle. rewrite in_window_ok by assumption.
  reflexivity.
Qed.

Lemma step_Store w R (k : unit -> prog R) m a off v :
  window m = Some a -> 0 <= off < 45 ->
  step w (Live (VisF (Store (Ptr a) off v) k) m)
  = Live (observe (k tt)) (hw_store off v (log (Store (Ptr a) off v) m)).
Proof.
  intros Hw Hoff. unfold step, handle. rewrite in_window_ok by assumption.
  reflexivity.
Qed.

End ExecFacts.

(** ** The toggler *)

Module TogglerFacts.
Import CInt Toggler TogglerSpec ExecFacts.

(** *** Pin arithmetic: on valid pins the C++ operators are the
    mathematical ones *)

Lemma pin_arith p :
  0 <= p <= 53 ->
  cdiv p 10 = p / 10 /\ cmod p 10 = p mod 10 /\ cdiv p 32 = p / 32
  /\ Z.land p 31 = p mod 32 /\ shl32 1 (Z.land p 31) = 2 ^ (p mod 32).
Proof.
  intros Hp. unfold cdiv, cmod, shl32, wrap32.
  rewrite !Z.quot_div_nonneg, Z.rem_mod_nonneg by lia.
  change 31 with (Z.ones 5). rewrite Z.land_ones by lia. change (2^5) with 32.
  repeat split.
  rewrite Z.shiftl_1_l. apply Z.mod_small.
  assert (0 <= p mod 32 < 32) by (apply Z.mod_pos_bound; lia).
  split; [apply Z.pow_nonneg; lia|].
  apply Z.pow_lt_mono_r; lia.
Qed.

Lemma pin_div_bounds p :
  0 <= p <= 53 ->
  0 <= p / 32 <= 1 /\ 0 <= p / 10 <= 5
  /\ 0 <= p mod 32 < 32 /\ 0 <= p mod 10 < 10.
Proof.
  intros Hp.
  assert (0 <= p / 32 < 2)
    by (split; [apply Z.div_pos | apply Z.div_lt_upper_bound]; lia).
  assert (0 <= p / 10 < 6)
    by (split; [apply Z.div_pos | apply Z.div_lt_upper_bound]; lia).
  assert (0 <= p mod 32 < 32) by (apply Z.mod_pos_bound; lia).
  assert (0 <= p mod 10 < 10) by (apply Z.mod_pos_bound; lia).
  lia.
Qed.

Lemma GPSET0_off : 0x1C / sizeof_uint32 = GPSET0.
Proof. reflexivity. Qed.

Lemma GPCLR0_off : 0x28 / sizeof_uint32 = GPCLR0.
Proof. reflexivity. Qed.

Lemma GPFSEL0_off : 0x00 / sizeof_uint32 = 0.
Proof. reflexivity. Qed.

(** *** Symbolic execution *)

(** [adv] brings the program of the configuration to its next effect,
    leaving arithmetic on symbolic values folded; [go] takes a step. *)
Ltac adv :=
  cbn -[run Z.add Z.sub Z.mul Z.div Z.modulo Z.pow Z.ltb Z.gtb Z.leb Z.eqb
        Z.land Z.lor Z.of_nat Libc.atoi in_window hw_store cdiv cmod shl32
        not32 wrap_ulong to_off_t GPSET0 GPCLR0 fsel_index fsel_shift];
  rewrite ?obs_subst_ret, ?obs_subst2_ret,
    ?GPSET0_off, ?GPCLR0_off, ?GPFSEL0_off;
  cbv beta.

Ltac go := rewrite run_S; adv.

(** [mach] computes the fields of a machine. *)
Ltac mach :=
  repeat (progress
    (cbn [machine_of var_gpio var_targetPin window regs level handler
          trace log set_gpio set_targetPin set_window install boot app];
     rewrite ?hw_store_gpio, ?hw_store_targetPin, ?hw_store_window,
       ?hw_store_handler, ?hw_store_trace)).

Lemma Forall_snoc {A} (P : A -> Prop) l x :
  Forall P l -> P x -> Forall P (l ++ [x]).
Proof.
  intros Hl Hx. apply Forall_app.
  split; [exact Hl | repeat constructor; exact Hx].
Qed.

Lemma access_ok_Store p off v :
  0 <= off < 45 -> access_ok (Ev (Store p off v)).
Proof. unfold access_ok, sizeof_uint32, GPIO_LEN. lia. Qed.

Lemma access_ok_Load p off :
  0 <= off < 45 -> access_ok (Ev (Load p off)).
Proof. unfold access_ok, sizeof_uint32, GPIO_LEN. lia. Qed.

Ltac offs :=
  unfold GPSET0, GPCLR0;
  match goal with
  | H : 0 <= ?p <= 53 |- _ => pose proof (pin_div_bounds p H); lia
  | _ => lia
  end.

Ltac acc :=
  repeat first
    [ assumption
    | apply Forall_nil
    | apply Forall_cons
    | apply Forall_snoc
    | apply access_ok_Store; offs
    | apply access_ok_Load; offs
    | exact I ].

(** The invariant before and after the handlers are installed. *)
Ltac inv_early :=
  constructor;
  [ intros []
  | mach; acc
  | intros sig Hh _; exfalso; revert Hh; mach; destruct sig; discriminate ].

Ltac inv_late a :=
  cbn [run]; constructor;
  [ intros []
  | mach; acc
  | intros sig _ _; exists a; mach; repeat split; auto; lia ].

Ltac nxt tac := apply always_step; [ tac | adv ].

Ltac win :=
  rewrite in_window_ok
    by (first [solve [mach; first [assumption | reflexivity]] | offs]).

(** [tree] brings the program to its next effect without running it;
    [fire] runs it, register accesses through their lemmas. *)
Ltac tree :=
  cbn -[step run Z.add Z.sub Z.mul Z.div Z.modulo Z.pow Z.ltb Z.gtb Z.leb
        Z.eqb Z.land Z.lor Z.of_nat Libc.atoi in_window hw_store cdiv cmod
        shl32 not32 wrap_ulong to_off_t GPSET0 GPCLR0 fsel_index fsel_shift];
  rewrite ?obs_subst_ret, ?obs_subst2_ret,
    ?GPSET0_off, ?GPCLR0_off, ?GPFSEL0_off;
  cbv beta.

Ltac side := first [solve [mach; first [assumption | reflexivity]] | offs].

Ltac fire :=
  first
    [ rewrite step_Load by side
    | rewrite step_Store by side
    | lazymatch goal with
      | |- context [step _ (Live (VisF (Load _ _) _) _)] => fail
      | |- context [step _ (Live (VisF (Store _ _ _) _) _)] => fail
      | _ => adv
      end ].

(** A loop whose iterations take [p + 1] steps and keep [J]. *)
Lemma always_cycle w R (P : config R -> Prop) (J : machine -> Prop)
      (c : machine -> config R) (next : machine -> machine) (p : nat) :
  (forall m, J m ->
     run w (S p) (c m) = c (next m) /\ J (next m)
     /\ forall i, (i <= p)%nat -> P (run w i (c m))) ->
  forall m, J m -> always w P (c m).
Proof.
  intros H m Hm n. revert m Hm.
  induction n as [n IH] using lt_wf_ind. intros m Hm.
  destruct (H m Hm) as (Hrun & Hnext & Hle).
  destruct (Nat.le_gt_cases n p) as [Hn|Hn]; [apply Hle, Hn|].
  replace n with (S p + (n - S p))%nat by lia.
  rewrite run_add, Hrun. apply IH; [lia | exact Hnext].
Qed.

(** *** The toggle loop *)

(** An iteration takes three steps: the write to the set register, the
    write to the clear register, and the jump back. *)
Lemma loop_iteration w a mask m :
  window m = Some a ->
  run w 3 (Live (observe (loop a mask)) m)
  = Live (observe (loop a mask)) (iteration a mask m).
Proof.
  intros Hw. unfold loop.
  go. win. adv. go. win. adv. go. reflexivity.
Qed.

Lemma loop_set_step w a mask m :
  window m = Some a ->
  machine_of (run w 1 (Live (observe (loop a mask)) m))
  = hw_store GPSET0 mask (log (Store (Ptr a) GPSET0 mask) m).
Proof.
  intros Hw. unfold loop.
  erewrite run_step; [| tree; fire; reflexivity | reflexivity].
  reflexivity.
Qed.

Lemma iteration_mapped a pin mask m :
  mapped a pin m -> mapped a pin (iteration a mask m).
Proof. intros [Hg Hw Hp Ha]. unfold iteration. constructor; mach; acc. Qed.

Lemma loop_inv w argv a pin mask m :
  List.length argv = 2%nat -> pin = Libc.atoi (nth 1 argv ""%string) ->
  0 <= pin <= 53 -> mapped a pin m ->
  always w (Inv argv) (Live (observe (loop a mask)) m).
Proof.
  intros Hlen Hpin Hrange Hm.
  apply always_cycle
    with (J := mapped a pin) (next := iteration a mask) (p := 2%nat)
         (c := fun m => Live (observe (loop a mask)) m); [|exact Hm].
  clear m Hm. intros m Hm. split; [|split].
  - apply loop_iteration, Hm.
  - apply iteration_mapped, Hm.
  - destruct Hm as [Hg Hw Hp Ha]. intros i Hi.
    assert (Hi' : i = 0%nat \/ i = 1%nat \/ i = 2%nat) by lia.
    destruct Hi' as [Hi'|[Hi'|Hi']]; subst i.
    + inv_late a.
    + unfold loop. go. win. adv. inv_late a.
    + unfold loop. go. win. adv. go. win. adv. inv_late a.
Qed.

(** *** From the mapping to the loop *)

Lemma main_mapped_inv w argv a pin m :
  List.length argv = 2%nat -> pin = Libc.atoi (nth 1 argv ""%string) ->
  0 <= pin <= 53 -> mapped a pin m -> handler m = (fun _ => false) ->
  always w (Inv argv) (Live (observe main_mapped) m).
Proof.
  intros Hlen Hpin Hrange [Hg Hw Hp Ha] Hh. unfold main_mapped.
  pose proof (pin_div_bounds pin Hrange) as Hb.
  destruct (pin_arith pin Hrange) as (Hd10 & Hr10 & Hd32 & Hland & Hmask).
  apply always_step.
  { constructor; [intros [] | exact Ha |].
    intros sig Hs. cbn [machine_of] in Hs. rewrite Hh in Hs. discriminate. }
  adv. nxt ltac:(inv_late a). nxt ltac:(inv_late a). nxt ltac:(inv_late a).
  rewrite Hg. adv. rewrite Hp.
  nxt ltac:(inv_late a).
  unfold fsel_index, fsel_shift. rewrite Hd10, Hr10, Z.add_0_l. win. adv.
  nxt ltac:(inv_late a). win. adv.
  nxt ltac:(inv_late a).
  mach. rewrite Hg. adv. rewrite Hd32, Hmask.
  nxt ltac:(inv_late a). win. adv.
  nxt ltac:(inv_late a). mach. rewrite Hg. adv.
  nxt ltac:(inv_late a). mach. rewrite Hg. adv.
  nxt ltac:(inv_late a). mach. rewrite Hp. adv.
  apply (loop_inv w argv a pin (shl32 1 (Z.land pin 31))); trivial.
  constructor; mach; acc.
Qed.

(** *** Every run of [main] *)

Lemma exec_inv w argv : always w (Inv argv) (start (main argv) (boot w)).
Proof.
  unfold start, main.
  destruct (Z.of_nat (List.length argv) =? 2) eqn:Hargc; cbn [negb].
  2:{ nxt inv_early. nxt inv_early. apply always_Done. inv_early. }
  nxt inv_early. nxt inv_early.
  destruct ((Libc.atoi (nth 1 argv ""%string) <? 0)
            || (Libc.atoi (nth 1 argv ""%string) >? 53)) eqn:Hpin.
  { nxt inv_early. nxt inv_early. apply always_Done. inv_early. }
  assert (Hrange : 0 <= Libc.atoi (nth 1 argv ""%string) <= 53).
  { apply orb_false_elim in Hpin. destruct Hpin as [H1 H2].
    apply Z.ltb_ge in H1. rewrite Z.gtb_ltb in H2. apply Z.ltb_ge in H2. lia. }
  assert (Hlen : List.length argv = 2%nat) by (apply Z.eqb_eq in Hargc; lia).
  set (pin := Libc.atoi (nth 1 argv ""%string)) in *.
  nxt inv_early.
  destruct (w_peri_base w) as [e|]; [nxt inv_early|].
  all: adv.
  all: nxt inv_early.
  all: destruct (w_open w <? 0) eqn:Hfd.
  all: try solve [nxt inv_early; nxt inv_early; nxt inv_early;
                  apply always_Done; inv_early].
  all: nxt inv_early.
  all: destruct (w_mmap w) as [|a] eqn:Hmm; adv.
  all: try solve [nxt inv_early; nxt inv_early; nxt inv_early; nxt inv_early;
                  apply always_Done; inv_early].
  all: nxt inv_early.
  all: nxt inv_early.
  all: apply (main_mapped_inv w argv a pin); trivial.
  all: constructor; mach; acc; reflexivity.
Qed.

(** *** The pin levels *)

Lemma pow2_testbit n : 0 <= n -> Z.testbit (2 ^ n) n = true.
Proof. intros Hn. apply Z.pow2_bits_true, Hn. Qed.

Lemma level_after_clear off pin m :
  0 <= pin <= 53 -> off = GPCLR0 + pin / 32 ->
  level (hw_store off (2 ^ (pin mod 32)) m) pin = false.
Proof.
  intros Hp ->. pose proof (pin_div_bounds pin Hp) as Hb.
  unfold hw_store, hits, GPSET0, GPCLR0.
  replace ((7 <=? 10 + pin / 32) && (10 + pin / 32 <=? 7 + 1)
           || (10 <=? 10 + pin / 32) && (10 + pin / 32 <=? 10 + 1)) with true
    by (symmetry; apply orb_true_intro; right; apply andb_true_intro;
        split; apply Z.leb_le; lia).
  cbn [level].
  replace (10 + pin / 32 =? 7 + pin / 32) with false
    by (symmetry; apply Z.eqb_neq; lia).
  rewrite Z.eqb_refl, pow2_testbit by lia.
  rewrite andb_false_r. cbn [andb].
  replace (0 <=? pin) with true by (symmetry; apply Z.leb_le; lia).
  reflexivity.
Qed.

Lemma hits_other_bank bank bank' pin v :
  0 <= pin <= 53 -> bank' <> bank -> bank' <> bank + 1 ->
  hits bank bank' v pin = false.
Proof.
  intros Hp H0 H1. pose proof (pin_div_bounds pin Hp).
  unfold hits. replace (bank' =? bank + pin / 32) with false
    by (symmetry; apply Z.eqb_neq; lia).
  rewrite andb_false_r. reflexivity.
Qed.

Lemma hits_own_bank bank off pin :
  0 <= pin <= 53 ->
  hits bank off (2 ^ (pin mod 32)) pin = (off =? bank + pin / 32).
Proof.
  intros Hp. pose proof (pin_div_bounds pin Hp).
  unfold hits. rewrite pow2_testbit by lia.
  replace (0 <=? pin) with true by (symmetry; apply Z.leb_le; lia).
  rewrite andb_true_r. reflexivity.
Qed.

Lemma level_bank_store off v m pin :
  off = GPSET0 \/ off = GPSET0 + 1 \/ off = GPCLR0 \/ off = GPCLR0 + 1 ->
  level (hw_store off v m) pin
  = if hits GPSET0 off v pin then true
    else if hits GPCLR0 off v pin then false else level m pin.
Proof.
  intros Hoff. unfold hw_store.
  replace ((GPSET0 <=? off) && (off <=? GPSET0 + 1)
           || (GPCLR0 <=? off) && (off <=? GPCLR0 + 1)) with true; [reflexivity|].
  symmetry. unfold GPSET0, GPCLR0 in *.
  destruct Hoff as [H|[H|[H|H]]]; subst off; reflexivity.
Qed.

Lemma level_iteration a pin m :
  0 <= pin <= 53 -> level m pin = false ->
  level (iteration a (2 ^ (pin mod 32)) m) pin = false.
Proof.
  intros Hp Hl. pose proof (pin_div_bounds pin Hp) as Hb. unfold iteration.
  rewrite level_bank_store by auto.
  rewrite (hits_other_bank GPSET0 GPCLR0) by (trivial; unfold GPSET0, GPCLR0; lia).
  rewrite hits_own_bank by trivial.
  destruct (GPCLR0 =? GPCLR0 + pin / 32) eqn:E; [reflexivity|].
  cbn [level log]. rewrite level_bank_store by auto.
  rewrite hits_own_bank by trivial.
  replace (GPSET0 =? GPSET0 + pin / 32) with false
    by (apply Z.eqb_neq in E; symmetry; apply Z.eqb_neq; lia).
  rewrite (hits_other_bank GPCLR0 GPSET0) by (trivial; unfold GPSET0, GPCLR0; lia).
  exact Hl.
Qed.

(** The offset handed to [mmap] is the sum of the base and [GPIO_OFFSET]
    as long as that sum is below 2^63. *)
Lemma gpio_base_sum w :
  0 <= peri_base w -> peri_base w + GPIO_OFFSET < 2 ^ 63 ->
  gpio_base w = peri_base w + GPIO_OFFSET.
Proof.
  intros H0 H1. unfold gpio_base, to_off_t, wrap_ulong.
  assert (Ho : 0 <= GPIO_OFFSET) by discriminate.
  rewrite Z.mod_mod by discriminate.
  rewrite Z.mod_small by lia.
  destruct (Z.ltb_spec (peri_base w + GPIO_OFFSET) (2 ^ 63)); [reflexivity|lia].
Qed.

(** *** The startup, when nothing fails *)

Lemma startup w argv a pin :
  List.length argv = 2%nat -> Libc.atoi (nth 1 argv ""%string) = pin ->
  0 <= pin <= 53 -> 0 <= w_open w -> w_mmap w = Mapped a ->
  exists m,
    exec w argv (startup_steps w)
    = Live (observe (loop a (2 ^ (pin mod 32)))) m
    /\ mapped a pin m
    /\ (forall sig, handler m sig = true)
    /\ trace m = startup_trace w a pin
    /\ level m pin = false.
Proof.
  intros Hlen Hatoi Hp Hfd Hmm.
  pose proof (pin_div_bounds pin Hp) as Hb.
  destruct (pin_arith pin Hp) as (Hd10 & Hr10 & Hd32 & Hland & Hmask).
  assert (Hfd' : (w_open w <? 0) = false) by (apply Z.ltb_ge; lia).
  assert (Hpin : (pin <? 0) || (pin >? 53) = false).
  { apply orb_false_intro;
      [apply Z.ltb_ge | rewrite Z.gtb_ltb; apply Z.ltb_ge]; lia. }
  unfold exec, start, main, startup_steps, startup_trace, gpio_base,
    peri_base.
  rewrite Hlen. cbn [Z.of_nat Pos.of_succ_nat Pos.succ Z.eqb Pos.eqb negb].
  rewrite Hatoi.
  destruct (w_peri_base w) as [e|] eqn:Henv.
  all: eexists; split.
  1,3: repeat (eapply run_step;
    [ tree; mach; unfold fsel_index, fsel_shift;
      rewrite ?Hpin, ?Henv, ?Hfd', ?Hmm, ?Hd10, ?Hr10, ?Hd32, ?Hmask,
        ?Z.add_0_l;
      tree; fire; mach;
      rewrite ?Hpin, ?Henv, ?Hfd', ?Hmm, ?Hd10, ?Hr10, ?Hd32, ?Hmask,
        ?Z.add_0_l;
      tree; reflexivity | ]).
  1,2: cbn [run]; reflexivity.
  all: split; [constructor; mach; acc; reflexivity|].
  all: split; [intros []; mach; reflexivity|].
  all: split; [mach; reflexivity | ].
  all: cbn [level log set_gpio set_window]; apply level_after_clear; trivial.
Qed.

(** The process after [k] iterations of the loop. *)
Lemma exec_loop w argv a pin k :
  List.length argv = 2%nat -> Libc.atoi (nth 1 argv ""%string) = pin ->
  0 <= pin <= 53 -> 0 <= w_open w -> w_mmap w = Mapped a ->
  exists m,
    exec w argv (startup_steps w + 3 * k)
    = Live (observe (loop a (2 ^ (pin mod 32)))) m
    /\ mapped a pin m
    /\ (forall sig, handler m sig = true)
    /\ level m pin = false.
Proof.
  intros Hlen Hatoi Hp Hfd Hmm.
  induction k as [|k IH].
  - destruct (startup w argv a pin Hlen Hatoi Hp Hfd Hmm)
      as (m & He & Hm & Hh & _ & Hl).
    exists m. rewrite Nat.add_0_r. auto.
  - destruct IH as (m & He & Hm & Hh & Hl).
    exists (iteration a (2 ^ (pin mod 32)) m).
    replace (startup_steps w + 3 * S k)%nat
      with ((startup_steps w + 3 * k) + 3)%nat by lia.
    unfold exec in *. rewrite run_add, He.
    split; [apply loop_iteration, Hm|].
    split; [apply iteration_mapped, Hm|].
    split; [|apply level_iteration; assumption].
    intros sig. unfold iteration. mach. apply Hh.
Qed.

(** *** The functions on a mapped window *)

Lemma setPinLow_run w pin a m :
  var_gpio m = Ptr a -> window m = Some a -> 0 <= pin <= 53 ->
  run w 3 (start (setPinLow pin) m)
  = Done tt
      (hw_store (GPCLR0 + pin / 32) (2 ^ (pin mod 32))
         (log (Store (Ptr a) (GPCLR0 + pin / 32) (2 ^ (pin mod 32))) m)).
Proof.
  intros Hg Hw Hp. destruct (pin_arith pin Hp) as (_ & _ & Hd & _ & Hm).
  unfold start, setPinLow.
  go. rewrite Hg. adv. go. rewrite Hd, Hm. win. adv. go. reflexivity.
Qed.

Lemma setPinHigh_run w pin a m :
  var_gpio m = Ptr a -> window m = Some a -> 0 <= pin <= 53 ->
  run w 3 (start (setPinHigh pin) m)
  = Done tt
      (hw_store (GPSET0 + pin / 32) (2 ^ (pin mod 32))
         (log (Store (Ptr a) (GPSET0 + pin / 32) (2 ^ (pin mod 32))) m)).
Proof.
  intros Hg Hw Hp. destruct (pin_arith pin Hp) as (_ & _ & Hd & _ & Hm).
  unfold start, setPinHigh.
  go. rewrite Hg. adv. go. rewrite Hd, Hm. win. adv. go. reflexivity.
Qed.

Lemma setPinOutput_run w pin a m :
  var_gpio m = Ptr a -> window m = Some a -> 0 <= pin <= 53 ->
  let v' := fsel_output (regs m (pin / 10)) (pin mod 10 * 3) in
  run w 6 (start (setPinOutput pin) m)
  = Done tt
      (hw_store (GPCLR0 + pin / 32) (2 ^ (pin mod 32))
         (log (Store (Ptr a) (GPCLR0 + pin / 32) (2 ^ (pin mod 32)))
            (hw_store (pin / 10) v'
               (log (Store (Ptr a) (pin / 10) v')
                  (log (Load (Ptr a) (pin / 10)) m))))).
Proof.
  intros Hg Hw Hp v'.
  destruct (pin_arith pin Hp) as (Hd10 & Hr10 & Hd32 & _ & Hm).
  unfold start, setPinOutput, fsel_index, fsel_shift.
  go. rewrite Hg. adv. go. rewrite Hd10, Hr10, Z.add_0_l. win. adv.
  go. win. adv. go. mach. rewrite Hg. adv.
  go. rewrite Hd32, Hm. win. adv. go. reflexivity.
Qed.

Lemma sigHandler_run w sig a pin m :
  var_gpio m = Ptr a -> window m = Some a -> var_targetPin m = pin ->
  0 <= pin <= 53 ->
  run w 16 (start (sigHandler sig) m) = Ended (Exited 0) (handled a pin m).
Proof.
  intros Hg Hw Hpin Hp. destruct (pin_arith pin Hp) as (_ & _ & Hd & _ & Hm).
  unfold start, sigHandler.
  go. rewrite Hpin. adv. go. rewrite Hg. adv. go. rewrite Hd, Hm. win. adv.
  go. mach. rewrite Hg. adv. go. mach. rewrite Hw, Z.eqb_refl. adv.
  go. go. apply run_Ended.
Qed.

Lemma handled_facts a pin m :
  0 <= pin <= 53 ->
  trace (handled a pin m)
  = trace m ++ [Ev (Store (Ptr a) (GPCLR0 + pin / 32) (2 ^ (pin mod 32)));
                Ev (Munmap (Ptr a) GPIO_LEN); Ev (Exit_now 0)]
  /\ level (handled a pin m) pin = false
  /\ window (handled a pin m) = None
  /\ var_gpio (handled a pin m) = NULL.
Proof.
  intros Hp. unfold handled. repeat split.
  - mach. rewrite <- !app_assoc. reflexivity.
  - cbn [level log set_gpio set_window]. apply level_after_clear; trivial.
Qed.

(** *** Bits of the function-select value *)

Lemma testbit_7 j : Z.testbit 7 j = (0 <=? j) && (j <? 3).
Proof.
  destruct (Z.leb_spec 0 j) as [H0|H0], (Z.ltb_spec j 3) as [H3|H3]; cbn [andb].
  - change 7 with (Z.ones 3). apply Z.ones_spec_low. lia.
  - change 7 with (Z.ones 3). apply Z.ones_spec_high. lia.
  - apply Z.testbit_neg_r. lia.
  - apply Z.testbit_neg_r. lia.
Qed.

Lemma testbit_1 j : Z.testbit 1 j = (j =? 0).
Proof.
  destruct (Z.eqb_spec j 0) as [->|Hj]; [reflexivity|].
  destruct (Z.lt_ge_cases j 0); [apply Z.testbit_neg_r; lia|].
  change 1 with (Z.ones 1). apply Z.ones_spec_high. lia.
Qed.

Lemma shl32_testbit x s i :
  0 <= i < 32 -> Z.testbit (shl32 x s) i = Z.testbit x (i - s).
Proof.
  intros Hi. unfold shl32, wrap32.
  rewrite Z.mod_pow2_bits_low by lia. apply Z.shiftl_spec. lia.
Qed.

Lemma not32_testbit x i :
  0 <= i < 32 -> Z.testbit (not32 x) i = negb (Z.testbit x i).
Proof.
  intros Hi. unfold not32, wrap32.
  rewrite Z.mod_pow2_bits_low by lia. apply Z.lnot_spec. lia.
Qed.

Lemma fsel_output_testbit v s i :
  0 <= i < 32 ->
  Z.testbit (fsel_output v s) i
  = if (s <=? i) && (i <? s + 3) then (i =? s) else Z.testbit v i.
Proof.
  intros Hi. unfold fsel_output.
  rewrite Z.lor_spec, Z.land_spec, not32_testbit, !shl32_testbit by trivial.
  rewrite testbit_7, testbit_1.
  replace (0 <=? i - s) with (s <=? i)
    by (destruct (Z.leb_spec s i), (Z.leb_spec 0 (i - s)); trivial; lia).
  replace (i - s <? 3) with (i <? s + 3)
    by (destruct (Z.ltb_spec i (s + 3)), (Z.ltb_spec (i - s) 3); trivial; lia).
  replace (i - s =? 0) with (i =? s)
    by (destruct (Z.eqb_spec i s), (Z.eqb_spec (i - s) 0); trivial; lia).
  destruct ((s <=? i) && (i <? s + 3)) eqn:E; cbn [negb].
  - rewrite andb_false_r. reflexivity.
  - rewrite andb_true_r.
    destruct (Z.eqb_spec i s) as [->|Hne]; [|apply orb_false_r].
    rewrite Z.leb_refl in E. cbn [andb] in E.
    apply Z.ltb_ge in E. lia.
Qed.

Lemma below_pow2 x n :
  0 <= n -> 0 <= x -> (forall i, n <= i -> Z.testbit x i = false) ->
  x < 2 ^ n.
Proof.
  intros Hn Hx Hbits.
  destruct (Z.lt_ge_cases x (2 ^ n)) as [H|H]; [exact H|].
  destruct (Z.eq_dec x 0) as [E|E].
  - subst x. apply Z.pow_pos_nonneg; [reflexivity | exact Hn].
  - assert (Hpos : 0 < x) by lia.
    assert (Hlog : n <= Z.log2 x) by (apply Z.log2_le_pow2; assumption).
    pose proof (Z.bit_log2 x Hpos) as Hb. rewrite (Hbits _ Hlog) in Hb.
    discriminate.
Qed.

(** The stored value is a [uint32_t]. *)
Lemma fsel_output_range v s : 0 <= fsel_output v s < 2 ^ 32.
Proof.
  unfold fsel_output, not32, shl32, wrap32.
  pose proof (Z.mod_pos_bound (Z.lnot (Z.shiftl 7 s mod 2 ^ 32)) (2 ^ 32)
                eq_refl) as Hn.
  pose proof (Z.mod_pos_bound (Z.shiftl 1 s) (2 ^ 32) eq_refl) as Hs.
  set (a := Z.lnot (Z.shiftl 7 s mod 2 ^ 32) mod 2 ^ 32) in *.
  set (b := Z.shiftl 1 s mod 2 ^ 32) in *.
  assert (H0 : 0 <= Z.lor (Z.land v a) b).
  { apply Z.lor_nonneg. split; [apply Z.land_nonneg; right|]; lia. }
  split; [exact H0|].
  apply below_pow2; [discriminate | exact H0 |]. intros i Hi.
  rewrite Z.lor_spec, Z.land_spec. unfold a, b.
  rewrite !Z.mod_pow2_bits_high by lia.
  rewrite andb_false_r. reflexivity.
Qed.

Lemma regs_bank_store off v m o :
  off = GPSET0 \/ off = GPSET0 + 1 \/ off = GPCLR0 \/ off = GPCLR0 + 1 ->
  regs (hw_store off v m) o = regs m o.
Proof.
  intros Hoff. unfold hw_store.
  replace ((GPSET0 <=? off) && (off <=? GPSET0 + 1)
           || (GPCLR0 <=? off) && (off <=? GPCLR0 + 1)) with true; [reflexivity|].
  symmetry. unfold GPSET0, GPCLR0 in *.
  destruct Hoff as [H|[H|[H|H]]]; subst off; reflexivity.
Qed.

Lemma regs_fsel_store off v m o :
  0 <= off <= 5 ->
  regs (hw_store off v m) o = if o =? off then v else regs m o.
Proof.
  intros Hoff. unfold hw_store, GPSET0, GPCLR0.
  replace ((7 <=? off) && (off <=? 7 + 1) || (10 <=? off) && (off <=? 10 + 1))
    with false; [reflexivity|].
  symmetry. apply orb_false_intro; apply andb_false_intro1; apply Z.leb_gt; lia.
Qed.

Lemma bank_offset pin base :
  0 <= pin <= 53 -> base = GPSET0 \/ base = GPCLR0 ->
  base + pin / 32 = GPSET0 \/ base + pin / 32 = GPSET0 + 1
  \/ base + pin / 32 = GPCLR0 \/ base + pin / 32 = GPCLR0 + 1.
Proof.
  intros Hp Hb. pose proof (pin_div_bounds pin Hp).
  assert (pin / 32 = 0 \/ pin / 32 = 1) as [E|E] by lia; rewrite E;
    destruct Hb; subst base; rewrite ?Z.add_0_r; auto.
Qed.

(** *** Signals *)

(** What a delivered signal does to a live process of [main]. *)
Lemma interrupted_handled w argv n sig :
  live (exec w argv n) ->
  handler (machine_of (exec w argv n)) sig = true ->
  exists a,
    var_gpio (machine_of (exec w argv n)) = Ptr a
    /\ window (machine_of (exec w argv n)) = Some a
    /\ List.length argv = 2%nat
    /\ var_targetPin (machine_of (exec w argv n))
       = Libc.atoi (nth 1 argv ""%string)
    /\ 0 <= var_targetPin (machine_of (exec w argv n)) <= 53
    /\ interrupted w argv n sig
       = Ended (Exited 0)
           (handled a (var_targetPin (machine_of (exec w argv n)))
              (machine_of (exec w argv n))).
Proof.
  intros Hlive Hh.
  destruct (inv_handler _ _ (exec_inv w argv n) sig Hh Hlive)
    as (a & Hg & Hw & Hlen & Hpin & Hrange).
  change (run w n (start (main argv) (boot w))) with (exec w argv n) in *.
  exists a. repeat split; trivial; try lia.
  unfold interrupted.
  destruct (exec w argv n) as [t m|r m|st m]; try contradiction.
  cbn [machine_of deliver] in *. rewrite Hh.
  apply sigHandler_run; trivial.
Qed.

Lemma interrupted_cases w argv n sig :
  (exists a pin, 0 <= pin <= 53
     /\ interrupted w argv n sig
        = Ended (Exited 0) (handled a pin (machine_of (exec w argv n))))
  \/ interrupted w argv n sig = Ended (Killed sig) (machine_of (exec w argv n))
  \/ interrupted w argv n sig = exec w argv n.
Proof.
  destruct (exec w argv n) as [t m|r m|st m] eqn:E.
  - destruct (handler m sig) eqn:Hh.
    + left.
      assert (Hl : live (exec w argv n)) by (rewrite E; exact I).
      assert (Hh' : handler (machine_of (exec w argv n)) sig = true)
        by (rewrite E; exact Hh).
      destruct (interrupted_handled w argv n sig Hl Hh')
        as (a & _ & _ & _ & _ & Hr & Hi).
      exists a, (var_targetPin m). rewrite E in Hr, Hi. auto.
    + right; left. unfold interrupted, deliver. rewrite E, Hh. reflexivity.
  - right; right. unfold interrupted, deliver. rewrite E. reflexivity.
  - right; right. unfold interrupted, deliver. rewrite E. reflexivity.
Qed.

Lemma interrupted_safe w argv n sig :
  ~ segfaulted (interrupted w argv n sig)
  /\ Forall access_ok (trace (machine_of (interrupted w argv n sig))).
Proof.
  pose proof (exec_inv w argv n) as [Hnf Hacc _]. fold (exec w argv n) in *.
  destruct (interrupted_cases w argv n sig) as [(a & pin & Hp & E)|[E|E]];
    rewrite E.
  - split; [intros []|]. cbn [machine_of].
    destruct (handled_facts a pin (machine_of (exec w argv n)) Hp) as (Ht & _).
    rewrite Ht. apply Forall_app. split; [exact Hacc|]. acc.
  - split; [intros []|exact Hacc].
  - split; assumption.
Qed.

(** *** Signals at any moment *)

Lemma play_app w s1 s2 p : play w (s1 ++ s2) p = play w s2 (play w s1 p).
Proof. apply fold_left_app. Qed.

Lemma tick_in_main w c : tick w (in_main c) = in_main (step w c).
Proof.
  unfold tick, in_main. cbn [running suspended blocked pending].
  destruct (step w c); reflexivity.
Qed.

Lemma play_ticks w n c : play w (ticks n) (in_main c) = in_main (run w n c).
Proof.
  revert c. induction n as [|n IH]; intros c; [reflexivity|].
  cbn [ticks repeat play fold_left react]. rewrite tick_in_main.
  apply IH.
Qed.

(** Without signals, [play] is [exec]. *)
Lemma play_main w argv n :
  play w (ticks n) (launch w argv) = in_main (exec w argv n).
Proof. apply play_ticks. Qed.

Lemma run_S_last w n R (c : config R) : run w (S n) c = step w (run w n c).
Proof.
  replace (S n) with (n + 1)%nat by lia. rewrite run_add. reflexivity.
Qed.

(** A program that ends the process after [n] steps never returns, and
    ends it in no other way. *)
Lemma ended_never_done w R (c : config R) n st m k r m' :
  run w n c = Ended st m -> run w k c <> Done r m'.
Proof.
  intros He Hd. destruct (Nat.le_gt_cases k n) as [H|H].
  - replace n with (k + (n - k))%nat in He by lia.
    rewrite run_add, Hd, run_Done in He. discriminate.
  - replace k with (n + (k - n))%nat in Hd by lia.
    rewrite run_add, He, run_Ended in Hd. discriminate.
Qed.

Lemma ended_once w R (c : config R) n st m k st' m' :
  run w n c = Ended st m -> run w k c = Ended st' m' -> st' = st.
Proof.
  intros He Hk. destruct (Nat.le_gt_cases k n) as [H|H].
  - replace n with (k + (n - k))%nat in He by lia.
    rewrite run_add, Hk, run_Ended in He. congruence.
  - replace k with (n + (k - n))%nat in Hk by lia.
    rewrite run_add, He, run_Ended in Hk. congruence.
Qed.

(** The trace only grows. *)
Lemma handle_trace w T (e : togglerE T) m :
  exists l, trace (snd (handle w e m)) = trace m ++ l.
Proof.
  destruct e; cbn [handle];
    repeat match goal with
           | |- context [match ?x with _ => _ end] => destruct x
           end;
    cbn [snd]; mach;
    first [ exists []; rewrite app_nil_r; reflexivity
          | eexists; reflexivity ].
Qed.

Lemma step_trace w R (c : config R) :
  exists l, trace (machine_of (step w c)) = trace (machine_of c) ++ l.
Proof.
  destruct c as [t m|r m|st m]; cbn [step machine_of];
    try (exists []; rewrite app_nil_r; reflexivity).
  destruct t as [r|t'|T e k]; cbn [machine_of];
    try (exists []; rewrite app_nil_r; reflexivity).
  destruct (handle_trace w T e m) as [l Hl].
  destruct (handle w e m) as [[x|st] m']; cbn [snd machine_of] in *;
    exists l; exact Hl.
Qed.

Lemma run_trace w R n (c : config R) :
  exists l, trace (machine_of (run w n c)) = trace (machine_of c) ++ l.
Proof.
  revert c. induction n as [|n IH]; intros c.
  - exists []. rewrite app_nil_r. reflexivity.
  - cbn [run]. destruct (IH (step w c)) as [l Hl].
    destruct (step_trace w R c) as [l' Hl'].
    exists (l' ++ l). rewrite Hl, Hl', app_assoc. reflexivity.
Qed.

(** [sigHandler] on a mapped window: 7 steps, at no moment a fault or an
    access outside the window, and no return. *)
Lemma sigHandler_ends w sig a pin m k :
  var_gpio m = Ptr a -> window m = Some a -> var_targetPin m = pin ->
  0 <= pin <= 53 -> (7 <= k)%nat ->
  run w k (start (sigHandler sig) m) = Ended (Exited 0) (handled a pin m).
Proof.
  intros Hg Hw Hpin Hp Hk. destruct (pin_arith pin Hp) as (_ & _ & Hd & _ & Hm).
  replace k with (7 + (k - 7))%nat by lia. rewrite run_add.
  replace (run w 7 (start (sigHandler sig) m))
    with (@Ended Z (Exited 0) (handled a pin m)); [apply run_Ended|].
  symmetry. unfold start, sigHandler.
  go. rewrite Hpin. adv. go. rewrite Hg. adv. go. rewrite Hd, Hm. win. adv.
  go. mach. rewrite Hg. adv. go. mach. rewrite Hw, Z.eqb_refl. adv.
  go. go. reflexivity.
Qed.

Lemma sigHandler_safe w sig a pin m k :
  var_gpio m = Ptr a -> window m = Some a -> var_targetPin m = pin ->
  0 <= pin <= 53 -> Forall access_ok (trace m) ->
  ~ segfaulted (run w k (start (sigHandler sig) m))
  /\ Forall access_ok (trace (machine_of (run w k (start (sigHandler sig) m)))).
Proof.
  intros Hg Hw Hpin Hp Hacc.
  pose proof (sigHandler_ends w sig a pin m 7 Hg Hw Hpin Hp (le_n 7)) as He.
  split.
  - destruct (run w k (start (sigHandler sig) m)) as [t' m'|r m'|st m'] eqn:E;
      try (intros []).
    rewrite (ended_once _ _ _ _ _ _ _ _ _ He E). intros [].
  - assert (Hall : Forall access_ok (trace (handled a pin m))).
    { destruct (handled_facts a pin m Hp) as (Ht & _).
      rewrite Ht. apply Forall_app. split; [exact Hacc|]. acc. }
    destruct (Nat.le_gt_cases k 7) as [H|H].
    + destruct (run_trace w Z (7 - k) (run w k (start (sigHandler sig) m)))
        as [l Hl].
      rewrite <- run_add in Hl. replace (k + (7 - k))%nat with 7%nat in Hl by lia.
      rewrite He in Hl. cbn [machine_of] in Hl. rewrite Hl in Hall.
      apply Forall_app in Hall. exact (proj1 Hall).
    + rewrite (sigHandler_ends w sig a pin m k Hg Hw Hpin Hp) by lia.
      exact Hall.
Qed.

Lemma tick_running w p :
  (forall r m, step w (running p) <> Done r m) ->
  running (tick w p) = step w (running p) /\ blocked (tick w p) = blocked p.
Proof.
  intros Hnd. unfold tick.
  destruct (step w (running p)) as [t m|r m|st m] eqn:E.
  - split; reflexivity.
  - exfalso. exact (Hnd r m eq_refl).
  - split; reflexivity.
Qed.

Lemma arrive_blocked sig p :
  blocked p sig = true ->
  running (arrive sig p) = running p /\ blocked (arrive sig p) = blocked p.
Proof.
  intros Hb. unfold arrive.
  destruct (running p) as [t m|r m|st m] eqn:E; rewrite ?Hb, ?E;
    split; reflexivity.
Qed.

(** While a handler runs that never returns, and only its own signal
    arrives, the process is the handler's run. *)
Lemma handler_phase w sig c0 rest :
  (forall k r m, run w k c0 <> Done r m) ->
  only sig rest ->
  forall q k,
    blocked q sig = true -> running q = run w k c0 ->
    running (play w rest q) = run w (k + steps_of rest) c0.
Proof.
  intros Hnd Honly. induction Honly as [|e rest He _ IH]; intros q k Hb Hr.
  - cbn [play fold_left steps_of]. rewrite Nat.add_0_r. exact Hr.
  - destruct He as [He|He]; subst e; cbn [play fold_left react steps_of].
    + destruct (tick_running w q) as [Hrun Hbl].
      { intros r m. rewrite Hr, <- run_S_last. apply Hnd. }
      rewrite Nat.add_succ_r. apply (IH (tick w q) (S k)).
      * rewrite Hbl. exact Hb.
      * rewrite Hrun, Hr, run_S_last. reflexivity.
    + destruct (arrive_blocked sig q Hb) as [Hrun Hbl].
      apply (IH (arrive sig q) k).
      * rewrite Hbl. exact Hb.
      * rewrite Hrun. exact Hr.
Qed.

(** A run of [main] in which [sig] arrives after [n] steps, while its
    handler is installed, and no other signal afterwards. *)
Lemma signalled w argv n sig rest :
  live (exec w argv n) ->
  handler (machine_of (exec w argv n)) sig = true ->
  only sig rest ->
  running (play w (ticks n ++ Sig sig :: rest) (launch w argv))
  = run w (steps_of rest) (start (sigHandler sig) (machine_of (exec w argv n))).
Proof.
  intros Hlive Hh Honly.
  destruct (interrupted_handled w argv n sig Hlive Hh)
    as (a & Hg & Hw & _ & _ & Hrange & _).
  rewrite play_app, play_main. cbn [play fold_left react].
  destruct (exec w argv n) as [t m|r m|st m]; try contradiction.
  cbn [machine_of] in *.
  assert (Hnd : forall k r m',
             run w k (start (sigHandler sig) m) <> Done r m').
  { intros k r m'.
    apply (ended_never_done w Z _ 7 (Exited 0) (handled a (var_targetPin m) m)).
    apply (sigHandler_ends w sig a (var_targetPin m) m 7); trivial. }
  assert (Hb : blocked (arrive sig (in_main (Live t m))) sig = true).
  { unfold arrive, in_main. cbn [running blocked]. rewrite Hh.
    cbn [blocked]. destruct sig; reflexivity. }
  assert (Hr : running (arrive sig (in_main (Live t m)))
               = run w 0 (start (sigHandler sig) m)).
  { unfold arrive, in_main. cbn [running blocked]. rewrite Hh. reflexivity. }
  exact (handler_phase w sig _ rest Hnd Honly _ 0%nat Hb Hr).
Qed.

Lemma only_ticks sig n : only sig (ticks n).
Proof. apply Forall_forall. intros e He. apply repeat_spec in He. auto. Qed.

Lemma steps_of_ticks n : steps_of (ticks n) = n.
Proof.
  unfold ticks. induction n as [|n IH]; [reflexivity|].
  cbn [repeat steps_of]. rewrite IH. reflexivity.
Qed.

Lemma play_ended w sched p st m :
  running p = Ended st m -> running (play w sched p) = Ended st m.
Proof.
  revert p. induction sched as [|e sched IH]; intros p Hp; [exact Hp|].
  cbn [play fold_left]. apply IH.
  destruct e as [|sig]; cbn [react].
  - unfold tick. rewrite Hp. reflexivity.
  - unfold arrive. rewrite Hp. exact Hp.
Qed.

Lemma play_done w sched r m :
  play w sched (in_main (Done r m)) = in_main (Done r m).
Proof.
  induction sched as [|e sched IH]; [reflexivity|].
  cbn [play fold_left]. destruct e as [|sig]; exact IH.
Qed.

Lemma play_cons w e sched p :
  play w (e :: sched) p = play w sched (react w p e).
Proof. reflexivity. Qed.

Lemma arrive_unhandled sig t m :
  handler m sig = false ->
  running (arrive sig (in_main (Live t m))) = Ended (Killed sig) m.
Proof.
  intros Hh. unfold arrive, in_main. cbn [running blocked]. rewrite Hh.
  reflexivity.
Qed.

(** [interrupted] is the run in which the signal arrives after [n] steps
    of [main] and nothing arrives afterwards. *)
Lemma interrupted_play w argv n sig :
  running (play w (ticks n ++ Sig sig :: ticks 16) (launch w argv))
  = interrupted w argv n sig.
Proof.
  destruct (exec w argv n) as [t m|r m|st m] eqn:E.
  - destruct (handler m sig) eqn:Hh.
    + assert (Hl : live (exec w argv n)) by (rewrite E; exact I).
      assert (Hh' : handler (machine_of (exec w argv n)) sig = true)
        by (rewrite E; exact Hh).
      rewrite (signalled w argv n sig (ticks 16) Hl Hh' (only_ticks sig 16)).
      rewrite steps_of_ticks.
      unfold interrupted, deliver. rewrite E. cbn [machine_of]. rewrite Hh.
      reflexivity.
    + rewrite play_app, play_main, play_cons, E.
      unfold interrupted, deliver. rewrite E, Hh.
      apply play_ended. apply arrive_unhandled. exact Hh.
  - rewrite play_app, play_main, play_cons, E.
    unfold interrupted, deliver. rewrite E.
    change (react w (in_main (Done r m)) (Sig sig)) with (in_main (Done r m)).
    rewrite play_done. reflexivity.
  - rewrite play_app, play_main, E. unfold interrupted, deliver. rewrite E.
    apply play_ended. reflexivity.
Qed.

End TogglerFacts.

(** ** The statements about the toggler *)

Module TogglerTheorems.
Import CInt Toggler TogglerSpec ExecFacts TogglerFacts.

(** C6: for every pin p in [0,53], the pin-configuration step selects
    function-select register index p / 10 and 3-bit field shift
    (p mod 10) * 3, and these are the register it reads and writes and the
    field it sets; pin 0 gives register 0 and shift 0, pin 21 register 2 and
    shift 3, pin 53 register 5 and shift 9. *)
Theorem setPinOutput_selects_register_and_shift w p a m :
  0 <= p <= 53 -> var_gpio m = Ptr a -> window m = Some a ->
  fsel_index p = p / 10 /\ fsel_shift p = (p mod 10) * 3
  /\ (exists m',
        run w 6 (start (setPinOutput p) m) = Done tt m'
        /\ trace m'
           = trace m
             ++ [Ev (Load (Ptr a) (fsel_index p));
                 Ev (Store (Ptr a) (fsel_index p)
                       (fsel_output (regs m (fsel_index p)) (fsel_shift p)));
                 Ev (Store (Ptr a) (GPCLR0 + p / 32) (2 ^ (p mod 32)))])
  /\ (fsel_index 0 = 0 /\ fsel_shift 0 = 0)
  /\ (fsel_index 21 = 2 /\ fsel_shift 21 = 3)
  /\ (fsel_index 53 = 5 /\ fsel_shift 53 = 9).
Proof.
  intros Hp Hg Hw. destruct (pin_arith p Hp) as (Hd & Hr & _).
  unfold fsel_index, fsel_shift. rewrite Hd, Hr.
  split; [reflexivity|]. split; [reflexivity|]. split.
  - eexists. split; [apply setPinOutput_run; eassumption|].
    mach. rewrite <- !app_assoc. reflexivity.
  - repeat split; reflexivity.
Qed.

Lemma setPinOutput_selects_register_and_shift_at_21 :
  let m := set_window (Some 4096) (set_gpio (Ptr 4096) (boot w_pi)) in
  fsel_index 21 = 21 / 10 /\ fsel_shift 21 = (21 mod 10) * 3
  /\ (exists m',
        run w_pi 6 (start (setPinOutput 21) m) = Done tt m'
        /\ trace m'
           = trace m
             ++ [Ev (Load (Ptr 4096) (fsel_index 21));
                 Ev (Store (Ptr 4096) (fsel_index 21)
                       (fsel_output (regs m (fsel_index 21)) (fsel_shift 21)));
                 Ev (Store (Ptr 4096) (GPCLR0 + 21 / 32) (2 ^ (21 mod 32)))])
  /\ (fsel_index 0 = 0 /\ fsel_shift 0 = 0)
  /\ (fsel_index 21 = 2 /\ fsel_shift 21 = 3)
  /\ (fsel_index 53 = 5 /\ fsel_shift 53 = 9).
Proof.
  apply (setPinOutput_selects_register_and_shift w_pi 21 4096);
    [lia | reflexivity | reflexivity].
Defined.

(** C7: for every pin p in [0,53] and every prior value v of p's
    function-select register, the register of index p / 10, configuring p
    as output reads that register and writes it back as a 32-bit value v'
    whose bits 3 * (p mod 10), + 1 and + 2, the field of p, are 1, 0 and 0
    (the field holds 001) and whose other bits are those of v; the other
    registers are left alone; and immediately afterwards bit p mod 32 is
    written to the clear register of p, at word offset 10 + p / 32 (byte
    offset 0x28), so that the pin is low. *)
Theorem setPinOutput_read_modify_write w p a m :
  0 <= p <= 53 -> var_gpio m = Ptr a -> window m = Some a ->
  let r := p / 10 in
  let s := 3 * (p mod 10) in
  let v := regs m r in
  exists m' v',
    run w 6 (start (setPinOutput p) m) = Done tt m'
    /\ trace m'
       = trace m
         ++ [Ev (Load (Ptr a) r);
             Ev (Store (Ptr a) r v');
             Ev (Store (Ptr a) (10 + p / 32) (2 ^ (p mod 32)))]
    /\ regs m' r = v'
    /\ 0 <= v' < 2 ^ 32
    /\ (Z.testbit v' s = true
        /\ Z.testbit v' (s + 1) = false
        /\ Z.testbit v' (s + 2) = false)
    /\ (forall i, 0 <= i < 32 -> i < s \/ s + 3 <= i ->
                  Z.testbit v' i = Z.testbit v i)
    /\ (forall o, o <> r -> regs m' o = regs m o)
    /\ level m' p = false.
Proof.
  intros Hp Hg Hw r s v. pose proof (pin_div_bounds p Hp) as Hb.
  assert (Hs : s = p mod 10 * 3) by (unfold s; lia).
  assert (Hshift : 0 <= s <= 27) by lia.
  exists (hw_store (GPCLR0 + p / 32) (2 ^ (p mod 32))
            (log (Store (Ptr a) (GPCLR0 + p / 32) (2 ^ (p mod 32)))
               (hw_store r (fsel_output v s)
                  (log (Store (Ptr a) r (fsel_output v s))
                     (log (Load (Ptr a) r) m))))),
    (fsel_output v s).
  split; [rewrite Hs; apply setPinOutput_run; assumption|].
  set (v' := fsel_output v s).
  split; [mach; rewrite <- !app_assoc; reflexivity|].
  split.
  { rewrite regs_bank_store by (apply bank_offset; auto).
    cbn [regs log]. rewrite regs_fsel_store by (unfold r; lia).
    rewrite Z.eqb_refl. reflexivity. }
  split; [apply fsel_output_range|].
  split.
  { unfold v'. rewrite !fsel_output_testbit by lia.
    replace ((s <=? s) && (s <? s + 3)) with true
      by (symmetry; apply andb_true_intro;
          split; [apply Z.leb_le | apply Z.ltb_lt]; lia).
    replace ((s <=? s + 1) && (s + 1 <? s + 3)) with true
      by (symmetry; apply andb_true_intro;
          split; [apply Z.leb_le | apply Z.ltb_lt]; lia).
    replace ((s <=? s + 2) && (s + 2 <? s + 3)) with true
      by (symmetry; apply andb_true_intro;
          split; [apply Z.leb_le | apply Z.ltb_lt]; lia).
    repeat split; [apply Z.eqb_refl | apply Z.eqb_neq; lia | apply Z.eqb_neq; lia]. }
  split.
  { intros i Hi32 Hout. unfold v'. rewrite fsel_output_testbit by lia.
    replace ((s <=? i) && (i <? s + 3)) with false; [reflexivity|].
    symmetry. destruct Hout;
      [apply andb_false_intro1; apply Z.leb_gt
      |apply andb_false_intro2; apply Z.ltb_ge]; lia. }
  split.
  { intros o Ho. rewrite regs_bank_store by (apply bank_offset; auto).
    cbn [regs log]. rewrite regs_fsel_store by (unfold r; lia).
    replace (o =? r) with false by (symmetry; apply Z.eqb_neq; exact Ho).
    reflexivity. }
  apply level_after_clear; trivial.
Qed.

(** Pin 21, whose field is bits 3 to 5 of register 2, on a machine where
    every register holds 0xFFFFFFFF: 0xFFFFFFCF is stored. *)
Lemma setPinOutput_read_modify_write_at_21 :
  let m := set_window (Some 4096) (set_gpio (Ptr 4096) (boot w_ones)) in
  (exists m' v',
     run w_ones 6 (start (setPinOutput 21) m) = Done tt m'
     /\ trace m'
        = trace m
          ++ [Ev (Load (Ptr 4096) 2);
              Ev (Store (Ptr 4096) 2 v');
              Ev (Store (Ptr 4096) 10 (2 ^ 21))]
     /\ regs m' 2 = v'
     /\ 0 <= v' < 2 ^ 32
     /\ (Z.testbit v' 3 = true
         /\ Z.testbit v' (3 + 1) = false
         /\ Z.testbit v' (3 + 2) = false)
     /\ (forall i, 0 <= i < 32 -> i < 3 \/ 3 + 3 <= i ->
                   Z.testbit v' i = Z.testbit 0xFFFFFFFF i)
     /\ (forall o, o <> 2 -> regs m' o = regs m o)
     /\ level m' 21 = false)
  /\ regs (machine_of (run w_ones 6 (start (setPinOutput 21) m))) 2
     = 0xFFFFFFCF.
Proof.
  split; [|vm_compute; reflexivity].
  apply (setPinOutput_read_modify_write w_ones 21 4096);
    [lia | reflexivity | reflexivity].
Defined.

(** C4, as stated, fails.  A run for pin 17: after 7 steps the window is
    mapped and [gpio] set, and [setExitHandler] has not run yet; SIGINT
    then kills the process by its default action, and nothing lowers the
    pin or unmaps the window. *)
Lemma signal_before_sigaction_kills :
  let argv := ["flash_fast"; "17"]%string in
  ~ handled_whenever_mapped w_pi argv
  /\ live (exec w_pi argv 7)
  /\ window (machine_of (exec w_pi argv 7)) = Some 0x76f00000
  /\ var_gpio (machine_of (exec w_pi argv 7)) = Ptr 0x76f00000
  /\ interrupted w_pi argv 7 SIGINT
     = Ended (Killed SIGINT) (machine_of (exec w_pi argv 7))
  /\ running (play w_pi (ticks 7 ++ Sig SIGINT :: ticks 7) (launch w_pi argv))
     = Ended (Killed SIGINT) (machine_of (exec w_pi argv 7)).
Proof.
  cbv zeta. split.
  - intros H.
    destruct (H 7%nat SIGINT) as [m' Hm'];
      [vm_compute; exact I | vm_compute; discriminate |].
    vm_compute in Hm'. discriminate Hm'.
  - split; [vm_compute; exact I|].
    split; [vm_compute; reflexivity|].
    split; [vm_compute; reflexivity|].
    split; vm_compute; reflexivity.
Qed.

(** C4, amended: in a run of the toggler, a signal received at a moment
    when [sigHandler] is installed for it (the window is then mapped; the
    converse fails between [mmap] and [sigaction]), no signal of the other
    kind arriving afterwards, makes the handler write the pin's bit to its
    clear register, which drives the pin low, then unmap the window, then
    end the process with code 0 through [_exit], within 7 steps; the
    handler's three effects involve no call of the buffered I/O library. *)
Theorem sigHandler_lowers_pin_unmaps_and_exits w argv n sig rest :
  live (exec w argv n) ->
  handler (machine_of (exec w argv n)) sig = true ->
  only sig rest -> (7 <= steps_of rest)%nat ->
  let m := machine_of (exec w argv n) in
  let pin := var_targetPin m in
  exists a m',
    window m = Some a
    /\ running (play w (ticks n ++ Sig sig :: rest) (launch w argv))
       = Ended (Exited 0) m'
    /\ interrupted w argv n sig = Ended (Exited 0) m'
    /\ trace m'
       = trace m
         ++ [Ev (Store (Ptr a) (GPCLR0 + pin / 32) (2 ^ (pin mod 32)));
             Ev (Munmap (Ptr a) GPIO_LEN);
             Ev (Exit_now 0)]
    /\ Forall (fun ev => ~ is_stdio ev)
         [Ev (Store (Ptr a) (GPCLR0 + pin / 32) (2 ^ (pin mod 32)));
          Ev (Munmap (Ptr a) GPIO_LEN);
          Ev (Exit_now 0)]
    /\ level m' pin = false
    /\ window m' = None.
Proof.
  intros Hlive Hh Honly Hsteps m pin.
  destruct (interrupted_handled w argv n sig Hlive Hh)
    as (a & Hg & Hw & _ & _ & Hrange & Hi).
  destruct (handled_facts a pin m Hrange) as (Ht & Hl & Hwin & _).
  exists a, (handled a pin m).
  split; [exact Hw|].
  split.
  { rewrite (signalled w argv n sig rest Hlive Hh Honly).
    apply sigHandler_ends; trivial. }
  repeat split; trivial; repeat constructor; intros [].
Qed.

(** Pin 17, SIGTERM after 30 steps, and SIGTERM once more while the
    handler runs. *)
Lemma sigHandler_lowers_pin_unmaps_and_exits_pin17 :
  let argv := ["flash_fast"; "17"]%string in
  let rest := [Tick; Tick; Sig SIGTERM; Tick; Tick; Tick; Tick; Tick; Tick] in
  let m := machine_of (exec w_pi argv 30) in
  let pin := var_targetPin m in
  exists a m',
    window m = Some a
    /\ running (play w_pi (ticks 30 ++ Sig SIGTERM :: rest) (launch w_pi argv))
       = Ended (Exited 0) m'
    /\ interrupted w_pi argv 30 SIGTERM = Ended (Exited 0) m'
    /\ trace m'
       = trace m
         ++ [Ev (Store (Ptr a) (GPCLR0 + pin / 32) (2 ^ (pin mod 32)));
             Ev (Munmap (Ptr a) GPIO_LEN);
             Ev (Exit_now 0)]
    /\ Forall (fun ev => ~ is_stdio ev)
         [Ev (Store (Ptr a) (GPCLR0 + pin / 32) (2 ^ (pin mod 32)));
          Ev (Munmap (Ptr a) GPIO_LEN);
          Ev (Exit_now 0)]
    /\ level m' pin = false
    /\ window m' = None.
Proof.
  apply (sigHandler_lowers_pin_unmaps_and_exits
           w_pi ["flash_fast"; "17"]%string 30 SIGTERM
           [Tick; Tick; Sig SIGTERM; Tick; Tick; Tick; Tick; Tick; Tick]).
  - vm_compute. exact I.
  - vm_compute. reflexivity.
  - repeat (constructor; [first [left; reflexivity | right; reflexivity]|]).
    constructor.
  - cbn [steps_of]. lia.
Defined.

(** C9, as stated, fails.  A run for pin 17 that has reached its loop:
    SIGINT arrives, and after 5 steps of its handler, which has just
    unmapped the window, SIGTERM arrives.  SIGTERM is not blocked while the
    handler of SIGINT runs, so the handler starts again, with [gpio] still
    the address of the window that is no longer mapped, and its write to
    the clear register faults. *)
Lemma other_signal_in_handler_faults :
  let argv := ["flash_fast"; "17"]%string in
  let before := ticks 18 ++ Sig SIGINT :: ticks 5 in
  ~ handler_always_on_mapped_window w_pi argv
  /\ enters (play w_pi before (launch w_pi argv)) SIGTERM
  /\ var_gpio (machine_of (running (play w_pi before (launch w_pi argv))))
     = Ptr 0x76f00000
  /\ window (machine_of (running (play w_pi before (launch w_pi argv))))
     = None
  /\ segfaulted
       (running (play w_pi (before ++ Sig SIGTERM :: ticks 3)
                   (launch w_pi argv))).
Proof.
  cbv zeta.
  assert (Hs : segfaulted
                 (running
                    (play w_pi
                       ((ticks 18 ++ Sig SIGINT :: ticks 5)
                        ++ Sig SIGTERM :: ticks 3)
                       (launch w_pi ["flash_fast"; "17"]%string))))
    by (vm_compute; exact I).
  split.
  - intros H.
    destruct (H ((ticks 18 ++ Sig SIGINT :: ticks 5)
                 ++ Sig SIGTERM :: ticks 3)) as [_ Hn].
    exact (Hn Hs).
  - split; [vm_compute; split; reflexivity|].
    split; [vm_compute; reflexivity|].
    split; [vm_compute; reflexivity | exact Hs].
Qed.

(** C9, amended: when the signal handler is entered from the code of
    [main] (the process is live and the handler is installed for the
    signal), [main] was given one argument that is a pin in [0,53] and now
    [targetPin], and [gpio] is the non-null address at which the window is
    mapped; and as long as no signal of the other kind arrives while the
    handler runs, the handler's write and unmap work on the mapped window:
    at no moment is there a fault or an access outside the window, and
    after 7 steps the process has ended with code 0. *)
Theorem handler_runs_on_mapped_window_only w argv n sig rest :
  live (exec w argv n) ->
  handler (machine_of (exec w argv n)) sig = true ->
  only sig rest ->
  let m := machine_of (exec w argv n) in
  let p := play w (ticks n ++ Sig sig :: rest) (launch w argv) in
  exists a,
    var_gpio m = Ptr a /\ window m = Some a
    /\ List.length argv = 2%nat
    /\ var_targetPin m = Libc.atoi (nth 1 argv ""%string)
    /\ 0 <= var_targetPin m <= 53
    /\ interrupted w argv n sig
       = Ended (Exited 0) (handled a (var_targetPin m) m)
    /\ ~ segfaulted (interrupted w argv n sig)
    /\ Forall access_ok (trace (machine_of (interrupted w argv n sig)))
    /\ ~ segfaulted (running p)
    /\ Forall access_ok (trace (machine_of (running p)))
    /\ ((7 <= steps_of rest)%nat ->
        running p = Ended (Exited 0) (handled a (var_targetPin m) m)).
Proof.
  intros Hlive Hh Honly m p.
  destruct (interrupted_handled w argv n sig Hlive Hh)
    as (a & Hg & Hw & Hlen & Hpin & Hrange & Hi).
  destruct (interrupted_safe w argv n sig) as [Hnf Hacc].
  pose proof (inv_access _ _ (exec_inv w argv n)) as Hall.
  fold (exec w argv n) in Hall. fold m in Hall.
  destruct (sigHandler_safe w sig a (var_targetPin m) m (steps_of rest)
              Hg Hw eq_refl Hrange Hall) as [Hnf' Hacc'].
  assert (Hp : running p
               = run w (steps_of rest) (start (sigHandler sig) m))
    by (apply signalled; assumption).
  exists a. rewrite Hp.
  split; [exact Hg|]. split; [exact Hw|]. split; [exact Hlen|].
  split; [exact Hpin|]. split; [exact Hrange|]. split; [exact Hi|].
  split; [exact Hnf|]. split; [exact Hacc|]. split; [exact Hnf'|].
  split; [exact Hacc'|].
  intros Hsteps. apply sigHandler_ends; trivial.
Qed.

(** Pin 17, SIGINT after 12 steps (the handlers are installed, the pin is
    not yet configured), and SIGINT again while the handler runs. *)
Lemma handler_runs_on_mapped_window_only_pin17 :
  let argv := ["flash_fast"; "17"]%string in
  let rest := [Tick; Tick; Tick; Sig SIGINT; Tick; Tick] in
  let m := machine_of (exec w_pi argv 12) in
  let p := play w_pi (ticks 12 ++ Sig SIGINT :: rest) (launch w_pi argv) in
  exists a,
    var_gpio m = Ptr a /\ window m = Some a
    /\ List.length argv = 2%nat
    /\ var_targetPin m = Libc.atoi (nth 1 argv ""%string)
    /\ 0 <= var_targetPin m <= 53
    /\ interrupted w_pi argv 12 SIGINT
       = Ended (Exited 0) (handled a (var_targetPin m) m)
    /\ ~ segfaulted (interrupted w_pi argv 12 SIGINT)
    /\ Forall access_ok (trace (machine_of (interrupted w_pi argv 12 SIGINT)))
    /\ ~ segfaulted (running p)
    /\ Forall access_ok (trace (machine_of (running p)))
    /\ ((7 <= steps_of rest)%nat ->
        running p = Ended (Exited 0) (handled a (var_targetPin m) m)).
Proof.
  apply (handler_runs_on_mapped_window_only
           w_pi ["flash_fast"; "17"]%string 12 SIGINT
           [Tick; Tick; Tick; Sig SIGINT; Tick; Tick]).
  - vm_compute. exact I.
  - vm_compute. reflexivity.
  - repeat (constructor; [first [left; reflexivity | right; reflexivity]|]).
    constructor.
Defined.

(** C10: for every pin p in [0,53], the accesses of the three register
    functions (read and write of the function-select word p / 10, write of
    the set register at byte 0x1C + 4 * (p / 32), write of the clear
    register at byte 0x28 + 4 * (p / 32)) lie inside the 0xB4 bytes of the
    mapped window, and the functions run without a fault; and in every run
    of [main], interrupted by a signal or not, no access leaves the window. *)
Theorem register_accesses_within_window w p a m argv n sig :
  0 <= p <= 53 -> var_gpio m = Ptr a -> window m = Some a ->
  (0 <= sizeof_uint32 * fsel_index p
   /\ sizeof_uint32 * fsel_index p + sizeof_uint32 <= GPIO_LEN)
  /\ (0 <= 0x1C + sizeof_uint32 * cdiv p 32
      /\ 0x1C + sizeof_uint32 * cdiv p 32 + sizeof_uint32 <= GPIO_LEN)
  /\ (0 <= 0x28 + sizeof_uint32 * cdiv p 32
      /\ 0x28 + sizeof_uint32 * cdiv p 32 + sizeof_uint32 <= GPIO_LEN)
  /\ (exists m1,
        run w 6 (start (setPinOutput p) m) = Done tt m1
        /\ trace m1
           = trace m
             ++ [Ev (Load (Ptr a) (fsel_index p));
                 Ev (Store (Ptr a) (fsel_index p)
                       (fsel_output (regs m (fsel_index p)) (fsel_shift p)));
                 Ev (Store (Ptr a) (0x28 / sizeof_uint32 + cdiv p 32)
                       (2 ^ (p mod 32)))])
  /\ (exists m2,
        run w 3 (start (setPinHigh p) m) = Done tt m2
        /\ trace m2
           = trace m
             ++ [Ev (Store (Ptr a) (0x1C / sizeof_uint32 + cdiv p 32)
                       (2 ^ (p mod 32)))])
  /\ (exists m3,
        run w 3 (start (setPinLow p) m) = Done tt m3
        /\ trace m3
           = trace m
             ++ [Ev (Store (Ptr a) (0x28 / sizeof_uint32 + cdiv p 32)
                       (2 ^ (p mod 32)))])
  /\ (~ segfaulted (exec w argv n)
      /\ Forall access_ok (trace (machine_of (exec w argv n))))
  /\ (~ segfaulted (interrupted w argv n sig)
      /\ Forall access_ok (trace (machine_of (interrupted w argv n sig)))).
Proof.
  intros Hp Hg Hw. pose proof (pin_div_bounds p Hp) as Hb.
  destruct (pin_arith p Hp) as (Hd10 & Hr10 & Hd32 & _).
  unfold fsel_index, fsel_shift. rewrite Hd10, Hr10, Hd32.
  rewrite GPSET0_off, GPCLR0_off.
  unfold sizeof_uint32, GPIO_LEN.
  split; [lia|]. split; [lia|]. split; [lia|].
  split.
  { eexists. split; [apply setPinOutput_run; eassumption|].
    mach. rewrite <- !app_assoc. reflexivity. }
  split.
  { eexists. split; [apply setPinHigh_run; eassumption|]. mach. reflexivity. }
  split.
  { eexists. split; [apply setPinLow_run; eassumption|]. mach. reflexivity. }
  split; [|apply interrupted_safe].
  destruct (exec_inv w argv n) as [Hnf Hacc _]. split; assumption.
Qed.

Lemma register_accesses_within_window_pin53 :
  let p := 53 in
  let a := 4096 in
  let w := w_pi in
  let argv := ["flash_fast"; "53"]%string in
  let n := 40%nat in
  let sig := SIGINT in
  let m := set_window (Some 4096) (set_gpio (Ptr 4096) (boot w_pi)) in
  (0 <= sizeof_uint32 * fsel_index p
   /\ sizeof_uint32 * fsel_index p + sizeof_uint32 <= GPIO_LEN)
  /\ (0 <= 0x1C + sizeof_uint32 * cdiv p 32
      /\ 0x1C + sizeof_uint32 * cdiv p 32 + sizeof_uint32 <= GPIO_LEN)
  /\ (0 <= 0x28 + sizeof_uint32 * cdiv p 32
      /\ 0x28 + sizeof_uint32 * cdiv p 32 + sizeof_uint32 <= GPIO_LEN)
  /\ (exists m1,
        run w 6 (start (setPinOutput p) m) = Done tt m1
        /\ trace m1
           = trace m
             ++ [Ev (Load (Ptr a) (fsel_index p));
                 Ev (Store (Ptr a) (fsel_index p)
                       (fsel_output (regs m (fsel_index p)) (fsel_shift p)));
                 Ev (Store (Ptr a) (0x28 / sizeof_uint32 + cdiv p 32)
                       (2 ^ (p mod 32)))])
  /\ (exists m2,
        run w 3 (start (setPinHigh p) m) = Done tt m2
        /\ trace m2
           = trace m
             ++ [Ev (Store (Ptr a) (0x1C / sizeof_uint32 + cdiv p 32)
                       (2 ^ (p mod 32)))])
  /\ (exists m3,
        run w 3 (start (setPinLow p) m) = Done tt m3
        /\ trace m3
           = trace m
             ++ [Ev (Store (Ptr a) (0x28 / sizeof_uint32 + cdiv p 32)
                       (2 ^ (p mod 32)))])
  /\ (~ segfaulted (exec w argv n)
      /\ Forall access_ok (trace (machine_of (exec w argv n))))
  /\ (~ segfaulted (interrupted w argv n sig)
      /\ Forall access_ok (trace (machine_of (interrupted w argv n sig)))).
Proof.
  apply (register_accesses_within_window
           w_pi 53 4096
           (set_window (Some 4096) (set_gpio (Ptr 4096) (boot w_pi)))
           ["flash_fast"; "53"]%string 40 SIGINT);
    [lia | reflexivity | reflexivity].
Defined.

(** C1, at pin 32: the claim has every iteration of the loop write the
    mask to the set and clear registers of group 32 / 32 = 1.  The loop of
    [main] writes the mask 1 to the registers of group 0 in every iteration,
    so that pin 32 stays low and pin 0 is driven instead. *)
Theorem toggle_loop_pin32_writes_group0 (k : nat) :
  let argv := ["flash_fast"; "32"]%string in
  let a := 0x76f00000 in
  exists m,
    exec w_pi argv (18 + 3 * k) = Live (observe (loop a 1)) m
    /\ exec w_pi argv (18 + 3 * k + 3)
       = Live (observe (loop a 1)) (iteration a 1 m)
    /\ trace (iteration a 1 m)
       = trace m ++ [Ev (Store (Ptr a) GPSET0 1); Ev (Store (Ptr a) GPCLR0 1)]
    /\ GPSET0 <> 0x1C / sizeof_uint32 + cdiv 32 32
    /\ GPCLR0 <> 0x28 / sizeof_uint32 + cdiv 32 32
    /\ level (machine_of (exec w_pi argv (18 + 3 * k + 1))) 32 = false
    /\ level (machine_of (exec w_pi argv (18 + 3 * k + 1))) 0 = true.
Proof.
  intros argv a.
  assert (Hatoi : Libc.atoi (nth 1 argv ""%string) = 32)
    by (vm_compute; reflexivity).
  destruct (exec_loop w_pi argv a 32 k) as (m & He & Hm & _ & Hl);
    [reflexivity | exact Hatoi | lia | cbn; lia | reflexivity |].
  change (startup_steps w_pi) with 18%nat in He.
  change (2 ^ (32 mod 32)) with 1 in He.
  exists m. split; [exact He|].
  split.
  { unfold exec in *. rewrite run_add, He. apply loop_iteration, Hm. }
  split; [unfold iteration; mach; rewrite <- !app_assoc; reflexivity|].
  split; [discriminate|]. split; [discriminate|].
  unfold exec in *. rewrite run_add, He, loop_set_step by apply Hm.
  rewrite !level_bank_store by auto.
  split; [|reflexivity].
  cbn [level log]. exact Hl.
Qed.

(** C2, as stated, fails: a non-numeric argument is read as pin 0 by
    [atoi], and the memory device is opened. *)
Lemma non_numeric_pin_is_accepted :
  ~ rejected_before_hardware w_pi ["flash_fast"; "abc"]%string.
Proof.
  intros [_ H]. specialize (H 4%nat). vm_compute in H.
  inversion H as [|ev l Hev _]. exact Hev.
Qed.

(** C2, amended: when the argument count is not one, or the argument reads
    under [atoi] as a number outside [0,53] (as "-1" and "54" do), [main]
    returns 1 and, apart from the message on standard error, performs no
    effect at all: it never opens the memory device. *)
Theorem usage_errors_rejected_before_hardware w argv :
  List.length argv <> 2%nat
  \/ Libc.atoi (nth 1 argv ""%string) < 0
  \/ 53 < Libc.atoi (nth 1 argv ""%string) ->
  rejected_before_hardware w argv.
Proof.
  intros Hbad.
  unfold rejected_before_hardware, exec, start, main.
  destruct (Z.of_nat (List.length argv) =? 2) eqn:Hargc; cbn [negb].
  - assert (Hpin : (Libc.atoi (nth 1 argv ""%string) <? 0)
                   || (Libc.atoi (nth 1 argv ""%string) >? 53) = true).
    { apply Z.eqb_eq in Hargc.
      destruct Hbad as [H|[H|H]]; [lia| |]; apply orb_true_intro;
        [left; apply Z.ltb_lt | right; rewrite Z.gtb_ltb; apply Z.ltb_lt];
        exact H. }
    split.
    + exists 4%nat. eexists.
      do 2 (eapply run_step; [tree; fire; reflexivity|]).
      rewrite Hpin.
      do 2 (eapply run_step; [tree; fire; reflexivity|]).
      reflexivity.
    + change (always w (fun c => Forall is_stdio (trace (machine_of c)))
                (Live (observe
                   (ITree.bind (call (WrTargetPin (Libc.atoi (nth 1 argv ""%string))))
                      (fun _ => ITree.bind (call RdTargetPin)
                         (fun targetPin =>
                            if (targetPin <? 0) || (targetPin >? 53)
                            then ITree.bind
                                   (call (Fprintf_stderr (MsgInvalidPin targetPin)))
                                   (fun _ => Ret 1)
                            else ITree.bind mapGpio (fun ok =>
                                   if negb ok
                                   then ITree.bind
                                          (call (Fprintf_stderr MsgMapFailed))
                                          (fun _ => Ret 1)
                                   else main_mapped)))))
                   (boot w))).
      nxt ltac:(mach; acc). nxt ltac:(mach; acc). rewrite Hpin.
      nxt ltac:(mach; acc). nxt ltac:(mach; acc).
      apply always_Done. mach. acc.
  - split.
    + exists 2%nat. eexists.
      do 2 (eapply run_step; [tree; fire; reflexivity|]).
      reflexivity.
    + change (always w (fun c => Forall is_stdio (trace (machine_of c)))
                (Live (observe
                   (ITree.bind (call (Fprintf_stderr (MsgUsage (nth_error argv 0))))
                      (fun _ => Ret 1)))
                   (boot w))).
      nxt ltac:(mach; acc). nxt ltac:(mach; acc).
      apply always_Done. mach. acc.
Qed.

Lemma usage_errors_rejected_before_hardware_minus_one :
  rejected_before_hardware w_pi ["flash_fast"; "-1"]%string.
Proof.
  apply (usage_errors_rejected_before_hardware w_pi ["flash_fast"; "-1"]%string).
  right; left. vm_compute. reflexivity.
Defined.

End TogglerTheorems.

(** ** Binary64 arithmetic *)

Module DoubleFacts.
Import Double DoubleSpec.

(** Number of binary digits *)
Lemma digits2_pos_size m : digits2_pos m = Pos.size m.
Proof. induction m as [m IH|m IH|]; cbn; rewrite ?IH; reflexivity. Qed.

Lemma digits2_bounds m :
  2 ^ (Z.pos (digits2_pos m) - 1) <= Z.pos m < 2 ^ Z.pos (digits2_pos m).
Proof.
  induction m as [m IH|m IH|]; cbn [digits2_pos].
  - rewrite Pos2Z.inj_succ. replace (Z.succ (Z.pos (digits2_pos m)) - 1) with (Z.succ (Z.pos (digits2_pos m) - 1)) by lia.
    rewrite !Z.pow_succ_r by lia. lia.
  - rewrite Pos2Z.inj_succ. replace (Z.succ (Z.pos (digits2_pos m)) - 1) with (Z.succ (Z.pos (digits2_pos m) - 1)) by lia.
    rewrite !Z.pow_succ_r by lia. lia.
  - cbn. lia.
Qed.

Lemma Zdigits2_bounds m :
  0 < m -> 2 ^ (Zdigits2 m - 1) <= m < 2 ^ Zdigits2 m.
Proof. destruct m as [|p|p]; try lia. intros _. apply digits2_bounds. Qed.

Lemma Zdigits2_pos m : 0 < m -> 0 < Zdigits2 m.
Proof. destruct m; cbn; lia. Qed.

Lemma Zdigits2_unique m d :
  2 ^ (d - 1) <= m < 2 ^ d -> 0 < m -> Zdigits2 m = d.
Proof.
  intros Hd Hm. pose proof (Zdigits2_bounds m Hm) as Hb.
  pose proof (Zdigits2_pos m Hm).
  assert (0 < d). { destruct (Z.lt_ge_cases 0 d); trivial. rewrite (Z.pow_neg_r 2 d) in Hd; try lia. destruct (Z.eq_dec d 0); [subst; cbn in Hd; lia | lia ]. }
  destruct (Z.lt_trichotomy (Zdigits2 m) d) as [H1|[H1|H1]]; trivial.
  - assert (2 ^ Zdigits2 m <= 2 ^ (d - 1)) by (apply Z.pow_le_mono_r; lia). lia.
  - assert (2 ^ d <= 2 ^ (Zdigits2 m - 1)) by (apply Z.pow_le_mono_r; lia). lia.
Qed.

Lemma Zdigits2_le m n : 0 < m -> m <= n -> Zdigits2 m <= Zdigits2 n.
Proof.
  intros Hm Hn. pose proof (Zdigits2_bounds m Hm). pose proof (Zdigits2_bounds n ltac:(lia)).
  pose proof (Zdigits2_pos m Hm).
  destruct (Z.le_gt_cases (Zdigits2 m) (Zdigits2 n)); trivial.
  assert (2 ^ Zdigits2 n <= 2 ^ (Zdigits2 m - 1)) by (apply Z.pow_le_mono_r; lia). lia.
Qed.

Lemma Zdigits2_mul_pow2 m k :
  0 < m -> 0 <= k -> Zdigits2 (m * 2 ^ k) = Zdigits2 m + k.
Proof.
  intros Hm Hk. pose proof (Zdigits2_bounds m Hm). pose proof (Zdigits2_pos m Hm).
  assert (0 < 2 ^ k) by (apply Z.pow_pos_nonneg; lia).
  apply Zdigits2_unique; [|nia].
  replace (Zdigits2 m + k - 1) with ((Zdigits2 m - 1) + k) by lia.
  rewrite !Z.pow_add_r by lia. nia.
Qed.

Lemma Zdigits2_div_pow2 m k :
  0 <= k -> 2 ^ k <= m -> Zdigits2 (m / 2 ^ k) = Zdigits2 m - k.
Proof.
  intros Hk Hm.
  assert (0 < 2 ^ k) by (apply Z.pow_pos_nonneg; lia).
  assert (Hm0 : 0 < m) by lia.
  pose proof (Zdigits2_bounds m Hm0) as Hb. pose proof (Zdigits2_pos m Hm0).
  assert (Hq : 0 < m / 2 ^ k) by (apply Z.div_str_pos; lia).
  assert (k < Zdigits2 m).
  { destruct (Z.lt_ge_cases k (Zdigits2 m)); trivial.
    assert (2 ^ Zdigits2 m <= 2 ^ k) by (apply Z.pow_le_mono_r; lia). lia. }
  apply Zdigits2_unique; [|lia]. split.
  - apply Z.div_le_lower_bound; [lia|]. rewrite <- Z.pow_add_r by lia.
    replace (k + (Zdigits2 m - k - 1)) with (Zdigits2 m - 1) by lia. lia.
  - apply Z.div_lt_upper_bound; [lia|]. rewrite <- Z.pow_add_r by lia.
    replace (k + (Zdigits2 m - k)) with (Zdigits2 m) by lia. lia.
Qed.

(** Shifting right with round and sticky bits *)

Lemma shr_1_m mrs : 0 <= shr_m mrs -> shr_m (shr_1 mrs) = shr_m mrs / 2.
Proof.
  destruct mrs as [m r s]. cbn [shr_m]. intros Hm.
  destruct m as [|[p|p|]|p]; cbn [shr_1 shr_m].
  - reflexivity.
  - rewrite Pos2Z.inj_xI. apply Z.div_unique with 1; lia.
  - rewrite Pos2Z.inj_xO. apply Z.div_unique with 0; lia.
  - reflexivity.
  - exfalso. apply (Zle_not_lt _ _ Hm). reflexivity.
Qed.

Lemma shr_1_inexact mrs :
  0 <= shr_m mrs -> inexactb (shr_1 mrs) = Z.odd (shr_m mrs) || inexactb mrs.
Proof.
  destruct mrs as [m r s]. unfold inexactb. cbn [shr_m shr_r shr_s]. intros Hm.
  destruct m as [|[p|p|]|p]; cbn [shr_1 shr_r shr_s Z.odd orb];
    try reflexivity.
  exfalso. apply (Zle_not_lt _ _ Hm). reflexivity.
Qed.

Lemma shr_1_nonneg mrs : 0 <= shr_m mrs -> 0 <= shr_m (shr_1 mrs).
Proof. intros H. rewrite shr_1_m by trivial. apply Z.div_pos; lia. Qed.

Lemma iter_shr_1 n mrs :
  0 <= shr_m mrs ->
  shr_m (Nat.iter n shr_1 mrs) = shr_m mrs / 2 ^ Z.of_nat n
  /\ inexactb (Nat.iter n shr_1 mrs)
     = inexactb mrs || negb (shr_m mrs mod 2 ^ Z.of_nat n =? 0).
Proof.
  intros Hm. induction n as [|n [IHm IHi]].
  - change (Nat.iter 0 shr_1 mrs) with mrs. cbn [Z.of_nat].
    rewrite Z.pow_0_r, Z.div_1_r, Z.mod_1_r.
    cbn. rewrite orb_false_r. auto.
  - change (Nat.iter (S n) shr_1 mrs) with (shr_1 (Nat.iter n shr_1 mrs)).
    assert (Hp : 0 < 2 ^ Z.of_nat n) by (apply Z.pow_pos_nonneg; lia).
    assert (Hn : 0 <= shr_m (Nat.iter n shr_1 mrs))
      by (rewrite IHm; apply Z.div_pos; lia).
    rewrite shr_1_m, shr_1_inexact, IHm, IHi by trivial.
    rewrite Nat2Z.inj_succ, Z.pow_succ_r by lia.
    split.
    + rewrite Z.div_div by lia. f_equal. lia.
    + rewrite (Z.mul_comm 2), Z.rem_mul_r by lia.
      set (a := shr_m mrs mod 2 ^ Z.of_nat n).
      set (q := shr_m mrs / 2 ^ Z.of_nat n).
      assert (Ha : 0 <= a < 2 ^ Z.of_nat n) by (apply Z.mod_pos_bound; lia).
      rewrite (Zmod_odd q).
      destruct (inexactb mrs); cbn [orb]; [apply orb_true_r|].
      destruct (Z.eqb_spec a 0) as [Ea|Ea]; cbn [negb orb].
      * rewrite Ea, Z.add_0_l, orb_false_r.
        destruct (Z.odd q); cbn [negb].
        -- rewrite Z.mul_1_r.
           destruct (Z.eqb_spec (2 ^ Z.of_nat n) 0); [lia | reflexivity].
        -- rewrite Z.mul_0_r. reflexivity.
      * rewrite orb_true_r.
        destruct (Z.eqb_spec (a + 2 ^ Z.of_nat n * (if Z.odd q then 1 else 0)) 0)
          as [E|E]; [|reflexivity].
        destruct (Z.odd q); lia.
Qed.

Lemma iter_pos_nat {A} (f : A -> A) p x :
  iter_pos f p x = Nat.iter (Pos.to_nat p) f x.
Proof.
  revert x. induction p as [p IH|p IH|]; intros x; cbn [iter_pos].
  - rewrite !IH, Pos2Nat.inj_xI.
    replace (S (2 * Pos.to_nat p))%nat
      with (Pos.to_nat p + S (Pos.to_nat p))%nat by lia.
    rewrite Nat.iter_add, Nat.iter_succ_r. reflexivity.
  - rewrite !IH, Pos2Nat.inj_xO.
    replace (2 * Pos.to_nat p)%nat with (Pos.to_nat p + Pos.to_nat p)%nat by lia.
    rewrite Nat.iter_add. reflexivity.
  - reflexivity.
Qed.

Lemma loc_of_record_of l m : loc_of_shr_record (shr_record_of_loc m l) = l.
Proof. destruct l as [|[| |]]; reflexivity. Qed.




(** [shr]: the mantissa is divided, and the result is exact when the
    input was and no bit is lost. *)
Lemma shr_spec mrs e n :
  0 <= shr_m mrs -> 0 < n ->
  shr_m (fst (shr mrs e n)) = shr_m mrs / 2 ^ n
  /\ snd (shr mrs e n) = e + n
  /\ inexactb (fst (shr mrs e n))
     = inexactb mrs || negb (shr_m mrs mod 2 ^ n =? 0).
Proof.
  intros Hm Hn. destruct n as [|p|p]; try lia. cbn [shr fst snd].
  rewrite iter_pos_nat.
  destruct (iter_shr_1 (Pos.to_nat p) mrs Hm) as [H1 H2].
  rewrite positive_nat_Z in H1, H2. auto.
Qed.

Lemma shr_nop mrs e n : n <= 0 -> shr mrs e n = (mrs, e).
Proof. destruct n; try lia; reflexivity. Qed.


(** Binary64 *)

Lemma fexp64_eq e : (fexp prec emax) e = Z.max (e - 53) (-1074).
Proof. reflexivity. Qed.


Lemma Zdigits2_nonneg m : 0 <= Zdigits2 m.
Proof. destruct m; cbn; lia. Qed.

Lemma pow2_pos k : 0 <= k -> 0 < 2 ^ k.
Proof. intros. apply Z.pow_pos_nonneg; lia. Qed.





(** Rounding what needs no rounding *)

Lemma loc_exact_of mrs : inexactb mrs = false -> loc_of_shr_record mrs = loc_Exact.
Proof. destruct mrs as [m [|] [|]]; cbn; trivial; discriminate. Qed.

Lemma shr_fexp_nop m e l :
  (fexp prec emax) (Zdigits2 m + e) - e <= 0 ->
  shr_fexp prec emax m e l = (shr_record_of_loc m l, e).
Proof. intros Hn. unfold shr_fexp. apply shr_nop, Hn. Qed.

Lemma binary_round_aux_exact s m e :
  0 < m ->
  let n := Z.max 0 ((fexp prec emax) (Zdigits2 m + e) - e) in
  m mod 2 ^ n = 0 -> e + n <= emax - prec ->
  binary_round_aux prec emax s m e loc_Exact
  = S754_finite s (Z.to_pos (m / 2 ^ n)) (e + n).
Proof.
  intros Hm n Hdiv Hmax. unfold binary_round_aux.
  destruct (Z.le_gt_cases ((fexp prec emax) (Zdigits2 m + e) - e) 0) as [Hn|Hn].
  - assert (En : n = 0) by (unfold n; lia).
    rewrite shr_fexp_nop by trivial. cbn [shr_record_of_loc shr_m loc_of_shr_record round_nearest_even].
    rewrite shr_fexp_nop by trivial. cbn [shr_record_of_loc shr_m].
    rewrite En, Z.pow_0_r, Z.div_1_r, Z.add_0_r in *.
    destruct m as [|p|p]; try lia.
    replace (e <=? emax - prec) with true by (symmetry; apply Z.leb_le; lia).
    reflexivity.
  - assert (En : n = (fexp prec emax) (Zdigits2 m + e) - e) by (unfold n; lia).
    assert (Hp : 0 < 2 ^ n) by (apply pow2_pos; lia).
    assert (Hge : 2 ^ n <= m).
    { destruct (Z.le_gt_cases (2 ^ n) m); trivial.
      rewrite Z.mod_small in Hdiv by lia. lia. }
    unfold shr_fexp at 1. rewrite <- En.
    destruct (shr_spec (shr_record_of_loc m loc_Exact) e n) as (H1 & H2 & H3);
      [cbn; lia | lia |].
    destruct (shr (shr_record_of_loc m loc_Exact) e n) as [mrs' e'].
    cbn [fst snd shr_record_of_loc shr_m inexactb shr_r shr_s orb] in H1, H2, H3.
    rewrite Hdiv in H3. cbn in H3.
    rewrite (loc_exact_of mrs' H3). cbn [round_nearest_even].
    rewrite H1, H2.
    assert (Hq : 0 < m / 2 ^ n) by (apply Z.div_str_pos; lia).
    rewrite shr_fexp_nop.
    2:{ rewrite Zdigits2_div_pow2 by lia.
        replace (Zdigits2 m - n + (e + n)) with (Zdigits2 m + e) by lia. lia. }
    cbn [shr_record_of_loc shr_m].
    destruct (m / 2 ^ n) as [|p|p]; try lia.
    replace (e + n <=? emax - prec) with true by (symmetry; apply Z.leb_le; lia).
    reflexivity.
Qed.

Lemma Pos_iter_xO m d : Z.pos (Pos.iter xO m d) = Z.pos m * 2 ^ Z.pos d.
Proof.
  induction d as [|d IH] using Pos.peano_ind.
  - cbn. lia.
  - rewrite Pos.iter_succ, Pos2Z.inj_xO, IH, Pos2Z.inj_succ, Z.pow_succ_r by lia.
    lia.
Qed.

Lemma shl_align_spec m e e' :
  e' <= e ->
  Z.pos (fst (shl_align m e e')) = Z.pos m * 2 ^ (e - e')
  /\ snd (shl_align m e e') = e'.
Proof.
  intros He. unfold shl_align.
  destruct (e' - e) as [|d|d] eqn:E; try lia; cbn [fst snd].
  - replace (e - e') with 0 by lia. split; lia.
  - rewrite Pos_iter_xO. replace (e - e') with (Z.pos d) by lia. auto.
Qed.

Lemma shl_align_nop m e e' : e <= e' -> shl_align m e e' = (m, e).
Proof.
  intros He. unfold shl_align. destruct (e' - e) eqn:E; try lia; reflexivity.
Qed.

(** [binary_round] of a number that fits: the canonical representation of
    the same number. *)
Lemma binary_round_exact s m e :
  let e' := (fexp prec emax) (Z.pos (digits2_pos m) + e) in
  e' <= emax - prec ->
  (e' <= e ->
   binary_round prec emax s m e
   = S754_finite s (Z.to_pos (Z.pos m * 2 ^ (e - e'))) e')
  /\ (e <= e' -> Z.pos m mod 2 ^ (e' - e) = 0 ->
      binary_round prec emax s m e
      = S754_finite s (Z.to_pos (Z.pos m / 2 ^ (e' - e))) e').
Proof.
  intros e' Hmax. unfold binary_round. fold e'. split.
  - intros He. destruct (shl_align_spec m e e' He) as [H1 H2].
    destruct (shl_align m e e') as [mz ez]. cbn [fst snd] in *. subst ez.
    assert (Hd : Zdigits2 (Z.pos mz) + e' = Z.pos (digits2_pos m) + e).
    { rewrite H1, Zdigits2_mul_pow2 by lia. cbn [Zdigits2]. lia. }
    rewrite binary_round_aux_exact; rewrite ?Hd; fold e';
      replace (Z.max 0 (e' - e')) with 0 by lia;
      rewrite ?Z.pow_0_r, ?Z.div_1_r, ?Z.add_0_r, ?Z.mod_1_r; trivial; try lia.
    rewrite H1. reflexivity.
  - intros He Hdiv. rewrite shl_align_nop by trivial.
    change (Z.pos (digits2_pos m)) with (Zdigits2 (Z.pos m)) in e'.
    rewrite binary_round_aux_exact; fold e';
      replace (Z.max 0 (e' - e)) with (e' - e) by lia; trivial; try lia.
    f_equal. lia.
Qed.

(** Well-formed finite numbers *)

Lemma valid_finite s m e :
  valid_binary (S754_finite s m e) = true ->
  (fexp prec emax) (Zdigits2 (Z.pos m) + e) = e /\ e <= emax - prec
  /\ -1074 <= e /\ Zdigits2 (Z.pos m) <= 53.
Proof.
  cbn [SpecFloat.valid_binary]. unfold bounded, canonical_mantissa. intros H.
  apply andb_prop in H. destruct H as [H1 H2].
  apply Z.eqb_eq in H1. apply Z.leb_le in H2.
  change (Z.pos (digits2_pos m)) with (Zdigits2 (Z.pos m)) in H1.
  split; [exact H1|]. split; [exact H2|].
  rewrite fexp64_eq in H1. lia.
Qed.

(** A valid number that is at least 1 has 53 digits. *)
Lemma valid_normal s m e :
  valid_binary (S754_finite s m e) = true ->
  -1074 < e -> Zdigits2 (Z.pos m) = 53.
Proof.
  intros Hv He. destruct (valid_finite s m e Hv) as (H1 & _).
  rewrite fexp64_eq in H1. lia.
Qed.

Lemma Prim2SF_one : Prim2SF 1 = SFone.
Proof. reflexivity. Qed.

Lemma xorb_false_r' s : xorb s false = s.
Proof. destruct s; reflexivity. Qed.

Lemma SFmul_one x :
  valid_binary x = true -> SFmul prec emax x SFone = x.
Proof.
  intros Hv. destruct x as [s|s| |s m e]; cbn [SFmul SFone];
    rewrite ?xorb_false_r'; try reflexivity.
  destruct (valid_finite s m e Hv) as (Hcan & Hmax & Hmin & Hd).
  rewrite binary_round_aux_exact.
  - rewrite Pos2Z.inj_mul.
    change (Z.pos 4503599627370496) with (2 ^ 52).
    rewrite Zdigits2_mul_pow2 by lia.
    replace (Zdigits2 (Z.pos m) + 52 + (e + -52)) with (Zdigits2 (Z.pos m) + e) by lia.
    rewrite Hcan. replace (Z.max 0 (e - (e + -52))) with 52 by lia.
    rewrite Z.div_mul by lia. cbn [Z.to_pos]. f_equal. lia.
  - lia.
  - rewrite Pos2Z.inj_mul.
    change (Z.pos 4503599627370496) with (2 ^ 52).
    rewrite Zdigits2_mul_pow2 by lia.
    replace (Zdigits2 (Z.pos m) + 52 + (e + -52)) with (Zdigits2 (Z.pos m) + e) by lia.
    rewrite Hcan. replace (Z.max 0 (e - (e + -52))) with 52 by lia.
    apply Z.mod_mul. lia.
  - rewrite Pos2Z.inj_mul.
    change (Z.pos 4503599627370496) with (2 ^ 52).
    rewrite Zdigits2_mul_pow2 by lia.
    replace (Zdigits2 (Z.pos m) + 52 + (e + -52)) with (Zdigits2 (Z.pos m) + e) by lia.
    rewrite Hcan. lia.
Qed.

Lemma mul_one (x : float) : (x * 1)%float = x.
Proof.
  apply Prim2SF_inj. rewrite FloatAxioms.mul_spec, Prim2SF_one.
  apply SFmul_one, Prim2SF_valid.
Qed.

(** The integer part *)

Lemma shiftl_nonneg_exp m e : 0 <= e -> Z.shiftl m e = m * 2 ^ e.
Proof. intros. apply Z.shiftl_mul_pow2. trivial. Qed.

Lemma shiftl_neg_exp m e : e <= 0 -> Z.shiftl m e = m / 2 ^ (- e).
Proof. intros. apply Z.shiftl_div_pow2. trivial. Qed.

(** The conversion of a non-negative [long] *)

Lemma of_long_spec z :
  0 <= z < 2 ^ 63 ->
  Prim2SF (of_long z) = binary_normalize prec emax z 0 false.
Proof.
  intros Hz. unfold of_long.
  replace (z <? 0) with false by (symmetry; apply Z.ltb_ge; lia).
  rewrite of_uint63_spec, Uint63.of_Z_spec.
  rewrite Z.mod_small; [reflexivity|]. exact Hz.
Qed.

Lemma normalize_small z :
  0 < z < 2 ^ 53 ->
  binary_normalize prec emax z 0 false
  = S754_finite false (Z.to_pos (z * 2 ^ (53 - Zdigits2 z))) (Zdigits2 z - 53).
Proof.
  intros Hz. destruct z as [|p|p]; try lia. cbn [binary_normalize].
  assert (Hd : 0 < Zdigits2 (Z.pos p) <= 53).
  { pose proof (Zdigits2_bounds (Z.pos p) ltac:(lia)) as Hb.
    split; [apply Zdigits2_pos; lia|].
    destruct (Z.le_gt_cases (Zdigits2 (Z.pos p)) 53); trivial.
    assert (2 ^ 53 <= 2 ^ (Zdigits2 (Z.pos p) - 1))
      by (apply Z.pow_le_mono_r; lia). lia. }
  cbn [Zdigits2] in *.
  destruct (binary_round_exact false p 0) as [H _].
  { rewrite fexp64_eq. unfold emax, prec. lia. }
  rewrite H by (rewrite fexp64_eq; lia).
  rewrite fexp64_eq.
  replace (Z.max (Z.pos (digits2_pos p) + 0 - 53) (-1074))
    with (Z.pos (digits2_pos p) - 53) by lia.
  replace (0 - (Z.pos (digits2_pos p) - 53)) with (53 - Z.pos (digits2_pos p)) by lia.
  reflexivity.
Qed.

(** A valid number with a non-negative exponent is the conversion of its
    integer part. *)
Lemma normalize_integer m e :
  valid_binary (S754_finite false m e) = true -> 0 <= e ->
  binary_normalize prec emax (Z.pos m * 2 ^ e) 0 false = S754_finite false m e.
Proof.
  intros Hv He. destruct (valid_finite false m e Hv) as (Hcan & Hmax & _ & _).
  assert (Hp : 0 < 2 ^ e) by (apply pow2_pos; lia).
  destruct (Z.pos m * 2 ^ e) as [|p|p] eqn:E; try lia. cbn [binary_normalize].
  assert (Hd : Z.pos (digits2_pos p) = Zdigits2 (Z.pos m) + e).
  { change (Z.pos (digits2_pos p)) with (Zdigits2 (Z.pos p)).
    rewrite <- E. apply Zdigits2_mul_pow2; lia. }
  destruct (binary_round_exact false p 0) as [_ H];
    rewrite Hd, Z.add_0_r, Hcan in *; [lia|].
  rewrite H; rewrite ?Z.sub_0_r; trivial.
  - rewrite <- E, Z.div_mul by lia. reflexivity.
  - rewrite <- E. apply Z.mod_mul. lia.
Qed.

(** Subtracting an integer below the integer part *)

Lemma shiftl_scaled r e eP :
  e <= eP -> eP <= 0 -> Z.shiftl (r * 2 ^ (eP - e)) e = r / 2 ^ (- eP).
Proof.
  intros H1 H2. rewrite shiftl_neg_exp by lia.
  replace (- e) with ((- eP) + (eP - e)) by lia.
  rewrite Z.pow_add_r by lia.
  assert (0 < 2 ^ (eP - e)) by (apply pow2_pos; lia).
  assert (0 < 2 ^ (- eP)) by (apply pow2_pos; lia).
  apply Z.div_mul_cancel_r; lia.
Qed.

Lemma shl_align_same m e : shl_align m e e = (m, e).
Proof. unfold shl_align. rewrite Z.sub_diag. reflexivity. Qed.

Lemma SFsub_self m e :
  SFsub prec emax (S754_finite false m e) (S754_finite false m e) = S754_zero false.
Proof.
  cbn [SFsub]. rewrite Z.min_id, shl_align_same. cbn [fst cond_Zopp].
  rewrite Z.sub_diag. reflexivity.
Qed.

Lemma SFsub_trunc mP eP on :
  valid_binary (S754_finite false mP eP) = true ->
  0 <= on <= Z.shiftl (Z.pos mP) eP -> on < 2 ^ 63 ->
  eP <= 0 \/ on = Z.shiftl (Z.pos mP) eP ->
  trunc (SFsub prec emax (S754_finite false mP eP)
           (binary_normalize prec emax on 0 false))
  = Some (Z.shiftl (Z.pos mP) eP - on).
Proof.
  intros Hv Hon H63 Hcase.
  destruct (valid_finite _ _ _ Hv) as (Hcan & Hmax & Hmin & Hd).
  destruct (Z.eq_dec on 0) as [Hz|Hnz].
  { subst on. cbn. rewrite Z.sub_0_r. reflexivity. }
  destruct (Z.lt_ge_cases 0 eP) as [Hpos|Hneg].
  { destruct Hcase as [?|Hc]; [lia|]. rewrite Hc.
    rewrite shiftl_nonneg_exp by lia.
    rewrite normalize_integer by (trivial; lia).
    rewrite SFsub_self. cbn. f_equal. lia. }
  set (k := - eP).
  assert (Hk : 0 <= k) by (unfold k; lia).
  assert (H2k : 0 < 2 ^ k) by (apply pow2_pos; lia).
  rewrite shiftl_neg_exp in * by lia. fold k in Hon |- *.
  assert (Hmk : on * 2 ^ k <= Z.pos mP).
  { etransitivity; [|apply (Z.mul_div_le _ (2 ^ k)); lia].
    rewrite (Z.mul_comm (2 ^ k)). apply Z.mul_le_mono_nonneg_r; lia. }
  assert (HmP : Z.pos mP < 2 ^ 53).
  { pose proof (Zdigits2_bounds (Z.pos mP) ltac:(lia)) as [_ Hb].
    eapply Z.lt_le_trans; [exact Hb|]. apply Z.pow_le_mono_r; lia. }
  assert (Hk53 : k < 53).
  { destruct (Z.lt_ge_cases k 53); trivial.
    assert (2 ^ 53 <= 2 ^ k) by (apply Z.pow_le_mono_r; lia). nia. }
  assert (HdP : Zdigits2 (Z.pos mP) = 53).
  { apply (valid_normal false mP eP Hv). lia. }
  assert (Hon53 : on < 2 ^ 53) by nia.
  assert (Hdg : 0 < Zdigits2 on <= 53 - k).
  { split; [apply Zdigits2_pos; lia|].
    etransitivity; [apply (Zdigits2_le on (Z.pos mP / 2 ^ k)); lia|].
    rewrite Zdigits2_div_pow2; try lia.
    pose proof (Zdigits2_bounds (Z.pos mP) ltac:(lia)) as [Hb _].
    rewrite HdP in Hb.
    eapply Z.le_trans; [|exact Hb]. apply Z.pow_le_mono_r; lia. }
  rewrite normalize_small by lia.
  set (dg := Zdigits2 on) in *.
  assert (Hpd : 0 < on * 2 ^ (53 - dg)).
  { apply Z.mul_pos_pos; [lia|apply pow2_pos; lia]. }
  cbn [SFsub].
  replace (Z.min eP (dg - 53)) with (dg - 53) by lia.
  rewrite shl_align_same.
  destruct (shl_align_spec mP eP (dg - 53) ltac:(lia)) as [Hal _].
  cbn [fst cond_Zopp]. rewrite Hal, Z2Pos.id by trivial.
  set (j := eP - (dg - 53)).
  assert (Hj : 0 <= j) by (unfold j, k in *; lia).
  assert (H2j : 0 < 2 ^ j) by (apply pow2_pos; lia).
  replace (53 - dg) with (k + j) by (unfold j, k; lia).
  rewrite Z.pow_add_r by lia.
  set (r := Z.pos mP - on * 2 ^ k).
  replace (Z.pos mP * 2 ^ j - on * (2 ^ k * 2 ^ j)) with (r * 2 ^ j)
    by (unfold r; ring).
  assert (Hr : 0 <= r) by (unfold r; lia).
  assert (Hres : r / 2 ^ k = Z.pos mP / 2 ^ k - on).
  { unfold r. replace (Z.pos mP - on * 2 ^ k) with (Z.pos mP + (- on) * 2 ^ k) by ring.
    rewrite Z.div_add by lia. lia. }
  destruct (Z.eq_dec r 0) as [Hr0|Hr0].
  { rewrite Hr0 in *. cbn. rewrite <- Hres. reflexivity. }
  assert (Hrlt : r < 2 ^ 53) by (unfold r; nia).
  assert (Hdr : 0 < Zdigits2 r <= 53).
  { split; [apply Zdigits2_pos; lia|].
    rewrite <- HdP. apply Zdigits2_le; unfold r; nia. }
  assert (HM : 0 < r * 2 ^ j) by (apply Z.mul_pos_pos; lia).
  destruct (r * 2 ^ j) as [|pM|pM] eqn:EM; try lia.
  cbn [binary_normalize].
  assert (HdM : Z.pos (digits2_pos pM) = Zdigits2 r + j).
  { change (Z.pos (digits2_pos pM)) with (Zdigits2 (Z.pos pM)).
    rewrite <- EM. apply Zdigits2_mul_pow2; lia. }
  pose proof (binary_round_exact false pM (dg - 53)) as Hround.
  rewrite HdM in Hround. cbv zeta in Hround.
  replace (Zdigits2 r + j + (dg - 53)) with (Zdigits2 r + eP) in Hround
    by (unfold j; lia).
  set (e' := (fexp prec emax) (Zdigits2 r + eP)) in *.
  assert (He' : -1074 <= e' <= eP).
  { unfold e'. rewrite fexp64_eq. lia. }
  destruct Hround as [HA HB]; [unfold emax, prec; lia|].
  destruct (Z.le_ge_cases e' (dg - 53)) as [Hle|Hge].
  - rewrite HA by trivial. cbn [trunc cond_Zopp].
    assert (Hp : 0 < 2 ^ (dg - 53 - e')) by (apply pow2_pos; lia).
    rewrite Z2Pos.id by (apply Z.mul_pos_pos; lia).
    rewrite <- EM, <- Z.mul_assoc, <- Z.pow_add_r by lia.
    replace (j + (dg - 53 - e')) with (eP - e') by (unfold j; lia).
    rewrite shiftl_scaled by lia. fold k. rewrite Hres. reflexivity.
  - assert (Hp : 0 < 2 ^ (e' - (dg - 53))) by (apply pow2_pos; lia).
    assert (Hsplit : Z.pos pM = r * 2 ^ (eP - e') * 2 ^ (e' - (dg - 53))).
    { rewrite <- EM, <- Z.mul_assoc, <- Z.pow_add_r by lia.
      f_equal. f_equal. unfold j. lia. }
    rewrite HB; trivial.
    + cbn [trunc cond_Zopp].
      rewrite Hsplit, Z.div_mul by lia.
      assert (0 < 2 ^ (eP - e')) by (apply pow2_pos; lia).
      rewrite Z2Pos.id by (apply Z.mul_pos_pos; lia).
      rewrite shiftl_scaled by lia. fold k. rewrite Hres. reflexivity.
    + rewrite Hsplit. apply Z.mod_mul. lia.
Qed.

(** Signs *)

Lemma binary_round_aux_sign s m e l :
  match binary_round_aux prec emax s m e l with
  | S754_zero s' | S754_finite s' _ _ | S754_infinity s' => s' = s
  | S754_nan => True
  end.
Proof.
  unfold binary_round_aux.
  destruct (shr_fexp prec emax m e l) as [mrs' e'].
  destruct (shr_fexp prec emax _ e' loc_Exact) as [mrs'' e''].
  destruct (shr_m mrs''); trivial.
  destruct (e'' <=? emax - prec); trivial.
Qed.

Lemma Prim2SF_zero : Prim2SF 0 = S754_zero false.
Proof. reflexivity. Qed.

Lemma not_leb_zero (x : float) :
  (x <=? 0)%float = false -> positive_or_nan (Prim2SF x).
Proof.
  rewrite FloatAxioms.leb_spec, Prim2SF_zero.
  destruct (Prim2SF x) as [s|[|]| |[|] m e]; cbn;
    first [exact (fun _ => I) | congruence].
Qed.

Lemma SFdiv_nonneg m e y :
  positive_or_nan y -> nonneg (SFdiv prec emax (S754_finite false m e) y).
Proof.
  destruct y as [s|[|]| |[|] m' e']; cbn [positive_or_nan]; try tauto; intros _.
  - reflexivity.
  - cbn [SFdiv]. destruct (SFdiv_core_binary _ _ _ _ _ _) as [[mz ez] lz].
    pose proof (binary_round_aux_sign (xorb false false) mz ez lz) as H.
    destruct (binary_round_aux _ _ _ _ _ _); exact H.
Qed.

(** Orders *)

Lemma Prim2SF_hundred : Prim2SF 100 = SFhundred.
Proof. reflexivity. Qed.

Lemma not_above_hundred m e :
  SFltb SFhundred (S754_finite false m e) = false ->
  e < -46 \/ (e = -46 /\ Z.pos m <= 7036874417766400).
Proof.
  unfold SFltb, SFhundred. cbn [SFcompare].
  change (Pos.compare_cont Eq 7036874417766400 m)
    with (Pos.compare 7036874417766400 m).
  destruct (Z.compare_spec (-46) e) as [He|He|He]; intros H.
  - right. split; [lia|].
    destruct (7036874417766400 ?= m)%positive eqn:E; try discriminate H.
    + apply Pos.compare_eq_iff in E. rewrite <- E. apply Z.le_refl.
    + apply Pos.compare_gt_iff in E. apply Z.lt_le_incl. exact E.
  - discriminate H.
  - left. lia.
Qed.

Lemma percent_of_bounds (x : float) :
  (x <? 0)%float = false -> (100 <? x)%float = false ->
  Prim2SF x = S754_nan \/ percent (Prim2SF x).
Proof.
  rewrite !FloatAxioms.ltb_spec, Prim2SF_zero, Prim2SF_hundred.
  destruct (Prim2SF x) as [s|[|]| |[|] m e]; cbn [percent]; auto;
    try (intros H; discriminate H); try (intros _ H; discriminate H).
  intros _ H. right. apply not_above_hundred, H.
Qed.

(** Division by 100 *)



(** Multiplication by a fraction *)



End DoubleFacts.

(** ** The software-PWM driver *)

Module PwmFacts.
Import Double DoubleSpec DoubleFacts Pwm PwmSpec.

Lemma to_long_Some x z :
  to_long x = Some z ->
  trunc (Prim2SF x) = Some z /\ Libc.LONG_MIN <= z <= Libc.LONG_MAX.
Proof.
  unfold to_long. destruct (trunc (Prim2SF x)) as [z'|]; [|discriminate].
  destruct (_ && _) eqn:E; [|discriminate]. intros H. injection H as H. subst z'.
  apply andb_prop in E. destruct E as [E1 E2].
  apply Z.leb_le in E1. apply Z.leb_le in E2. auto.
Qed.


Lemma LONG_MAX_lt : Libc.LONG_MAX < 2 ^ 63.
Proof. reflexivity. Qed.



Lemma safe_frequency_class f : positive_or_nan (Prim2SF (safe_frequency f)).
Proof.
  unfold safe_frequency. destruct (f <=? 0)%float eqn:E.
  - exact I.
  - apply not_leb_zero, E.
Qed.

Lemma Prim2SF_million :
  Prim2SF 1000000 = S754_finite false 8589934592000000 (-33).
Proof. reflexivity. Qed.

Lemma periodUs_nonneg f : nonneg (Prim2SF (periodUs f)).
Proof.
  unfold periodUs. rewrite FloatAxioms.div_spec, Prim2SF_million.
  apply SFdiv_nonneg, safe_frequency_class.
Qed.

Lemma of_long_zero : Prim2SF (of_long 0) = S754_zero false.
Proof. reflexivity. Qed.

(** At 0 %: no time on. *)
Lemma onTimeUs_zero f b s on :
  Prim2SF (safe_brightness b) = S754_zero s ->
  onTimeUs f b = Some on -> on = 0.
Proof.
  intros Hb H. apply to_long_Some in H. destruct H as [H _].
  rewrite FloatAxioms.mul_spec, FloatAxioms.div_spec, Hb, Prim2SF_hundred in H.
  cbn [SFdiv SF64div SFhundred] in H.
  destruct (Prim2SF (periodUs f)) as [s'|s'| |s' m e]; cbn in H; congruence.
Qed.

(** At 100 %: no time off. *)
Lemma offTimeUs_full f b on off :
  safe_brightness b = 100%float ->
  onTimeUs f b = Some on -> offTimeUs f on = Some off -> off = 0.
Proof.
  unfold onTimeUs, offTimeUs. intros Hb Hon Hoff. rewrite Hb in Hon.
  change (100 / 100)%float with 1%float in Hon. rewrite mul_one in Hon.
  apply to_long_Some in Hon. destruct Hon as [Hon Hrange].
  apply to_long_Some in Hoff. destruct Hoff as [Hoff _].
  rewrite FloatAxioms.sub_spec in Hoff.
  pose proof (periodUs_nonneg f) as Hsign.
  pose proof (Prim2SF_valid (periodUs f)) as Hv.
  pose proof LONG_MAX_lt.
  destruct (Prim2SF (periodUs f)) as [s|s| |s m e]; cbn [trunc nonneg] in *;
    try discriminate.
  - injection Hon as Hon. subst on s. rewrite of_long_zero in Hoff.
    cbn in Hoff. congruence.
  - injection Hon as Hon. subst s. cbn [cond_Zopp] in Hon.
    assert (H0 : 0 <= on) by (subst on; apply Z.shiftl_nonneg; lia).
    rewrite of_long_spec in Hoff by lia.
    unfold SF64sub in Hoff.
    rewrite SFsub_trunc in Hoff; trivial; try lia; auto.
    injection Hoff as Hoff. lia.
Qed.

(** Inputs in range need no safety check. *)












Lemma pwm_run_S w n R (c : config R) : run w (S n) c = run w n (step w c).
Proof. reflexivity. Qed.

Lemma pwm_run_add w a b R (c : config R) :
  run w (a + b) c = run w b (run w a c).
Proof.
  revert c. induction a as [|a IH]; intros c; [reflexivity|].
  cbn [Nat.add run]. apply IH.
Qed.

Lemma pwm_run_last w n R (c : config R) :
  run w (S n) c = step w (run w n c).
Proof.
  replace (S n) with (n + 1)%nat by lia. rewrite pwm_run_add. reflexivity.
Qed.

Lemma pwm_run_step w n R (c c1 c' : config R) :
  step w c = c1 -> run w n c1 = c' -> run w (S n) c = c'.
Proof. intros <- H. exact H. Qed.

Lemma pwm_run_Done w n R (r : R) m : run w n (Done r m) = Done r m.
Proof. induction n as [|n IH]; [reflexivity | exact IH]. Qed.

Lemma pwm_run_Ended w n R st m : run w n (@Ended R st m) = Ended st m.
Proof. induction n as [|n IH]; [reflexivity | exact IH]. Qed.

(** Binding a returned value is silent. *)
Lemma pwm_obs_subst_ret {R S} (k : R -> prog S) (x : R) :
  observe (ITree.subst k (Ret x)) = observe (k x).
Proof. reflexivity. Qed.

Lemma pwm_obs_bind_ret {R S} (k : R -> prog S) (x : R) :
  observe (ITree.bind (Ret x) k) = observe (k x).
Proof. reflexivity. Qed.

Lemma throughout_step w R (P : config R -> Prop) c :
  P c -> throughout w P (step w c) -> throughout w P c.
Proof. intros H0 H [|n]; [exact H0 | apply H]. Qed.

Lemma throughout_Done w R (P : config R -> Prop) r m :
  P (Done r m) -> throughout w P (Done r m).
Proof. intros H n. rewrite pwm_run_Done. exact H. Qed.

Lemma throughout_Ended w R (P : config R -> Prop) st m :
  P (Ended st m) -> throughout w P (Ended st m).
Proof. intros H n. rewrite pwm_run_Ended. exact H. Qed.

Lemma throughout_weaken w R (P Q : config R -> Prop) c :
  (forall c', P c' -> Q c') -> throughout w P c -> throughout w Q c.
Proof. intros H HP n. apply H, HP. Qed.

Lemma reaches_run w R (P target : config R -> Prop) c :
  reaches w P target c ->
  forall n, (forall c', target c' -> forall k, (k <= n)%nat -> P (run w k c')) ->
  P (run w n c).
Proof.
  induction 1 as [c Hc|c Hc _ IH]; intros n Hn.
  - apply (Hn c Hc n). lia.
  - destruct n as [|n]; [exact Hc|].
    rewrite pwm_run_S. apply IH. intros c' Hc' k Hk. apply Hn; [exact Hc'|lia].
Qed.

(** A loop: from its head, the process comes back to the head or leaves
    for good, [P] kept on the way. *)
Lemma throughout_loop w R (P : config R -> Prop) (J : machine -> Prop)
      (head : machine -> config R) :
  (forall m, J m ->
     P (head m)
     /\ reaches w P (fun c => (exists m', c = head m' /\ J m') \/ throughout w P c)
          (step w (head m))) ->
  forall m, J m -> throughout w P (head m).
Proof.
  intros H m Hm n. revert m Hm.
  induction n as [n IH] using lt_wf_ind. intros m Hm.
  destruct (H m Hm) as [H0 Hr].
  destruct n as [|n]; [exact H0|].
  rewrite pwm_run_S. apply (reaches_run _ _ _ _ _ Hr).
  intros c' [(m' & Hc & Hm')|Hc] k Hk.
  - subst c'. apply IH; [lia | exact Hm'].
  - apply Hc.
Qed.

Lemma allowed_snoc t l x :
  Forall (allowed t) l -> allowed t x -> Forall (allowed t) (l ++ [x]).
Proof.
  intros Hl Hx. apply Forall_app.
  split; [exact Hl | repeat constructor; exact Hx].
Qed.

Lemma allowed_high onTime offTime :
  0 < onTime -> allowed (Some (onTime, offTime)) (Ev (Set_value 1)).
Proof. intros H. exists onTime, offTime. auto. Qed.

Lemma allowed_low onTime offTime :
  0 < offTime -> allowed (Some (onTime, offTime)) (Ev (Set_value 0)).
Proof. intros H. exists onTime, offTime. auto. Qed.

Lemma allowed_on onTime offTime :
  0 < onTime -> allowed (Some (onTime, offTime)) (Ev (Sleep_for onTime)).
Proof. intros H. exists onTime, offTime. auto. Qed.

Lemma allowed_off onTime offTime :
  0 < offTime -> allowed (Some (onTime, offTime)) (Ev (Sleep_for offTime)).
Proof. intros H. exists onTime, offTime. auto. Qed.

(** [sym] brings the program of a configuration to its next effect. *)
Ltac sym :=
  cbn -[run step Z.gtb to_long of_long safe_brightness safe_frequency
        control PrimFloat.div PrimFloat.mul PrimFloat.sub List.length].

Ltac traced :=
  cbn [machine_of log trace read_int read_double boot inputs_read];
  repeat first
    [ assumption
    | apply allowed_snoc
    | apply allowed_high; assumption
    | apply allowed_low; assumption
    | apply allowed_on; assumption
    | apply allowed_off; assumption
    | exact I ].

Ltac inv := constructor; [ sym; exact I | traced ].

Ltac onward := apply reach_step; [ inv | cbn -[run Z.gtb List.length] ].

Ltac straight := apply throughout_step; [ inv | cbn -[run Z.gtb List.length control] ].

(** The handler of the [try] block ends the program. *)
Lemma caught_inv w t m :
  Forall (allowed t) (trace m) ->
  throughout w (Inv t) (Live (observe (caught tt)) m).
Proof.
  intros Hm. unfold caught.
  straight. straight. apply throughout_Done. inv.
Qed.

Ltac thrown := apply reach_now; right; apply caught_inv; traced.

Ltac again :=
  apply reach_now; left; eexists; split; [reflexivity | traced].

(** The answer of [set_value]: it returns, or it throws. *)
Ltac answer :=
  match goal with
  | |- context [Ret (w_set_value_ok ?w ?n)] =>
      let Ok := fresh "Ok" in
      destruct (w_set_value_ok w n) eqn:Ok; [|thrown]
  end.

Lemma looping_inv w onTime offTime m :
  Forall (allowed (Some (onTime, offTime))) (trace m) ->
  throughout w (Inv (Some (onTime, offTime))) (looping onTime offTime m).
Proof.
  revert m.
  apply (throughout_loop w Z (Inv (Some (onTime, offTime)))
           (fun m => Forall (allowed (Some (onTime, offTime))) (trace m))).
  intros m Hm. unfold looping, cycle.
  destruct (onTime >? 0) eqn:Hon; destruct (offTime >? 0) eqn:Hoff;
    try (assert (Hon' : 0 < onTime) by (apply Z.gt_lt, Z.gtb_gt, Hon));
    try (assert (Hoff' : 0 < offTime) by (apply Z.gt_lt, Z.gtb_gt, Hoff));
    (split; [inv|]); cbn -[run Z.gtb List.length].
  - answer. onward. onward. answer. onward. onward. again.
  - answer. onward. onward. again.
  - answer. onward. onward. again.
  - again.
Qed.

(** [control] with its two conversions made. *)
Lemma control_defined chipNum pinNum f b onTime offTime :
  onTimeUs f b = Some onTime -> offTimeUs f onTime = Some offTime ->
  observe (control chipNum pinNum f b)
  = observe (announced chipNum pinNum (periodUs f) onTime offTime).
Proof.
  unfold onTimeUs, offTimeUs, periodUs, control, long_of_double.
  intros Hon Hoff. rewrite Hon, pwm_obs_bind_ret, Hoff, pwm_obs_bind_ret.
  reflexivity.
Qed.

Lemma control_undefined w chipNum pinNum f b m :
  timings f b = None ->
  step w (start (control chipNum pinNum f b) m)
  = Ended Undefined_behaviour (log Undefined m).
Proof.
  unfold timings, onTimeUs, offTimeUs, periodUs, start, control, long_of_double.
  destruct (to_long _) as [onTime|] eqn:Hon.
  - destruct (to_long (_ - of_long onTime)%float) as [offTime|] eqn:Hoff;
      [discriminate|].
    intros _. rewrite pwm_obs_bind_ret, Hoff. reflexivity.
  - intros _. reflexivity.
Qed.

Lemma timings_Some f b onTime offTime :
  timings f b = Some (onTime, offTime) ->
  onTimeUs f b = Some onTime /\ offTimeUs f onTime = Some offTime.
Proof.
  unfold timings. destruct (onTimeUs f b) as [x|]; [|discriminate].
  destruct (offTimeUs f x) as [y|] eqn:E; [|discriminate].
  intros H. injection H as H1 H2. subst. auto.
Qed.

Lemma announced_inv w chipNum pinNum P onTime offTime m :
  Forall (allowed (Some (onTime, offTime))) (trace m) ->
  throughout w (Inv (Some (onTime, offTime)))
    (start (announced chipNum pinNum P onTime offTime) m).
Proof.
  intros Hm. unfold start, announced, drive.
  straight. straight. straight.
  destruct (w_chip_ok w); [|apply caught_inv; traced].
  straight.
  destruct (w_line_ok w); [|apply caught_inv; traced].
  straight.
  destruct (w_request_ok w); [|apply caught_inv; traced].
  apply looping_inv. traced.
Qed.

Lemma control_inv w chipNum pinNum f b m :
  Forall (allowed (timings f b)) (trace m) ->
  throughout w (Inv (timings f b)) (start (control chipNum pinNum f b) m).
Proof.
  intros Hm. destruct (timings f b) as [[onTime offTime]|] eqn:Ht.
  - apply timings_Some in Ht. destruct Ht as [Hon Hoff].
    unfold start. rewrite (control_defined _ _ _ _ _ _ Hon Hoff).
    apply announced_inv, Hm.
  - apply throughout_step.
    + constructor; [|exact Hm].
      pose proof (control_undefined w chipNum pinNum f b m Ht) as Hs.
      unfold start in *. destruct (observe (control chipNum pinNum f b)) as [r|t'|X e k];
        try exact I.
      destruct e; try exact I; cbn in Hs; discriminate Hs.
    + rewrite control_undefined by exact Ht.
      apply throughout_Ended. inv.
Qed.

(** The dialogue: nine steps. *)
Lemma main_reads w :
  run w 9 (start main boot)
  = start (control (w_chipNum w) (w_pinNum w) (w_frequencyHz w)
             (w_brightnessPercent w)) inputs_read.
Proof.
  unfold main, start.
  do 9 (eapply pwm_run_step; [sym; cbn [step handle]; reflexivity|]).
  reflexivity.
Qed.

Lemma step_quiet w1 w2 R (c : config R) :
  same_devices w1 w2 -> quiet c -> step w1 c = step w2 c.
Proof.
  intros (Hc & Hl & Hr & Hs) Hq.
  destruct c as [t m| |]; try reflexivity.
  destruct t as [r|t'|X e k]; try reflexivity.
  destruct e; cbn in Hq |- *; try tauto; rewrite ?Hc, ?Hl, ?Hr, ?Hs; reflexivity.
Qed.

Lemma runs_agree w1 w2 t (c : config Z) :
  same_devices w1 w2 -> throughout w1 (Inv t) c ->
  forall n, run w1 n c = run w2 n c.
Proof.
  intros Hw Hc n. induction n as [|n IH]; [reflexivity|].
  rewrite !pwm_run_last, <- IH. apply step_quiet; [exact Hw|]. apply Hc.
Qed.

Lemma control_safe chipNum pinNum f b f' b' :
  safe_frequency f = safe_frequency f' -> safe_brightness b = safe_brightness b' ->
  control chipNum pinNum f b = control chipNum pinNum f' b'.
Proof. intros Hf Hb. unfold control. rewrite Hf, Hb. reflexivity. Qed.

Lemma inputs_read_allowed t : Forall (allowed t) (trace inputs_read).
Proof. cbn [trace inputs_read]. repeat constructor. Qed.

Lemma exec_after_reads w n :
  exec w (9 + n)
  = run w n (start (control (w_chipNum w) (w_pinNum w) (w_frequencyHz w)
                      (w_brightnessPercent w)) inputs_read).
Proof. unfold exec. rewrite pwm_run_add, main_reads. reflexivity. Qed.

Lemma effects_before_control w1 w2 n :
  (n < 9)%nat -> effects w1 n = effects w2 n.
Proof.
  intros Hn. unfold effects, exec.
  do 9 (destruct n as [|n]; [reflexivity|]). lia.
Qed.

Lemma effects_agree w1 w2 n :
  same_devices w1 w2 ->
  w_chipNum w1 = w_chipNum w2 -> w_pinNum w1 = w_pinNum w2 ->
  safe_frequency (w_frequencyHz w1) = safe_frequency (w_frequencyHz w2) ->
  safe_brightness (w_brightnessPercent w1)
  = safe_brightness (w_brightnessPercent w2) ->
  effects w1 n = effects w2 n.
Proof.
  intros Hw Hc Hp Hf Hb.
  destruct (Nat.lt_ge_cases n 9) as [Hn|Hn];
    [apply effects_before_control, Hn|].
  unfold effects. replace n with (9 + (n - 9))%nat by lia.
  rewrite !exec_after_reads.
  rewrite (control_safe _ _ _ _ _ _ Hf Hb), Hc, Hp.
  erewrite runs_agree; [reflexivity | exact Hw |].
  apply control_inv, inputs_read_allowed.
Qed.

Lemma same_devices_brightness w b1 b2 :
  same_devices (set_brightness w b1) (set_brightness w b2).
Proof. repeat split. Qed.

Lemma same_devices_frequency w f1 f2 :
  same_devices (set_frequency w f1) (set_frequency w f2).
Proof. repeat split. Qed.

Lemma safe_brightness_below (b : float) :
  (b <? 0)%float = true -> safe_brightness b = 0%float.
Proof. intros H. unfold safe_brightness. rewrite H. reflexivity. Qed.

Lemma safe_brightness_above (b : float) :
  (100 <? b)%float = true -> safe_brightness b = 100%float.
Proof.
  intros H. unfold safe_brightness.
  assert (Hlt : (b <? 0)%float = false).
  { revert H. rewrite !FloatAxioms.ltb_spec, Prim2SF_zero, Prim2SF_hundred.
    destruct (Prim2SF b) as [s|[|]| |[|] m e]; cbn;
      first [reflexivity | intros H; discriminate H]. }
  rewrite Hlt, H. reflexivity.
Qed.

Lemma safe_frequency_below (f : float) :
  (f <=? 0)%float = true -> safe_frequency f = 1%float.
Proof. intros H. unfold safe_frequency. rewrite H. reflexivity. Qed.

Lemma exec_allowed w n :
  Forall (allowed (timings (w_frequencyHz w) (w_brightnessPercent w)))
    (effects w n).
Proof.
  destruct (Nat.lt_ge_cases n 9) as [Hn|Hn].
  - unfold effects, exec.
    do 9 (destruct n as [|n]; [repeat constructor|]). lia.
  - unfold effects. replace n with (9 + (n - 9))%nat by lia.
    rewrite exec_after_reads.
    apply (control_inv w _ _ _ _ inputs_read (inputs_read_allowed _)).
Qed.


End PwmFacts.

(** ** The statements about the software-PWM driver *)

Module PwmTheorems.
Import Double DoubleSpec DoubleFacts Pwm PwmSpec PwmFacts.

(** C5: a run that is given a brightness below 0 (such as -5) has the
    effects of the run given 0, step for step; one given a brightness above
    100 (such as 150) those of the run given 100; one given a frequency that
    is 0 or negative those of the run given 1.  The effects hold what is
    printed (the period and the two durations) and every call that drives
    the line. *)
Theorem clamped_inputs_run_alike (w : world) (n : nat) :
  (forall b, (b <? 0)%float = true ->
     effects (set_brightness w b) n = effects (set_brightness w 0%float) n)
  /\ (forall b, (100 <? b)%float = true ->
        effects (set_brightness w b) n = effects (set_brightness w 100%float) n)
  /\ (forall f, (f <=? 0)%float = true ->
        effects (set_frequency w f) n = effects (set_frequency w 1%float) n).
Proof.
  split; [|split].
  - intros b Hb. apply effects_agree; try reflexivity.
    + apply same_devices_brightness.
    + cbn. rewrite safe_brightness_below by exact Hb. reflexivity.
  - intros b Hb. apply effects_agree; try reflexivity.
    + apply same_devices_brightness.
    + cbn. rewrite safe_brightness_above by exact Hb. reflexivity.
  - intros f Hf. apply effects_agree; try reflexivity.
    + apply same_devices_frequency.
    + cbn. rewrite safe_frequency_below by exact Hf. reflexivity.
Qed.

(** At -5 and 0, at 150 and 100, at -3 Hz and 1 Hz. *)
Lemma clamped_inputs_run_alike_led :
  effects (set_brightness w_led (-5)%float) 40
  = effects (set_brightness w_led 0%float) 40
  /\ effects (set_brightness w_led 150%float) 40
     = effects (set_brightness w_led 100%float) 40
  /\ effects (set_frequency w_led (-3)%float) 40
     = effects (set_frequency w_led 1%float) 40.
Proof.
  destruct (clamped_inputs_run_alike w_led 40) as (H1 & H2 & H3).
  split; [apply H1; reflexivity|].
  split; [apply H2; reflexivity | apply H3; reflexivity].
Defined.

(** C8: at every moment of a run, a [set_value(1)] and the sleep of the
    on-time have happened only with an on-time above 0, a [set_value(0)] and
    the sleep of the off-time only with an off-time above 0.  So at 0 % the
    line is never set high, at 100 % never set low, and no sleep has a
    length of 0. *)
Theorem phases_skipped_when_zero (w : world) (n : nat) :
  let t := timings (w_frequencyHz w) (w_brightnessPercent w) in
  (forall v, In (Ev (Set_value v)) (effects w n) ->
     exists onTime offTime, t = Some (onTime, offTime)
       /\ ((v = 1 /\ 0 < onTime) \/ (v = 0 /\ 0 < offTime)))
  /\ (forall d, In (Ev (Sleep_for d)) (effects w n) ->
        exists onTime offTime, t = Some (onTime, offTime)
          /\ ((d = onTime /\ 0 < onTime) \/ (d = offTime /\ 0 < offTime)))
  /\ (forall s, Prim2SF (safe_brightness (w_brightnessPercent w)) = S754_zero s ->
        ~ In (Ev (Set_value 1)) (effects w n)
        /\ forall d, In (Ev (Sleep_for d)) (effects w n) -> 0 < d)
  /\ (safe_brightness (w_brightnessPercent w) = 100%float ->
        ~ In (Ev (Set_value 0)) (effects w n)
        /\ forall d, In (Ev (Sleep_for d)) (effects w n) -> 0 < d).
Proof.
  intros t. pose proof (exec_allowed w n) as H. fold t in H.
  rewrite Forall_forall in H.
  assert (Hsleep : forall d, In (Ev (Sleep_for d)) (effects w n) -> 0 < d).
  { intros d Hd. destruct (H _ Hd) as (a & b & _ & [[Hv Hp]|[Hv Hp]]); lia. }
  split; [intros v Hv; exact (H _ Hv)|].
  split; [intros d Hd; exact (H _ Hd)|].
  split.
  - intros s Hz. split; [|exact Hsleep]. intros Hin.
    destruct (H _ Hin) as (a & b & Ht & [[_ Hp]|[Hv _]]); [|discriminate Hv].
    apply timings_Some in Ht. destruct Ht as [Hon _].
    apply (onTimeUs_zero _ _ s) in Hon; [lia|exact Hz].
  - intros Hfull. split; [|exact Hsleep]. intros Hin.
    destruct (H _ Hin) as (a & b & Ht & [[Hv _]|[_ Hp]]); [discriminate Hv|].
    apply timings_Some in Ht. destruct Ht as [Hon Hoff].
    pose proof (offTimeUs_full _ _ _ _ Hfull Hon Hoff). lia.
Qed.

(** At 0 % and at 100 %, 100 Hz; at 100 % the line is set high. *)
Lemma phases_skipped_when_zero_at_0_and_100 :
  ~ In (Ev (Set_value 1)) (effects (set_brightness w_led 0%float) 40)
  /\ ~ In (Ev (Set_value 0)) (effects (set_brightness w_led 100%float) 40)
  /\ In (Ev (Set_value 1)) (effects (set_brightness w_led 100%float) 40).
Proof.
  split; [|split].
  - apply (phases_skipped_when_zero (set_brightness w_led 0%float) 40) with false.
    reflexivity.
  - apply (phases_skipped_when_zero (set_brightness w_led 100%float) 40).
    reflexivity.
  - vm_compute. tauto.
Defined.




End PwmTheorems.

(** ** The runs of the toggler *)

Module TogglerRunFacts.
Import CInt Toggler TogglerSpec ExecFacts TogglerFacts TogglerRuns.

Lemma no_access_snoc l (x : anyE) :
  Forall no_access l -> no_access x -> Forall no_access (l ++ [x]).
Proof. apply Forall_snoc. Qed.

Ltac all_of :=
  repeat first
    [ assumption
    | apply Forall_nil
    | apply Forall_cons
    | apply Forall_snoc
    | exact I ].

(** Before the window is mapped: no access yet. *)
Ltac course_early :=
  constructor;
  [ right; mach; all_of
  | mach; all_of
  | first [ left; split; assumption | right; mach; all_of ]
  | first [ exact I
          | split; [reflexivity | mach; exact I ] ] ].

Ltac course_late :=
  cbn [run]; constructor;
  [ left; intros []; mach; reflexivity
  | mach; all_of
  | left; split; assumption
  | exact I ].

Lemma iteration_handler a mask m sig :
  handler (iteration a mask m) sig = handler m sig.
Proof. unfold iteration. mach. reflexivity. Qed.

Lemma iteration_trace a mask m :
  trace (iteration a mask m)
  = trace m ++ [Ev (Store (Ptr a) GPSET0 mask); Ev (Store (Ptr a) GPCLR0 mask)].
Proof. unfold iteration. mach. rewrite <- app_assoc. reflexivity. Qed.

Lemma loop_course w argv a pin mask m :
  accepted argv -> mapped a pin m ->
  (forall sig, handler m sig = true) -> Forall no_exit (trace m) ->
  always w (Course argv) (Live (observe (loop a mask)) m).
Proof.
  intros [Hlen Hrange] Hm Hh Hx.
  apply always_cycle
    with (J := fun m => mapped a pin m /\ (forall sig, handler m sig = true)
                        /\ Forall no_exit (trace m))
         (next := iteration a mask) (p := 2%nat)
         (c := fun m => Live (observe (loop a mask)) m); [|auto].
  clear m Hm Hh Hx. intros m (Hm & Hh & Hx). split; [|split].
  - apply loop_iteration, Hm.
  - split; [apply iteration_mapped, Hm|]. split.
    + intros sig. rewrite iteration_handler. apply Hh.
    + rewrite iteration_trace. apply Forall_app. split; [exact Hx|].
      repeat constructor.
  - destruct Hm as [Hg Hw Hp Ha]. intros i Hi.
    assert (Hi' : i = 0%nat \/ i = 1%nat \/ i = 2%nat) by lia.
    destruct Hi' as [Hi'|[Hi'|Hi']]; subst i.
    + cbn [run]. constructor; [left; exact Hh | exact Hx | left; split; assumption | exact I].
    + unfold loop. go. win. adv.
      constructor; [left; intros sig; mach; apply Hh | mach; all_of
                   | left; split; assumption | exact I].
    + unfold loop. go. win. adv. go. win. adv.
      constructor; [left; intros sig; mach; apply Hh | mach; all_of
                   | left; split; assumption | exact I].
Qed.

Ltac course_mid :=
  cbn [run]; constructor;
  [ right; mach; all_of
  | mach; all_of
  | left; split; assumption
  | exact I ].

Lemma main_mapped_course w argv a pin m :
  accepted argv -> pin = Libc.atoi (nth 1 argv ""%string) ->
  mapped a pin m -> Forall no_access (trace m) -> Forall no_exit (trace m) ->
  always w (Course argv) (Live (observe main_mapped) m).
Proof.
  intros Hacc Hpin [Hg Hw Hp Ha] Hna Hx. unfold main_mapped.
  destruct Hacc as [Hlen Hrange]. rewrite <- Hpin in Hrange.
  pose proof (pin_div_bounds pin Hrange) as Hb.
  destruct (pin_arith pin Hrange) as (Hd10 & Hr10 & Hd32 & Hland & Hmask).
  rewrite Hpin in Hrange.
  nxt course_mid. nxt course_mid. nxt course_late. nxt course_late.
  rewrite Hg. adv. rewrite Hp.
  nxt course_late.
  unfold fsel_index, fsel_shift. rewrite Hd10, Hr10, Z.add_0_l. win. adv.
  nxt course_late. win. adv.
  nxt course_late.
  mach. rewrite Hg. adv. rewrite Hd32, Hmask.
  nxt course_late. win. adv.
  nxt course_late. mach. rewrite Hg. adv.
  nxt course_late. mach. rewrite Hg. adv.
  nxt course_late. mach. rewrite Hp. adv.
  apply (loop_course w argv a pin (shl32 1 (Z.land pin 31))).
  - split; assumption.
  - constructor; mach; acc.
  - intros []; mach; reflexivity.
  - mach. all_of.
Qed.

Lemma exec_course w argv : always w (Course argv) (start (main argv) (boot w)).
Proof.
  unfold start, main.
  destruct (Z.of_nat (List.length argv) =? 2) eqn:Hargc; cbn [negb].
  2:{ nxt course_early. nxt course_early. apply always_Done. course_early. }
  nxt course_early. nxt course_early.
  destruct ((Libc.atoi (nth 1 argv ""%string) <? 0)
            || (Libc.atoi (nth 1 argv ""%string) >? 53)) eqn:Hpin.
  { nxt course_early. nxt course_early. apply always_Done. course_early. }
  assert (Hrange : 0 <= Libc.atoi (nth 1 argv ""%string) <= 53).
  { apply orb_false_elim in Hpin. destruct Hpin as [H1 H2].
    apply Z.ltb_ge in H1. rewrite Z.gtb_ltb in H2. apply Z.ltb_ge in H2. lia. }
  assert (Hlen : List.length argv = 2%nat) by (apply Z.eqb_eq in Hargc; lia).
  nxt course_early.
  destruct (w_peri_base w) as [e|]; [nxt course_early|].
  all: adv.
  all: nxt course_early.
  all: destruct (w_open w <? 0) eqn:Hfd.
  all: try solve [nxt course_early; nxt course_early; nxt course_early;
                  apply always_Done; course_early].
  all: nxt course_early.
  all: destruct (w_mmap w) as [|a] eqn:Hmm; adv.
  all: try solve [nxt course_early; nxt course_early; nxt course_early;
                  nxt course_early; apply always_Done; course_early].
  all: nxt course_early.
  all: nxt course_early.
  all: apply (main_mapped_course w argv a (Libc.atoi (nth 1 argv ""%string)));
    [split; assumption | reflexivity | constructor; mach; acc; reflexivity
    | mach; all_of | mach; all_of].
Qed.

Lemma accepted_tests argv :
  accepted argv ->
  (Z.of_nat (List.length argv) =? 2) = true
  /\ (Libc.atoi (nth 1 argv ""%string) <? 0)
     || (Libc.atoi (nth 1 argv ""%string) >? 53) = false.
Proof.
  intros [Hlen Hrange]. rewrite Hlen. split; [reflexivity|].
  apply orb_false_intro; [apply Z.ltb_ge | rewrite Z.gtb_ltb; apply Z.ltb_ge];
    lia.
Qed.

(** Symbolic execution of the first steps of [main]. *)
Ltac first_steps Hargc Hpin Henv Hfd Hmm :=
  repeat (eapply run_step;
    [ tree; mach; rewrite ?Hargc, ?Hpin, ?Henv, ?Hfd, ?Hmm;
      tree; fire; mach; rewrite ?Hargc, ?Hpin, ?Henv, ?Hfd, ?Hmm;
      tree; reflexivity | ]).

Lemma opening_run w argv :
  accepted argv ->
  trace (machine_of (exec w argv (opening_steps w))) = opening w.
Proof.
  intros Hacc. destruct (accepted_tests argv Hacc) as [Hargc Hpin].
  unfold exec, start, main, opening, opening_steps.
  rewrite Hargc. cbn [negb].
  destruct (w_peri_base w) as [e|] eqn:Henv.
  - erewrite (run_step w 4); [| tree; fire; reflexivity |].
    2:{ first_steps Hargc Hpin Henv Henv Henv. cbn [run]. reflexivity. }
    mach. reflexivity.
  - erewrite (run_step w 3); [| tree; fire; reflexivity |].
    2:{ first_steps Hargc Hpin Henv Henv Henv. cbn [run]. reflexivity. }
    mach. reflexivity.
Qed.

Lemma live_before w a b R (c : config R) :
  live (run w (a + b) c) -> live (run w a c).
Proof.
  rewrite run_add. destruct (run w a c) as [t m|r m|st m].
  - intros _. exact I.
  - rewrite run_Done. trivial.
  - rewrite run_Ended. trivial.
Qed.

(** *** Levels under the writes of one bit *)

Lemma hits_mask bank pin q :
  0 <= pin <= 53 -> 0 <= q <= 53 ->
  hits bank (bank + pin / 32) (2 ^ (pin mod 32)) q = (q =? pin).
Proof.
  intros Hp Hq. pose proof (pin_div_bounds pin Hp). pose proof (pin_div_bounds q Hq).
  unfold hits. replace (0 <=? q) with true by (symmetry; apply Z.leb_le; lia).
  rewrite Z.pow2_bits_eqb by lia. cbn [andb].
  pose proof (Z.div_mod pin 32 ltac:(lia)). pose proof (Z.div_mod q 32 ltac:(lia)).
  destruct (Z.eqb_spec q pin) as [E|E].
  - subst q. rewrite !Z.eqb_refl. reflexivity.
  - destruct (Z.eqb_spec (bank + pin / 32) (bank + q / 32)); [|reflexivity].
    destruct (Z.eqb_spec (pin mod 32) (q mod 32)); [|reflexivity].
    exfalso. apply E. lia.
Qed.

Lemma level_set_store pin q m :
  0 <= pin <= 53 -> 0 <= q <= 53 ->
  level (hw_store (GPSET0 + pin / 32) (2 ^ (pin mod 32)) m) q
  = if q =? pin then true else level m q.
Proof.
  intros Hp Hq. rewrite level_bank_store by (apply bank_offset; auto).
  rewrite hits_mask by trivial.
  destruct (q =? pin); [reflexivity|].
  rewrite hits_other_bank; trivial;
    pose proof (pin_div_bounds pin Hp); unfold GPSET0, GPCLR0; lia.
Qed.

Lemma level_clear_store pin q m :
  0 <= pin <= 53 -> 0 <= q <= 53 ->
  level (hw_store (GPCLR0 + pin / 32) (2 ^ (pin mod 32)) m) q
  = if q =? pin then false else level m q.
Proof.
  intros Hp Hq. rewrite level_bank_store by (apply bank_offset; auto).
  rewrite (hits_other_bank GPSET0); trivial;
    try (pose proof (pin_div_bounds pin Hp); unfold GPSET0, GPCLR0; lia).
  rewrite hits_mask by trivial. reflexivity.
Qed.

(** The pin that the loop drives: the bit of the mask, in the first bank. *)
Lemma low_pin pin :
  0 <= pin <= 53 ->
  0 <= pin mod 32 <= 53 /\ (pin mod 32) / 32 = 0
  /\ (pin mod 32) mod 32 = pin mod 32.
Proof.
  intros Hp. pose proof (pin_div_bounds pin Hp).
  split; [lia|]. split; [apply Z.div_small; lia | apply Z.mod_small; lia].
Qed.

Lemma level_loop_set pin q m :
  0 <= pin <= 53 -> 0 <= q <= 53 ->
  level (hw_store GPSET0 (2 ^ (pin mod 32)) m) q
  = if q =? pin mod 32 then true else level m q.
Proof.
  intros Hp Hq. destruct (low_pin pin Hp) as (Hr & Hd & Hm).
  pose proof (level_set_store (pin mod 32) q m Hr Hq) as H.
  rewrite Hd, Hm, Z.add_0_r in H. exact H.
Qed.

Lemma level_loop_clear pin q m :
  0 <= pin <= 53 -> 0 <= q <= 53 ->
  level (hw_store GPCLR0 (2 ^ (pin mod 32)) m) q
  = if q =? pin mod 32 then false else level m q.
Proof.
  intros Hp Hq. destruct (low_pin pin Hp) as (Hr & Hd & Hm).
  pose proof (level_clear_store (pin mod 32) q m Hr Hq) as H.
  rewrite Hd, Hm, Z.add_0_r in H. exact H.
Qed.

Lemma level_iteration_any a pin q m :
  0 <= pin <= 53 -> 0 <= q <= 53 ->
  level (iteration a (2 ^ (pin mod 32)) m) q
  = if q =? pin mod 32 then false else level m q.
Proof.
  intros Hp Hq. unfold iteration.
  rewrite level_loop_clear by trivial.
  destruct (q =? pin mod 32) eqn:E; [reflexivity|].
  cbn [level log]. rewrite level_loop_set by trivial. rewrite E. reflexivity.
Qed.

Lemma level_iterations a pin q m k :
  0 <= pin <= 53 -> 0 <= q <= 53 -> q <> pin mod 32 ->
  level (Nat.iter k (iteration a (2 ^ (pin mod 32))) m) q = level m q.
Proof.
  intros Hp Hq Hne. induction k as [|k IH]; [reflexivity|].
  rewrite Nat.iter_succ, level_iteration_any by trivial.
  replace (q =? pin mod 32) with false by (symmetry; apply Z.eqb_neq; exact Hne).
  exact IH.
Qed.

Lemma iterations_mapped a pin mask m k :
  mapped a pin m -> mapped a pin (Nat.iter k (iteration a mask) m).
Proof.
  intros Hm. induction k as [|k IH]; [exact Hm|].
  rewrite Nat.iter_succ. apply iteration_mapped, IH.
Qed.

Lemma iterations_handler a mask m k sig :
  handler (Nat.iter k (iteration a mask) m) sig = handler m sig.
Proof.
  induction k as [|k IH]; [reflexivity|].
  rewrite Nat.iter_succ, iteration_handler. exact IH.
Qed.

(** The process at the head of the loop, turn after turn. *)
Lemma exec_iterations w argv a pin :
  List.length argv = 2%nat -> Libc.atoi (nth 1 argv ""%string) = pin ->
  0 <= pin <= 53 -> 0 <= w_open w -> w_mmap w = Mapped a ->
  exists m,
    mapped a pin m
    /\ (forall sig, handler m sig = true)
    /\ trace m = startup_trace w a pin
    /\ level m pin = false
    /\ forall k,
         exec w argv (startup_steps w + 3 * k)
         = Live (observe (loop a (2 ^ (pin mod 32))))
             (Nat.iter k (iteration a (2 ^ (pin mod 32))) m).
Proof.
  intros Hlen Hatoi Hp Hfd Hmm.
  destruct (startup w argv a pin Hlen Hatoi Hp Hfd Hmm)
    as (m & He & Hm & Hh & Ht & Hl).
  exists m. repeat (split; [assumption|]).
  induction k as [|k IH].
  - rewrite Nat.add_0_r. exact He.
  - replace (startup_steps w + 3 * S k)%nat
      with ((startup_steps w + 3 * k) + 3)%nat by lia.
    unfold exec in *. rewrite run_add, IH, Nat.iter_succ.
    apply loop_iteration. apply (iterations_mapped a pin), Hm.
Qed.

Lemma loop_clear_step w a mask m :
  window m = Some a ->
  machine_of (run w 2 (Live (observe (loop a mask)) m)) = iteration a mask m.
Proof.
  intros Hw. unfold loop. go. win. adv. go. win. adv. reflexivity.
Qed.

Lemma accepted_pin17 : accepted pin17.
Proof. split; [reflexivity|]. vm_compute. split; discriminate. Qed.

Lemma accepted_pin40 : accepted pin40.
Proof. split; [reflexivity|]. vm_compute. split; discriminate. Qed.

Lemma fits_default w : w_peri_base w = None -> fits w.
Proof.
  intros H. unfold fits, peri_base, GPIO_OFFSET. rewrite H.
  split; [discriminate | reflexivity].
Qed.

(** Under [fits] the offset handed to [mmap] is the plain sum. *)
Lemma gpio_base_fits w : fits w -> gpio_base w = peri_base w + GPIO_OFFSET.
Proof.
  intros [H0 H1]. apply gpio_base_sum; [exact H0|].
  eapply Z.lt_trans; [exact H1 | reflexivity].
Qed.

Lemma exec_in_loop w argv a pin m k r :
  (forall k,
     exec w argv (startup_steps w + 3 * k)
     = Live (observe (loop a (2 ^ (pin mod 32))))
         (Nat.iter k (iteration a (2 ^ (pin mod 32))) m)) ->
  exec w argv (startup_steps w + 3 * k + r)
  = run w r (Live (observe (loop a (2 ^ (pin mod 32))))
               (Nat.iter k (iteration a (2 ^ (pin mod 32))) m)).
Proof. intros H. unfold exec in *. rewrite run_add, H. reflexivity. Qed.

End TogglerRunFacts.

(** ** The behaviour of the toggler's functions *)

Module TogglerBehaviour.
Import CInt Toggler TogglerSpec ExecFacts TogglerFacts TogglerRuns TogglerRunFacts.

(** X1: on an accepted command line, when [open] fails, [mapGpio] reports
    it with [perror] and [main] with its own message, and [main] returns 1;
    [mmap] and [sigaction] are never called, [gpio] stays null and no
    handler is installed. *)
Theorem open_failure_is_reported w argv :
  accepted argv -> w_open w < 0 ->
  exists m,
    exec w argv (opening_steps w + 3) = Done 1 m
    /\ trace m
       = opening w
         ++ [Ev (Perror "open(/dev/mem)"); Ev (Fprintf_stderr MsgMapFailed)]
    /\ var_gpio m = NULL /\ window m = None
    /\ forall sig, handler m sig = false.
Proof.
  intros Hacc Hopen. destruct (accepted_tests argv Hacc) as [Hargc Hpin].
  assert (Hfd : (w_open w <? 0) = true) by (apply Z.ltb_lt; lia).
  unfold exec, start, main, opening, opening_steps.
  rewrite Hargc. cbn [negb].
  destruct (w_peri_base w) as [e|] eqn:Henv.
  all: eexists; split.
  1,3: cbn [Nat.add]; first_steps Hargc Hpin Henv Hfd Hfd.
  1,2: cbn [run]; reflexivity.
  all: mach; repeat split; reflexivity.
Qed.

(** With pin 17, [open] returning -1. *)
Lemma open_failure_is_reported_pin17 :
  exists m,
    exec w_no_mem pin17 (opening_steps w_no_mem + 3) = Done 1 m
    /\ trace m
       = opening w_no_mem
         ++ [Ev (Perror "open(/dev/mem)"); Ev (Fprintf_stderr MsgMapFailed)]
    /\ var_gpio m = NULL /\ window m = None
    /\ forall sig, handler m sig = false.
Proof.
  apply (open_failure_is_reported w_no_mem pin17).
  - exact accepted_pin17.
  - reflexivity.
Defined.

(** X2: when [mmap] fails, the descriptor that [open] returned is closed
    before the failure is reported, [main] returns 1 after the two messages,
    [gpio] stays null and no handler is installed. *)
Theorem mmap_failure_closes_descriptor w argv :
  accepted argv -> fits w -> 0 <= w_open w -> w_mmap w = MAP_FAILED ->
  exists m,
    exec w argv (opening_steps w + 5) = Done 1 m
    /\ trace m
       = opening w
         ++ [Ev (Mmap GPIO_LEN (w_open w) (peri_base w + GPIO_OFFSET));
             Ev (Close (w_open w));
             Ev (Perror "mmap"); Ev (Fprintf_stderr MsgMapFailed)]
    /\ var_gpio m = NULL /\ window m = None
    /\ forall sig, handler m sig = false.
Proof.
  intros Hacc Hfits Hopen Hmm.
  destruct (accepted_tests argv Hacc) as [Hargc Hpin].
  assert (Hfd : (w_open w <? 0) = false) by (apply Z.ltb_ge; lia).
  rewrite <- (gpio_base_fits w Hfits).
  unfold exec, start, main, opening, opening_steps, gpio_base, peri_base.
  rewrite Hargc. cbn [negb].
  destruct (w_peri_base w) as [e|] eqn:Henv.
  all: eexists; split.
  1,3: cbn [Nat.add]; first_steps Hargc Hpin Henv Hfd Hmm.
  1,2: cbn [run]; reflexivity.
  all: mach; repeat split; reflexivity.
Qed.

(** With pin 17 and the default base, descriptor 3. *)
Lemma mmap_failure_closes_descriptor_pin17 :
  exists m,
    exec w_no_map pin17 (opening_steps w_no_map + 5) = Done 1 m
    /\ trace m
       = opening w_no_map
         ++ [Ev (Mmap GPIO_LEN 3 0x3F200000); Ev (Close 3);
             Ev (Perror "mmap"); Ev (Fprintf_stderr MsgMapFailed)]
    /\ var_gpio m = NULL /\ window m = None
    /\ forall sig, handler m sig = false.
Proof.
  apply (mmap_failure_closes_descriptor w_no_map pin17).
  - exact accepted_pin17.
  - apply fits_default. reflexivity.
  - discriminate.
  - reflexivity.
Defined.

(** X3: when nothing fails, [main] reaches its loop after these calls, in
    this order: [getenv], [strtoul] if the variable is set, [open], [mmap]
    of [GPIO_LEN] bytes at the offset that [mapGpio] computes ([gpio_base]:
    the base plus [GPIO_OFFSET] in [unsigned long], converted to [off_t]),
    [close], the two [sigaction], then the load and the store of the
    function-select register and the store that lowers the pin.  Both
    handlers are then installed and the pin is low.  This holds whatever
    base [PERI_BASE] gives. *)
Theorem startup_sequence w argv a :
  accepted argv -> 0 <= w_open w -> w_mmap w = Mapped a ->
  let pin := Libc.atoi (nth 1 argv ""%string) in
  exists m,
    exec w argv (startup_steps w)
    = Live (observe (loop a (2 ^ (pin mod 32)))) m
    /\ trace m = startup_trace w a pin
    /\ var_gpio m = Ptr a /\ window m = Some a /\ var_targetPin m = pin
    /\ (forall sig, handler m sig = true)
    /\ level m pin = false.
Proof.
  intros [Hlen Hrange] Hfd Hmm pin.
  destruct (startup w argv a pin Hlen eq_refl Hrange Hfd Hmm)
    as (m & He & [Hg Hw Hp _] & Hh & Ht & Hl).
  exists m. repeat split; assumption.
Qed.

(** With pin 17 and [PERI_BASE=0xFE000000], the override for the Pi 4 that
    the source names: the window is mapped at offset 0xFE200000. *)
Lemma startup_sequence_pi4 :
  exists m,
    exec w_pi4 pin17 19 = Live (observe (loop 0x76f00000 (2 ^ 17))) m
    /\ trace m
       = [Ev (Getenv "PERI_BASE"); Ev (Strtoul "0xFE000000");
          Ev (Open "/dev/mem");
          Ev (Mmap 0xB4 3 0xFE200000); Ev (Close 3);
          Ev (Sigaction SIGINT); Ev (Sigaction SIGTERM);
          Ev (Load (Ptr 0x76f00000) 1);
          Ev (Store (Ptr 0x76f00000) 1 0x200000);
          Ev (Store (Ptr 0x76f00000) 10 0x20000)]
    /\ var_gpio m = Ptr 0x76f00000 /\ window m = Some 0x76f00000
    /\ var_targetPin m = 17
    /\ (forall sig, handler m sig = true)
    /\ level m 17 = false.
Proof.
  apply (startup_sequence w_pi4 pin17 0x76f00000).
  - exact accepted_pin17.
  - discriminate.
  - reflexivity.
Defined.

(** X4: in every run of [main], a register is read or written only once
    the handler is installed for both signals. *)
Theorem registers_accessed_only_under_handlers w argv n ev :
  In ev (trace (machine_of (exec w argv n))) -> ~ no_access ev ->
  forall sig, handler (machine_of (exec w argv n)) sig = true.
Proof.
  intros Hin Hacc.
  destruct (course_order _ _ (exec_course w argv n)) as [H|H]; [exact H|].
  exfalso. apply Hacc. rewrite Forall_forall in H. apply H, Hin.
Qed.

(** At the load of the function-select register of pin 17. *)
Lemma registers_accessed_only_under_handlers_pin17 :
  handler (machine_of (exec w_pi pin17 16)) SIGINT = true
  /\ handler (machine_of (exec w_pi pin17 16)) SIGTERM = true.
Proof.
  split;
    apply (registers_accessed_only_under_handlers w_pi pin17 16
             (Ev (Load (Ptr 0x76f00000) 1)));
    first [ intros H; exact H
          | vm_compute; do 6 right; left; reflexivity ].
Defined.

(** X5: left alone, [main] never calls [exit], [_exit] or [munmap], so
    that [cleanupAndExit] is never reached; it never ends but by returning,
    which it does only with 1 and right after a message on standard
    error. *)
Theorem main_returns_only_after_failure w argv n :
  Forall no_exit (trace (machine_of (exec w argv n)))
  /\ match exec w argv n with
     | Live _ _ => True
     | Done r m => r = 1 /\ reported (trace m)
     | Ended _ _ => False
     end.
Proof.
  pose proof (exec_course w argv n) as [_ Hx _ He]. split; assumption.
Qed.

(** X6: [main] opens the memory device exactly when it is given one
    argument that [atoi] reads as a number from 0 to 53. *)
Theorem device_opened_iff_accepted w argv :
  (exists n, In (Ev (Open "/dev/mem")) (trace (machine_of (exec w argv n))))
  <-> accepted argv.
Proof.
  split.
  - intros [n Hin].
    destruct (course_accepted _ _ (exec_course w argv n)) as [H|H]; [exact H|].
    exfalso. rewrite Forall_forall in H. exact (H _ Hin).
  - intros Hacc. exists (opening_steps w). rewrite opening_run by exact Hacc.
    unfold opening. apply in_or_app. right. apply in_or_app. right.
    left. reflexivity.
Qed.

(** X7: once the window is mapped, [main] never returns and never ends
    by itself: the process is live after every number of steps. *)
Theorem toggle_loop_runs_forever w argv a :
  accepted argv -> 0 <= w_open w -> w_mmap w = Mapped a ->
  forall n, live (exec w argv n).
Proof.
  intros [Hlen Hrange] Hfd Hmm n.
  destruct (exec_loop w argv a _ n Hlen eq_refl Hrange Hfd Hmm) as (m & He & _).
  apply (live_before w n (startup_steps w + 3 * n - n)).
  replace (n + (startup_steps w + 3 * n - n))%nat
    with (startup_steps w + 3 * n)%nat by lia.
  unfold exec in He. rewrite He. exact I.
Qed.

(** With pin 17, after 1000 steps. *)
Lemma toggle_loop_runs_forever_pin17 : live (exec w_pi pin17 1000).
Proof.
  apply (toggle_loop_runs_forever w_pi pin17 0x76f00000).
  - exact accepted_pin17.
  - discriminate.
  - reflexivity.
Defined.

(** X8: in the loop of [main] the pin numbered p mod 32, which is the
    target pin when it is below 32, is high after the first store of every
    turn and low after the second, and every other pin keeps the level it
    had when the loop was entered. *)
Theorem loop_drives_one_pin w argv a :
  accepted argv -> 0 <= w_open w -> w_mmap w = Mapped a ->
  let pin := Libc.atoi (nth 1 argv ""%string) in
  let s := startup_steps w in
  (forall k,
     level (machine_of (exec w argv (s + 3 * k + 1))) (pin mod 32) = true
     /\ level (machine_of (exec w argv (s + 3 * k + 2))) (pin mod 32) = false)
  /\ forall q j,
       0 <= q <= 53 -> q <> pin mod 32 ->
       level (machine_of (exec w argv (s + j))) q
       = level (machine_of (exec w argv s)) q.
Proof.
  intros [Hlen Hrange] Hfd Hmm pin s. subst s.
  destruct (exec_iterations w argv a pin Hlen eq_refl Hrange Hfd Hmm)
    as (m & Hm & Hh & Ht & Hl & He).
  destruct (low_pin pin Hrange) as (Hlow & _ & _).
  assert (Hw : forall k,
    window (Nat.iter k (iteration a (2 ^ (pin mod 32))) m) = Some a).
  { intros k. apply (iterations_mapped a pin _ m k Hm). }
  split.
  - intros k. split.
    + rewrite (exec_in_loop w argv a pin m k 1 He), loop_set_step by apply Hw.
      rewrite level_loop_set by trivial. rewrite Z.eqb_refl. reflexivity.
    + rewrite (exec_in_loop w argv a pin m k 2 He), loop_clear_step by apply Hw.
      rewrite level_iteration_any by trivial. rewrite Z.eqb_refl. reflexivity.
  - intros q j Hq Hne.
    assert (Hs : exec w argv (startup_steps w) = Live (observe (loop a (2 ^ (pin mod 32)))) m).
    { specialize (He 0%nat). rewrite Nat.add_0_r in He. exact He. }
    rewrite Hs. cbn [machine_of].
    assert (Hneb : (q =? pin mod 32) = false) by (apply Z.eqb_neq; exact Hne).
    pose proof (Nat.div_mod_eq j 3) as Hj.
    assert (Hr : (j mod 3 < 3)%nat) by (apply Nat.mod_upper_bound; lia).
    replace (startup_steps w + j)%nat
      with (startup_steps w + 3 * (j / 3) + j mod 3)%nat by lia.
    rewrite (exec_in_loop w argv a pin m (j / 3) (j mod 3) He).
    destruct (j mod 3)%nat as [|[|[|r]]]; try lia.
    + cbn [run machine_of]. apply level_iterations; trivial.
    + rewrite loop_set_step by apply Hw.
      rewrite level_loop_set by trivial. rewrite Hneb.
      cbn [level log]. apply level_iterations; trivial.
    + rewrite loop_clear_step by apply Hw.
      rewrite level_iteration_any by trivial. rewrite Hneb.
      apply level_iterations; trivial.
Qed.

(** With pin 17. *)
Lemma loop_drives_one_pin_17 :
  (forall k,
     level (machine_of (exec w_pi pin17 (18 + 3 * k + 1))) 17 = true
     /\ level (machine_of (exec w_pi pin17 (18 + 3 * k + 2))) 17 = false)
  /\ forall q j,
       0 <= q <= 53 -> q <> 17 ->
       level (machine_of (exec w_pi pin17 (18 + j))) q
       = level (machine_of (exec w_pi pin17 18)) q.
Proof.
  apply (loop_drives_one_pin w_pi pin17 0x76f00000).
  - exact accepted_pin17.
  - discriminate.
  - reflexivity.
Defined.

(** X9: on a mapped window and for a pin from 0 to 53, [setPinHigh] does
    one store, of the bit p mod 32 to the set register of the bank p / 32,
    and [setPinLow] one store of that bit to the clear register of the bank;
    the pin is then high, respectively low, every other pin keeps its level
    and no register changes its content. *)
Theorem set_pin_drives_only_its_pin w pin a m :
  var_gpio m = Ptr a -> window m = Some a -> 0 <= pin <= 53 ->
  exists mh ml,
    run w 3 (start (setPinHigh pin) m) = Done tt mh
    /\ run w 3 (start (setPinLow pin) m) = Done tt ml
    /\ trace mh
       = trace m ++ [Ev (Store (Ptr a) (GPSET0 + pin / 32) (2 ^ (pin mod 32)))]
    /\ trace ml
       = trace m ++ [Ev (Store (Ptr a) (GPCLR0 + pin / 32) (2 ^ (pin mod 32)))]
    /\ level mh pin = true /\ level ml pin = false
    /\ (forall q, 0 <= q <= 53 -> q <> pin ->
          level mh q = level m q /\ level ml q = level m q)
    /\ (forall o, regs mh o = regs m o /\ regs ml o = regs m o).
Proof.
  intros Hg Hw Hp.
  eexists. eexists.
  split; [apply setPinHigh_run; eassumption|].
  split; [apply setPinLow_run; eassumption|].
  split; [mach; reflexivity|]. split; [mach; reflexivity|].
  split; [rewrite level_set_store, Z.eqb_refl by trivial; reflexivity|].
  split; [rewrite level_clear_store, Z.eqb_refl by trivial; reflexivity|].
  split.
  - intros q Hq Hne.
    rewrite level_set_store, level_clear_store by trivial.
    replace (q =? pin) with false by (symmetry; apply Z.eqb_neq; exact Hne).
    split; reflexivity.
  - intros o. rewrite !regs_bank_store by (apply bank_offset; auto).
    split; reflexivity.
Qed.

(** With pin 40: bit 8 of the second bank. *)
Lemma set_pin_drives_only_its_pin_40 :
  exists mh ml,
    run w_pi 3 (start (setPinHigh 40) m_mapped) = Done tt mh
    /\ run w_pi 3 (start (setPinLow 40) m_mapped) = Done tt ml
    /\ trace mh = [Ev (Store (Ptr 0x76f00000) 8 256)]
    /\ trace ml = [Ev (Store (Ptr 0x76f00000) 11 256)]
    /\ level mh 40 = true /\ level ml 40 = false
    /\ (forall q, 0 <= q <= 53 -> q <> 40 ->
          level mh q = level m_mapped q /\ level ml q = level m_mapped q)
    /\ (forall o, regs mh o = regs m_mapped o /\ regs ml o = regs m_mapped o).
Proof.
  apply (set_pin_drives_only_its_pin w_pi 40 0x76f00000 m_mapped).
  - reflexivity.
  - reflexivity.
  - split; discriminate.
Defined.

(** X10: on a mapped window [unmapGpio] calls [munmap] on [gpio] with
    [GPIO_LEN] and sets [gpio] to null; called again it does nothing. *)
Theorem unmapGpio_releases_once w a m :
  var_gpio m = Ptr a -> window m = Some a ->
  exists m',
    run w 4 (start unmapGpio m) = Done tt m'
    /\ trace m' = trace m ++ [Ev (Munmap (Ptr a) GPIO_LEN)]
    /\ var_gpio m' = NULL /\ window m' = None
    /\ run w 2 (start unmapGpio m') = Done tt m'.
Proof.
  intros Hg Hw. eexists. split.
  - unfold start, unmapGpio.
    go. rewrite Hg. adv. go. mach. rewrite Hw, Z.eqb_refl. adv.
    go. go. reflexivity.
  - mach. repeat split.
Qed.

(** On the window at 0x76f00000. *)
Lemma unmapGpio_releases_once_mapped :
  exists m',
    run w_pi 4 (start unmapGpio m_mapped) = Done tt m'
    /\ trace m' = [Ev (Munmap (Ptr 0x76f00000) GPIO_LEN)]
    /\ var_gpio m' = NULL /\ window m' = None
    /\ run w_pi 2 (start unmapGpio m') = Done tt m'.
Proof.
  apply (unmapGpio_releases_once w_pi 0x76f00000 m_mapped); reflexivity.
Defined.

(** X11: [cleanupAndExit] with a null [gpio] only calls [exit] with the
    code; with a mapped window it first lowers the target pin and unmaps the
    window. *)
Theorem cleanupAndExit_lowers_then_exits w code m :
  (var_gpio m = NULL ->
   run w 2 (start (cleanupAndExit code) m)
   = Ended (Exited code) (log (Exit_ code) m))
  /\ (forall a,
        var_gpio m = Ptr a -> window m = Some a ->
        0 <= var_targetPin m <= 53 ->
        exists m',
          run w 8 (start (cleanupAndExit code) m) = Ended (Exited code) m'
          /\ trace m'
             = trace m
               ++ [Ev (Store (Ptr a) (GPCLR0 + var_targetPin m / 32)
                         (2 ^ (var_targetPin m mod 32)));
                   Ev (Munmap (Ptr a) GPIO_LEN); Ev (Exit_ code)]
          /\ level m' (var_targetPin m) = false
          /\ window m' = None).
Proof.
  split.
  - intros Hg. unfold start, cleanupAndExit.
    go. rewrite Hg. adv. go. reflexivity.
  - intros a Hg Hw Hp.
    destruct (pin_arith _ Hp) as (_ & _ & Hd & _ & Hm).
    eexists. split.
    + unfold start, cleanupAndExit, setPinLow, unmapGpio.
      go. rewrite Hg. adv. go. adv. go. rewrite Hg. adv.
      go. rewrite Hd, Hm. win. adv.
      go. mach. rewrite Hg. adv. go. mach. rewrite Hw, Z.eqb_refl. adv.
      go. go. reflexivity.
    + split; [mach; rewrite <- !app_assoc; reflexivity|].
      split; [|mach; reflexivity].
      cbn [level log set_gpio set_window]. apply level_after_clear; trivial.
Qed.

(** With pin 40 and code 0. *)
Lemma cleanupAndExit_lowers_then_exits_mapped :
  exists m',
    run w_pi 8 (start (cleanupAndExit 0) m_mapped) = Ended (Exited 0) m'
    /\ trace m'
       = [Ev (Store (Ptr 0x76f00000) 11 256);
          Ev (Munmap (Ptr 0x76f00000) GPIO_LEN); Ev (Exit_ 0)]
    /\ level m' 40 = false
    /\ window m' = None.
Proof.
  apply (cleanupAndExit_lowers_then_exits w_pi 0 m_mapped).
  - reflexivity.
  - reflexivity.
  - split; discriminate.
Defined.

(** X12: for a target pin from 32 to 53, a signal that arrives after the
    first store of a turn of the loop ends the process with the pin p - 32,
    which the loop drives, left high: the handler lowers pin p. *)
Theorem signal_leaves_driven_pin_high w argv a sig k :
  accepted argv -> 32 <= Libc.atoi (nth 1 argv ""%string) ->
  0 <= w_open w -> w_mmap w = Mapped a ->
  let pin := Libc.atoi (nth 1 argv ""%string) in
  exists m',
    interrupted w argv (startup_steps w + 3 * k + 1) sig = Ended (Exited 0) m'
    /\ level m' pin = false
    /\ level m' (pin - 32) = true.
Proof.
  intros [Hlen Hrange] H32 Hfd Hmm pin.
  destruct (exec_iterations w argv a pin Hlen eq_refl Hrange Hfd Hmm)
    as (m & Hm & Hh & Ht & Hl & He).
  set (n := (startup_steps w + 3 * k + 1)%nat).
  set (mk := Nat.iter k (iteration a (2 ^ (pin mod 32))) m).
  assert (Hmk : mapped a pin mk) by (apply iterations_mapped, Hm).
  assert (Hlive : live (exec w argv n)).
  { apply (live_before w n 2).
    replace (n + 2)%nat with (startup_steps w + 3 * S k)%nat by (unfold n; lia).
    unfold exec in He. rewrite He. exact I. }
  assert (Hmach : machine_of (exec w argv n)
                  = hw_store GPSET0 (2 ^ (pin mod 32))
                      (log (Store (Ptr a) GPSET0 (2 ^ (pin mod 32))) mk)).
  { unfold n. rewrite (exec_in_loop w argv a pin m k 1 He).
    apply loop_set_step, Hmk. }
  assert (Hhd : handler (machine_of (exec w argv n)) sig = true).
  { rewrite Hmach. mach. unfold mk. rewrite iterations_handler. apply Hh. }
  destruct (interrupted_handled w argv n sig Hlive Hhd)
    as (a' & _ & _ & _ & Hpin & Hr & Hi).
  fold pin in Hpin. rewrite Hpin in Hi, Hr.
  eexists. split; [exact Hi|].
  assert (Hmod : pin mod 32 = pin - 32).
  { symmetry. apply (Z.mod_unique pin 32 1); lia. }
  split.
  - apply handled_facts, Hrange.
  - unfold handled. cbn [level log set_gpio set_window].
    rewrite level_clear_store by (trivial; lia).
    replace (pin - 32 =? pin) with false by (symmetry; apply Z.eqb_neq; lia).
    cbn [level log]. rewrite Hmach, level_loop_set by (trivial; lia).
    rewrite Hmod, Z.eqb_refl. reflexivity.
Qed.

(** With pin 40 and SIGINT in the sixth turn: pin 8 stays high. *)
Lemma signal_leaves_driven_pin_high_pin40 :
  exists m',
    interrupted w_pi pin40 (18 + 3 * 5 + 1) SIGINT = Ended (Exited 0) m'
    /\ level m' 40 = false
    /\ level m' 8 = true.
Proof.
  apply (signal_leaves_driven_pin_high w_pi pin40 0x76f00000 SIGINT 5).
  - exact accepted_pin40.
  - vm_compute. discriminate.
  - discriminate.
  - reflexivity.
Defined.

(** With pin 17. *)
Lemma device_opened_iff_accepted_pin17 :
  exists n, In (Ev (Open "/dev/mem")) (trace (machine_of (exec w_pi pin17 n))).
Proof.
  apply (device_opened_iff_accepted w_pi pin17). exact accepted_pin17.
Defined.

End TogglerBehaviour.

(** ** The runs of the software-PWM driver *)

Module PwmRunFacts.
Import Double DoubleSpec DoubleFacts Pwm PwmSpec PwmFacts PwmRuns.

Lemma exec_announced w onTime offTime n :
  timings_of w = Some (onTime, offTime) ->
  exec w (9 + n)
  = run w n (start (announced (w_chipNum w) (w_pinNum w)
                      (periodUs (w_frequencyHz w)) onTime offTime) inputs_read).
Proof.
  intros Ht. apply timings_Some in Ht. destruct Ht as [Hon Hoff].
  rewrite exec_after_reads. unfold start.
  rewrite (control_defined _ _ _ _ _ _ Hon Hoff). reflexivity.
Qed.

Ltac psteps Hc Hl Hr :=
  repeat (eapply pwm_run_step;
    [ sym; rewrite ?Hc, ?Hl, ?Hr; sym; cbn [step handle];
      rewrite ?Hc, ?Hl, ?Hr; reflexivity | ]).

(** The process at the head of the loop for the first time. *)
Lemma exec_at_loop w onTime offTime :
  timings_of w = Some (onTime, offTime) ->
  w_chip_ok w = true -> w_line_ok w = true -> w_request_ok w = true ->
  exec w 14
  = looping onTime offTime
      (with_trace inputs_read
         (announcement w onTime offTime
          ++ [Ev (Chip_open (w_chipNum w)); Ev (Get_line (w_pinNum w));
              Ev (Line_request "gpio-pwm" 0)])).
Proof.
  intros Ht Hc Hl Hr.
  change 14%nat with (9 + 5)%nat. rewrite (exec_announced _ _ _ _ Ht).
  unfold start, announced, drive.
  psteps Hc Hl Hr. reflexivity.
Qed.


Lemma set_up_snoc w l x : set_up w l -> set_up w (l ++ [x]).
Proof.
  intros (Hc & Hl & Hr & H1 & H2 & H3).
  repeat split; trivial; apply in_or_app; left; assumption.
Qed.

Lemma setup_snoc w l x :
  Forall no_drive l \/ set_up w l -> no_drive x \/ set_up w l ->
  Forall no_drive (l ++ [x]) \/ set_up w (l ++ [x]).
Proof.
  intros [Hl|Hl] [Hx|Hx].
  - left. apply Forall_app. split; [exact Hl | repeat constructor; exact Hx].
  - right. apply set_up_snoc, Hx.
  - right. apply set_up_snoc, Hl.
  - right. apply set_up_snoc, Hl.
Qed.

Lemma error_reported_snoc l : error_reported (l ++ [Ev Cerr_error]).
Proof. unfold error_reported. rewrite rev_unit. exact I. Qed.

Ltac staged :=
  cbn [machine_of log trace read_int read_double boot inputs_read];
  repeat first
    [ assumption
    | apply setup_snoc; [| first [left; exact I | right; assumption]]
    | left; repeat constructor ].

Ltac plan :=
  constructor;
  [ staged
  | first [ exact I | split; [reflexivity | apply error_reported_snoc] ] ].

Ltac plan_onward := apply reach_step; [ plan | cbn -[run Z.gtb List.length] ].

Ltac plan_straight :=
  apply throughout_step; [ plan | cbn -[run Z.gtb List.length control] ].

Lemma caught_plan w m :
  Forall no_drive (trace m) \/ set_up w (trace m) ->
  throughout w (Plan w) (Live (observe (caught tt)) m).
Proof.
  intros Hm. unfold caught.
  plan_straight. plan_straight. apply throughout_Done. plan.
Qed.

Ltac plan_thrown :=
  apply reach_now; right; apply caught_plan; right;
  cbn [machine_of log trace]; repeat apply set_up_snoc; assumption.

Ltac plan_again :=
  apply reach_now; left; eexists; split;
  [ reflexivity
  | cbn [machine_of log trace]; repeat apply set_up_snoc; assumption ].

Ltac plan_answer :=
  match goal with
  | |- context [Ret (w_set_value_ok ?w ?n)] =>
      let Ok := fresh "Ok" in
      destruct (w_set_value_ok w n) eqn:Ok; [|plan_thrown]
  end.

Ltac plan_loop :=
  apply reach_step;
  [ constructor;
    [ right; cbn [machine_of log trace]; repeat apply set_up_snoc; assumption
    | exact I ]
  | cbn -[run Z.gtb List.length] ].

Lemma looping_plan w onTime offTime m :
  set_up w (trace m) ->
  throughout w (Plan w) (looping onTime offTime m).
Proof.
  revert m.
  apply (throughout_loop w Z (Plan w) (fun m => set_up w (trace m))).
  intros m Hm. unfold looping, cycle.
  destruct (onTime >? 0) eqn:Hon; destruct (offTime >? 0) eqn:Hoff;
    (split; [constructor; [right; exact Hm | exact I]|]);
    cbn -[run Z.gtb List.length].
  - plan_answer. plan_loop. plan_loop. plan_answer. plan_loop. plan_loop.
    plan_again.
  - plan_answer. plan_loop. plan_loop. plan_again.
  - plan_answer. plan_loop. plan_loop. plan_again.
  - plan_again.
Qed.

Lemma announced_plan w P onTime offTime :
  throughout w (Plan w)
    (start (announced (w_chipNum w) (w_pinNum w) P onTime offTime) inputs_read).
Proof.
  unfold start, announced, drive.
  assert (H0 : Forall no_drive (trace inputs_read) \/ set_up w (trace inputs_read))
    by (left; repeat constructor).
  plan_straight. plan_straight. plan_straight.
  destruct (w_chip_ok w) eqn:Hc; [|apply caught_plan; staged].
  plan_straight.
  destruct (w_line_ok w) eqn:Hl; [|apply caught_plan; staged].
  plan_straight.
  destruct (w_request_ok w) eqn:Hr; [|apply caught_plan; staged].
  apply (looping_plan w onTime offTime).
  cbn [machine_of log trace inputs_read]. repeat split; trivial.
  - do 11 right. left. reflexivity.
  - do 12 right. left. reflexivity.
  - do 13 right. left. reflexivity.
Qed.

Lemma control_plan w :
  throughout w (Plan w)
    (start (control (w_chipNum w) (w_pinNum w) (w_frequencyHz w)
              (w_brightnessPercent w)) inputs_read).
Proof.
  destruct (timings (w_frequencyHz w) (w_brightnessPercent w))
    as [[onTime offTime]|] eqn:Ht.
  - apply timings_Some in Ht. destruct Ht as [Hon Hoff].
    unfold start. rewrite (control_defined _ _ _ _ _ _ Hon Hoff).
    apply announced_plan.
  - apply throughout_step.
    + constructor; [left; repeat constructor | exact I].
    + rewrite control_undefined by exact Ht.
      apply throughout_Ended. constructor; [left; repeat constructor | exact I].
Qed.

Lemma exec_plan w n : Plan w (exec w n).
Proof.
  destruct (Nat.lt_ge_cases n 9) as [Hn|Hn].
  - unfold exec.
    do 9 (destruct n as [|n];
          [constructor; [left; repeat constructor | exact I]|]).
    lia.
  - replace n with (9 + (n - 9))%nat by lia.
    rewrite exec_after_reads. apply control_plan.
Qed.

Lemma percent_at_most_hundred m e :
  percent (S754_finite false m e) ->
  SFleb (S754_finite false m e) SFhundred = true.
Proof.
  intros H. unfold SFleb, SFhundred. cbn [SFcompare].
  destruct (Z.compare_spec e (-46)) as [He|He|He]; try reflexivity.
  - destruct (Pos.compare_cont Eq m 7036874417766400) eqn:E; try reflexivity.
    apply Pos.compare_gt_iff in E. exfalso.
    destruct H as [H|[_ H]]; [lia|]. apply Zle_not_lt in H. apply H. exact E.
  - exfalso. destruct H as [H|[H _]]; lia.
Qed.

Lemma percent_in_range (x : float) :
  percent (Prim2SF x) -> (0 <=? x)%float = true /\ (x <=? 100)%float = true.
Proof.
  rewrite !FloatAxioms.leb_spec, Prim2SF_zero, Prim2SF_hundred.
  destruct (Prim2SF x) as [s|[|]| |[|] m e]; cbn [percent]; try tauto.
  intros H. split; [reflexivity | apply percent_at_most_hundred, H].
Qed.

Lemma not_nan (x : float) : (x =? x)%float = true -> Prim2SF x <> S754_nan.
Proof.
  rewrite FloatAxioms.eqb_spec. intros H E. rewrite E in H. discriminate H.
Qed.

Lemma safe_brightness_tests (b : float) :
  (safe_brightness b <? 0)%float = false
  /\ (100 <? safe_brightness b)%float = false.
Proof.
  unfold safe_brightness.
  destruct (b <? 0)%float eqn:E1.
  - split; reflexivity.
  - destruct (100 <? b)%float eqn:E2; [split; reflexivity | split; assumption].
Qed.

Lemma safe_brightness_number (b : float) :
  (b =? b)%float = true -> (safe_brightness b =? safe_brightness b)%float = true.
Proof.
  intros H. unfold safe_brightness.
  destruct (b <? 0)%float; [reflexivity|].
  destruct (100 <? b)%float; [reflexivity | exact H].
Qed.

End PwmRunFacts.

(** ** The behaviour of the software-PWM driver *)

Module PwmBehaviour.
Import Double DoubleSpec DoubleFacts Pwm PwmSpec PwmFacts PwmRuns PwmRunFacts.

(** X13: when the opening of the chip throws, the line is neither
    obtained nor requested; when obtaining the line throws, it is not
    requested; when the request throws, the line is not driven.  In each
    case the error is written to [std::cerr] and [main] returns 1. *)
Theorem setup_failure_is_reported w onTime offTime :
  timings_of w = Some (onTime, offTime) ->
  (w_chip_ok w = false ->
   exists m, exec w 14 = Done 1 m
     /\ trace m = announcement w onTime offTime
                  ++ [Ev (Chip_open (w_chipNum w)); Ev Cerr_error])
  /\ (w_chip_ok w = true -> w_line_ok w = false ->
      exists m, exec w 15 = Done 1 m
        /\ trace m = announcement w onTime offTime
                     ++ [Ev (Chip_open (w_chipNum w));
                         Ev (Get_line (w_pinNum w)); Ev Cerr_error])
  /\ (w_chip_ok w = true -> w_line_ok w = true -> w_request_ok w = false ->
      exists m, exec w 16 = Done 1 m
        /\ trace m = announcement w onTime offTime
                     ++ [Ev (Chip_open (w_chipNum w));
                         Ev (Get_line (w_pinNum w));
                         Ev (Line_request "gpio-pwm" 0); Ev Cerr_error]).
Proof.
  intros Ht. split; [|split].
  - intros Hc. eexists. split.
    + change 14%nat with (9 + 5)%nat. rewrite (exec_announced _ _ _ _ Ht).
      unfold start, announced, drive, caught.
      psteps Hc Hc Hc. reflexivity.
    + reflexivity.
  - intros Hc Hl. eexists. split.
    + change 15%nat with (9 + 6)%nat. rewrite (exec_announced _ _ _ _ Ht).
      unfold start, announced, drive, caught.
      psteps Hc Hl Hl. reflexivity.
    + reflexivity.
  - intros Hc Hl Hr. eexists. split.
    + change 16%nat with (9 + 7)%nat. rewrite (exec_announced _ _ _ _ Ht).
      unfold start, announced, drive, caught.
      psteps Hc Hl Hr. reflexivity.
    + reflexivity.
Qed.

(** At 100 Hz and 50 %. *)
Lemma setup_failure_is_reported_led :
  (exists m, exec w_no_chip 14 = Done 1 m
     /\ trace m = announcement w_no_chip 5000 5000
                  ++ [Ev (Chip_open 0); Ev Cerr_error])
  /\ (exists m, exec w_no_line 15 = Done 1 m
        /\ trace m = announcement w_no_line 5000 5000
                     ++ [Ev (Chip_open 0); Ev (Get_line 18); Ev Cerr_error])
  /\ (exists m, exec w_busy_line 16 = Done 1 m
        /\ trace m = announcement w_busy_line 5000 5000
                     ++ [Ev (Chip_open 0); Ev (Get_line 18);
                         Ev (Line_request "gpio-pwm" 0); Ev Cerr_error]).
Proof.
  split; [|split].
  - apply (setup_failure_is_reported w_no_chip 5000 5000); reflexivity.
  - apply (setup_failure_is_reported w_no_line 5000 5000); reflexivity.
  - apply (setup_failure_is_reported w_busy_line 5000 5000); reflexivity.
Defined.

(** X14: when a conversion to [long] is undefined, it is performed before
    the timings are printed and before any call into libgpiod. *)
Theorem undefined_conversion_precedes_hardware w n :
  timings_of w = None ->
  exec w (10 + n) = Ended Undefined_behaviour (log Undefined inputs_read).
Proof.
  intros Ht. change (10 + n)%nat with (9 + S n)%nat.
  rewrite exec_after_reads, pwm_run_S, control_undefined by exact Ht.
  apply pwm_run_Ended.
Qed.

(** At 2^-50 Hz the period is above the largest [long]. *)
Lemma undefined_conversion_precedes_hardware_slow :
  exec w_slow (10 + 5) = Ended Undefined_behaviour (log Undefined inputs_read).
Proof.
  apply (undefined_conversion_precedes_hardware w_slow 5). reflexivity.
Defined.

(** X15: a turn of the loop in which [set_value] does not throw performs
    [set_value(1)] and the sleep of the on-time if it is above 0, then
    [set_value(0)] and the sleep of the off-time if it is above 0, nothing
    else, and comes back to the head of the loop. *)
Theorem turn_of_the_loop w onTime offTime m :
  (forall n, w_set_value_ok w n = true) ->
  exists m',
    run w (List.length (turn onTime offTime) + 1) (looping onTime offTime m)
    = looping onTime offTime m'
    /\ trace m' = trace m ++ turn onTime offTime
    /\ ints_read m' = ints_read m /\ doubles_read m' = doubles_read m.
Proof.
  intros Hok. unfold looping, cycle, turn.
  destruct (onTime >? 0); destruct (offTime >? 0);
    cbn [List.length app Nat.add]; eexists; (split; [|split]).
  all: try (repeat (eapply pwm_run_step;
              [ sym; rewrite ?Hok; sym; cbn [step handle]; rewrite ?Hok;
                reflexivity | ]);
            reflexivity).
  all: cbn [trace log ints_read doubles_read]; rewrite <- ?app_assoc, ?app_nil_r;
    auto.
Qed.

(** With both durations at 5000. *)
Lemma turn_of_the_loop_led :
  exists m',
    run w_led 5 (looping 5000 5000 inputs_read) = looping 5000 5000 m'
    /\ trace m'
       = trace inputs_read
         ++ [Ev (Set_value 1); Ev (Sleep_for 5000);
             Ev (Set_value 0); Ev (Sleep_for 5000)]
    /\ ints_read m' = 2%nat /\ doubles_read m' = 2%nat.
Proof.
  apply (turn_of_the_loop w_led 5000 5000 inputs_read). reflexivity.
Defined.



(** X17: [main] returns only 1, and only right after the message of the
    handler on [std::cerr]: the [return 0] after the [try] block is never
    reached. *)
Theorem driver_returns_only_after_error w n :
  match exec w n with
  | Done r m => r = 1 /\ error_reported (trace m)
  | _ => True
  end.
Proof. apply (plan_end _ _ (exec_plan w n)). Qed.

(** X18: [set_value] and the sleeps happen only once the chip of the
    number entered is open and the line of the number entered is obtained
    and requested as an output named gpio-pwm that starts low, none of the
    three calls having thrown. *)
Theorem line_driven_only_after_setup w n ev :
  In ev (effects w n) -> ~ no_drive ev -> set_up w (effects w n).
Proof.
  intros Hin Hd.
  destruct (plan_setup _ _ (exec_plan w n)) as [H|H]; [|exact H].
  exfalso. apply Hd. rewrite Forall_forall in H. apply H, Hin.
Qed.

(** At the first [set_value] of a run at 100 Hz and 50 %. *)
Lemma line_driven_only_after_setup_led : set_up w_led (effects w_led 16).
Proof.
  apply (line_driven_only_after_setup w_led 16 (Ev (Set_value 1))).
  - vm_compute. do 14 right. left. reflexivity.
  - intros H. exact H.
Defined.

(** X19: the safety checks change nothing when applied a second time;
    of a brightness that is a number they make one from 0 to 100, of a
    frequency that is a number one above 0. *)
Theorem safety_checks_bound_the_inputs (b f : float) :
  let b' := safe_brightness b in
  let f' := safe_frequency f in
  safe_brightness b' = b' /\ safe_frequency f' = f'
  /\ ((b =? b)%float = true ->
      (0 <=? b')%float = true /\ (b' <=? 100)%float = true)
  /\ ((f =? f)%float = true -> (0 <? f')%float = true).
Proof.
  intros b' f'.
  destruct (safe_brightness_tests b) as [H1 H2]. fold b' in H1, H2.
  split; [unfold safe_brightness at 1; rewrite H1, H2; reflexivity|].
  assert (Hf : (f' <=? 0)%float = false).
  { unfold f', safe_frequency. destruct (f <=? 0)%float eqn:E; [reflexivity|exact E]. }
  split; [unfold safe_frequency at 1; rewrite Hf; reflexivity|].
  split.
  - intros Hb. apply percent_in_range.
    destruct (percent_of_bounds b' H1 H2) as [Hn|Hp]; [|exact Hp].
    exfalso. exact (not_nan b' (safe_brightness_number b Hb) Hn).
  - intros Hn.
    assert (Hn' : (f' =? f')%float = true).
    { unfold f', safe_frequency. destruct (f <=? 0)%float; [reflexivity|exact Hn]. }
    pose proof (not_leb_zero f' Hf) as Hc. pose proof (not_nan f' Hn') as Hnn.
    rewrite FloatAxioms.ltb_spec, Prim2SF_zero.
    destruct (Prim2SF f') as [s|[|]| |[|] m e]; cbn [positive_or_nan] in Hc;
      try tauto; reflexivity.
Qed.

(** At brightness 150 and frequency -3. *)
Lemma safety_checks_bound_the_inputs_150 :
  (0 <=? safe_brightness 150)%float = true
  /\ (safe_brightness 150 <=? 100)%float = true
  /\ (0 <? safe_frequency (-3))%float = true.
Proof.
  destruct (safety_checks_bound_the_inputs 150 (-3)) as (_ & _ & Hb & Hf).
  destruct (Hb eq_refl) as [H0 H100].
  split; [exact H0|]. split; [exact H100 | exact (Hf eq_refl)].
Defined.

(** X20: when the first [set_value] throws, no sleep follows: the error
    is written to [std::cerr] and [main] returns 1. *)
Theorem first_set_value_failure_is_reported w onTime offTime :
  timings_of w = Some (onTime, offTime) -> 0 < onTime ->
  w_chip_ok w = true -> w_line_ok w = true -> w_request_ok w = true ->
  w_set_value_ok w 14 = false ->
  exists m,
    exec w 17 = Done 1 m
    /\ trace m = announcement w onTime offTime
                 ++ [Ev (Chip_open (w_chipNum w)); Ev (Get_line (w_pinNum w));
                     Ev (Line_request "gpio-pwm" 0);
                     Ev (Set_value 1); Ev Cerr_error].
Proof.
  intros Ht Hon Hc Hl Hr Hs.
  assert (Hon' : (onTime >? 0) = true) by (apply Z.gtb_gt; lia).
  eexists. split.
  - change 17%nat with (14 + 3)%nat. unfold exec. rewrite pwm_run_add.
    fold (exec w 14). rewrite (exec_at_loop w onTime offTime Ht Hc Hl Hr).
    unfold looping, cycle, caught. rewrite Hon'.
    eapply pwm_run_step; [sym; cbn [step handle]; reflexivity|].
    cbn [List.length with_trace trace app announcement inputs_read].
    rewrite Hs.
    psteps Hc Hl Hr. reflexivity.
  - reflexivity.
Qed.

(** At 100 Hz and 50 %. *)
Lemma first_set_value_failure_is_reported_led :
  exists m,
    exec w_stuck 17 = Done 1 m
    /\ trace m = announcement w_stuck 5000 5000
                 ++ [Ev (Chip_open 0); Ev (Get_line 18);
                     Ev (Line_request "gpio-pwm" 0);
                     Ev (Set_value 1); Ev Cerr_error].
Proof.
  apply (first_set_value_failure_is_reported w_stuck 5000 5000);
    reflexivity.
Defined.

End PwmBehaviour.
